(** * Block ciphers ARIA, PRESENT and SIMON: a shallow embedding of the C sources

    The three C files (ARIA.c, PRESENT.c, SIMON.c) are embedded function by
    function.  Machine words are integers of [Z] with the wrap-around of the
    C type written out ([u8], [u16], [u32], [u64]); C arrays are lists read
    with [nth] and written with [upd]; the globals of ARIA.c are the fields of
    one record threaded through the functions that touch them. *)

From Stdlib Require Import ZArith List Lia Bool Btauto FinFun.
Import ListNotations.
Local Open Scope Z_scope.

(* ================================================================== *)
(** ** Fixed-width words, arrays and loops *)
(* ================================================================== *)

Module Word.

(** Conversion to the unsigned C type of the given width. *)
Definition u8  (z : Z) : Z := z mod 2 ^ 8.
Definition u16 (z : Z) : Z := z mod 2 ^ 16.
Definition u32 (z : Z) : Z := z mod 2 ^ 32.
Definition u64 (z : Z) : Z := z mod 2 ^ 64.

(** Membership in the value range of a w-bit unsigned type. *)
Definition in_u8  (z : Z) : Prop := 0 <= z < 2 ^ 8.
Definition in_u16 (z : Z) : Prop := 0 <= z < 2 ^ 16.
Definition in_u32 (z : Z) : Prop := 0 <= z < 2 ^ 32.
Definition in_u64 (z : Z) : Prop := 0 <= z < 2 ^ 64.

(** [a[i]] for a C array held as a list. *)
Definition rd (a : list Z) (i : Z) : Z := nth (Z.to_nat i) a 0.

(** [a[i] = v]; the arrays of the sources are only written in bounds. *)
Fixpoint upd_nat (a : list Z) (n : nat) (v : Z) : list Z :=
  match a, n with
  | [], _ => []
  | _ :: t, O => v :: t
  | h :: t, S n' => h :: upd_nat t n' v
  end.
Definition upd (a : list Z) (i : Z) (v : Z) : list Z := upd_nat a (Z.to_nat i) v.

(** [for (i = lo; i < hi; i += step) s = body i s], for a positive [step];
    [hi - lo] iterations are then always enough ([idx_up_fuel_stable]
    below). *)
Fixpoint for_up_fuel {S : Type} (fuel : nat) (i hi step : Z)
         (body : Z -> S -> S) (s : S) : S :=
  match fuel with
  | O => s
  | Datatypes.S fuel' =>
      if i <? hi then for_up_fuel fuel' (i + step) hi step body (body i s) else s
  end.
Definition for_up {S : Type} (lo hi step : Z) (body : Z -> S -> S) (s : S) : S :=
  for_up_fuel (Z.to_nat (hi - lo)) lo hi step body s.

(** [for (i = hi; i >= lo; i -= step) s = body i s], for a positive [step]. *)
Fixpoint for_down_fuel {S : Type} (fuel : nat) (i lo step : Z)
         (body : Z -> S -> S) (s : S) : S :=
  match fuel with
  | O => s
  | Datatypes.S fuel' =>
      if lo <=? i then for_down_fuel fuel' (i - step) lo step body (body i s) else s
  end.
Definition for_down {S : Type} (hi lo step : Z) (body : Z -> S -> S) (s : S) : S :=
  for_down_fuel (Z.to_nat (hi - lo + 1)) hi lo step body s.

End Word.
Import Word.

(* ================================================================== *)
(** ** ARIA.c *)
(* ================================================================== *)

Module ARIA.

(** [unsigned __int32 x[4]]: a 128-bit value, most significant word first. *)
Record V128 : Type := mk128 { q0 : Z; q1 : Z; q2 : Z; q3 : Z }.

Definition CK1 : V128 := mk128 0x517cc1b7 0x27220a94 0xfe13abe8 0xfa9a6ee0.
Definition CK2 : V128 := mk128 0x6db14acc 0x9e21c820 0xff28b1d5 0xef5de2b0.
Definition CK3 : V128 := mk128 0xdb92371d 0x2126e970 0x03249775 0x04e8c90e.

(** The global [KR]; no function of the file assigns it. *)
Definition KR : V128 := mk128 0 0 0 0.

Definition SB1 : list Z :=
  [
   0x63; 0x7c; 0x77; 0x7b; 0xf2; 0x6b; 0x6f; 0xc5; 0x30; 0x01; 0x67; 0x2b; 0xfe; 0xd7; 0xab; 0x76;
   0xca; 0x82; 0xc9; 0x7d; 0xfa; 0x59; 0x47; 0xf0; 0xad; 0xd4; 0xa2; 0xaf; 0x9c; 0xa4; 0x72; 0xc0;
   0xb7; 0xfd; 0x93; 0x26; 0x36; 0x3f; 0xf7; 0xcc; 0x34; 0xa5; 0xe5; 0xf1; 0x71; 0xd8; 0x31; 0x15;
   0x04; 0xc7; 0x23; 0xc3; 0x18; 0x96; 0x05; 0x9a; 0x07; 0x12; 0x80; 0xe2; 0xeb; 0x27; 0xb2; 0x75;
   0x09; 0x83; 0x2c; 0x1a; 0x1b; 0x6e; 0x5a; 0xa0; 0x52; 0x3b; 0xd6; 0xb3; 0x29; 0xe3; 0x2f; 0x84;
   0x53; 0xd1; 0x00; 0xed; 0x20; 0xfc; 0xb1; 0x5b; 0x6a; 0xcb; 0xbe; 0x39; 0x4a; 0x4c; 0x58; 0xcf;
   0xd0; 0xef; 0xaa; 0xfb; 0x43; 0x4d; 0x33; 0x85; 0x45; 0xf9; 0x02; 0x7f; 0x50; 0x3c; 0x9f; 0xa8;
   0x51; 0xa3; 0x40; 0x8f; 0x92; 0x9d; 0x38; 0xf5; 0xbc; 0xb6; 0xda; 0x21; 0x10; 0xff; 0xf3; 0xd2;
   0xcd; 0x0c; 0x13; 0xec; 0x5f; 0x97; 0x44; 0x17; 0xc4; 0xa7; 0x7e; 0x3d; 0x64; 0x5d; 0x19; 0x73;
   0x60; 0x81; 0x4f; 0xdc; 0x22; 0x2a; 0x90; 0x88; 0x46; 0xee; 0xb8; 0x14; 0xde; 0x5e; 0x0b; 0xdb;
   0xe0; 0x32; 0x3a; 0x0a; 0x49; 0x06; 0x24; 0x5c; 0xc2; 0xd3; 0xac; 0x62; 0x91; 0x95; 0xe4; 0x79;
   0xe7; 0xc8; 0x37; 0x6d; 0x8d; 0xd5; 0x4e; 0xa9; 0x6c; 0x56; 0xf4; 0xea; 0x65; 0x7a; 0xae; 0x08;
   0xba; 0x78; 0x25; 0x2e; 0x1c; 0xa6; 0xb4; 0xc6; 0xe8; 0xdd; 0x74; 0x1f; 0x4b; 0xbd; 0x8b; 0x8a;
   0x70; 0x3e; 0xb5; 0x66; 0x48; 0x03; 0xf6; 0x0e; 0x61; 0x35; 0x57; 0xb9; 0x86; 0xc1; 0x1d; 0x9e;
   0xe1; 0xf8; 0x98; 0x11; 0x69; 0xd9; 0x8e; 0x94; 0x9b; 0x1e; 0x87; 0xe9; 0xce; 0x55; 0x28; 0xdf;
   0x8c; 0xa1; 0x89; 0x0d; 0xbf; 0xe6; 0x42; 0x68; 0x41; 0x99; 0x2d; 0x0f; 0xb0; 0x54; 0xbb; 0x16
  ].

Definition SB2 : list Z :=
  [
   0xe2; 0x4e; 0x54; 0xfc; 0x94; 0xc2; 0x4a; 0xcc; 0x62; 0x0d; 0x6a; 0x46; 0x3c; 0x4d; 0x8b; 0xd1;
   0x5e; 0xfa; 0x64; 0xcb; 0xb4; 0x97; 0xbe; 0x2b; 0xbc; 0x77; 0x2e; 0x03; 0xd3; 0x19; 0x59; 0xc1;
   0x1d; 0x06; 0x41; 0x6b; 0x55; 0xf0; 0x99; 0x69; 0xea; 0x9c; 0x18; 0xae; 0x63; 0xdf; 0xe7; 0xbb;
   0x00; 0x73; 0x66; 0xfb; 0x96; 0x4c; 0x85; 0xe4; 0x3a; 0x09; 0x45; 0xaa; 0x0f; 0xee; 0x10; 0xeb;
   0x2d; 0x7f; 0xf4; 0x29; 0xac; 0xcf; 0xad; 0x91; 0x8d; 0x78; 0xc8; 0x95; 0xf9; 0x2f; 0xce; 0xcd;
   0x08; 0x7a; 0x88; 0x38; 0x5c; 0x83; 0x2a; 0x28; 0x47; 0xdb; 0xb8; 0xc7; 0x93; 0xa4; 0x12; 0x53;
   0xff; 0x87; 0x0e; 0x31; 0x36; 0x21; 0x58; 0x48; 0x01; 0x8e; 0x37; 0x74; 0x32; 0xca; 0xe9; 0xb1;
   0xb7; 0xab; 0x0c; 0xd7; 0xc4; 0x56; 0x42; 0x26; 0x07; 0x98; 0x60; 0xd9; 0xb6; 0xb9; 0x11; 0x40;
   0xec; 0x20; 0x8c; 0xbd; 0xa0; 0xc9; 0x84; 0x04; 0x49; 0x23; 0xf1; 0x4f; 0x50; 0x1f; 0x13; 0xdc;
   0xd8; 0xc0; 0x9e; 0x57; 0xe3; 0xc3; 0x7b; 0x65; 0x3b; 0x02; 0x8f; 0x3e; 0xe8; 0x25; 0x92; 0xe5;
   0x15; 0xdd; 0xfd; 0x17; 0xa9; 0xbf; 0xd4; 0x9a; 0x7e; 0xc5; 0x39; 0x67; 0xfe; 0x76; 0x9d; 0x43;
   0xa7; 0xe1; 0xd0; 0xf5; 0x68; 0xf2; 0x1b; 0x34; 0x70; 0x05; 0xa3; 0x8a; 0xd5; 0x79; 0x86; 0xa8;
   0x30; 0xc6; 0x51; 0x4b; 0x1e; 0xa6; 0x27; 0xf6; 0x35; 0xd2; 0x6e; 0x24; 0x16; 0x82; 0x5f; 0xda;
   0xe6; 0x75; 0xa2; 0xef; 0x2c; 0xb2; 0x1c; 0x9f; 0x5d; 0x6f; 0x80; 0x0a; 0x72; 0x44; 0x9b; 0x6c;
   0x90; 0x0b; 0x5b; 0x33; 0x7d; 0x5a; 0x52; 0xf3; 0x61; 0xa1; 0xf7; 0xb0; 0xd6; 0x3f; 0x7c; 0x6d;
   0xed; 0x14; 0xe0; 0xa5; 0x3d; 0x22; 0xb3; 0xf8; 0x89; 0xde; 0x71; 0x1a; 0xaf; 0xba; 0xb5; 0x81
  ].

Definition SB3 : list Z :=
  [
   0x52; 0x09; 0x6a; 0xd5; 0x30; 0x36; 0xa5; 0x38; 0xbf; 0x40; 0xa3; 0x9e; 0x81; 0xf3; 0xd7; 0xfb;
   0x7c; 0xe3; 0x39; 0x82; 0x9b; 0x2f; 0xff; 0x87; 0x34; 0x8e; 0x43; 0x44; 0xc4; 0xde; 0xe9; 0xcb;
   0x54; 0x7b; 0x94; 0x32; 0xa6; 0xc2; 0x23; 0x3d; 0xee; 0x4c; 0x95; 0x0b; 0x42; 0xfa; 0xc3; 0x4e;
   0x08; 0x2e; 0xa1; 0x66; 0x28; 0xd9; 0x24; 0xb2; 0x76; 0x5b; 0xa2; 0x49; 0x6d; 0x8b; 0xd1; 0x25;
   0x72; 0xf8; 0xf6; 0x64; 0x86; 0x68; 0x98; 0x16; 0xd4; 0xa4; 0x5c; 0xcc; 0x5d; 0x65; 0xb6; 0x92;
   0x6c; 0x70; 0x48; 0x50; 0xfd; 0xed; 0xb9; 0xda; 0x5e; 0x15; 0x46; 0x57; 0xa7; 0x8d; 0x9d; 0x84;
   0x90; 0xd8; 0xab; 0x00; 0x8c; 0xbc; 0xd3; 0x0a; 0xf7; 0xe4; 0x58; 0x05; 0xb8; 0xb3; 0x45; 0x06;
   0xd0; 0x2c; 0x1e; 0x8f; 0xca; 0x3f; 0x0f; 0x02; 0xc1; 0xaf; 0xbd; 0x03; 0x01; 0x13; 0x8a; 0x6b;
   0x3a; 0x91; 0x11; 0x41; 0x4f; 0x67; 0xdc; 0xea; 0x97; 0xf2; 0xcf; 0xce; 0xf0; 0xb4; 0xe6; 0x73;
   0x96; 0xac; 0x74; 0x22; 0xe7; 0xad; 0x35; 0x85; 0xe2; 0xf9; 0x37; 0xe8; 0x1c; 0x75; 0xdf; 0x6e;
   0x47; 0xf1; 0x1a; 0x71; 0x1d; 0x29; 0xc5; 0x89; 0x6f; 0xb7; 0x62; 0x0e; 0xaa; 0x18; 0xbe; 0x1b;
   0xfc; 0x56; 0x3e; 0x4b; 0xc6; 0xd2; 0x79; 0x20; 0x9a; 0xdb; 0xc0; 0xfe; 0x78; 0xcd; 0x5a; 0xf4;
   0x1f; 0xdd; 0xa8; 0x33; 0x88; 0x07; 0xc7; 0x31; 0xb1; 0x12; 0x10; 0x59; 0x27; 0x80; 0xec; 0x5f;
   0x60; 0x51; 0x7f; 0xa9; 0x19; 0xb5; 0x4a; 0x0d; 0x2d; 0xe5; 0x7a; 0x9f; 0x93; 0xc9; 0x9c; 0xef;
   0xa0; 0xe0; 0x3b; 0x4d; 0xae; 0x2a; 0xf5; 0xb0; 0xc8; 0xeb; 0xbb; 0x3c; 0x83; 0x53; 0x99; 0x61;
   0x17; 0x2b; 0x04; 0x7e; 0xba; 0x77; 0xd6; 0x26; 0xe1; 0x69; 0x14; 0x63; 0x55; 0x21; 0x0c; 0x7d
  ].

Definition SB4 : list Z :=
  [
   0x30; 0x68; 0x99; 0x1b; 0x87; 0xb9; 0x21; 0x78; 0x50; 0x39; 0xdb; 0xe1; 0x72; 0x09; 0x62; 0x3c;
   0x3e; 0x7e; 0x5e; 0x8e; 0xf1; 0xa0; 0xcc; 0xa3; 0x2a; 0x1d; 0xfb; 0xb6; 0xd6; 0x20; 0xc4; 0x8d;
   0x81; 0x65; 0xf5; 0x89; 0xcb; 0x9d; 0x77; 0xc6; 0x57; 0x43; 0x56; 0x17; 0xd4; 0x40; 0x1a; 0x4d;
   0xc0; 0x63; 0x6c; 0xe3; 0xb7; 0xc8; 0x64; 0x6a; 0x53; 0xaa; 0x38; 0x98; 0x0c; 0xf4; 0x9b; 0xed;
   0x7f; 0x22; 0x76; 0xaf; 0xdd; 0x3a; 0x0b; 0x58; 0x67; 0x88; 0x06; 0xc3; 0x35; 0x0d; 0x01; 0x8b;
   0x8c; 0xc2; 0xe6; 0x5f; 0x02; 0x24; 0x75; 0x93; 0x66; 0x1e; 0xe5; 0xe2; 0x54; 0xd8; 0x10; 0xce;
   0x7a; 0xe8; 0x08; 0x2c; 0x12; 0x97; 0x32; 0xab; 0xb4; 0x27; 0x0a; 0x23; 0xdf; 0xef; 0xca; 0xd9;
   0xb8; 0xfa; 0xdc; 0x31; 0x6b; 0xd1; 0xad; 0x19; 0x49; 0xbd; 0x51; 0x96; 0xee; 0xe4; 0xa8; 0x41;
   0xda; 0xff; 0xcd; 0x55; 0x86; 0x36; 0xbe; 0x61; 0x52; 0xf8; 0xbb; 0x0e; 0x82; 0x48; 0x69; 0x9a;
   0xe0; 0x47; 0x9e; 0x5c; 0x04; 0x4b; 0x34; 0x15; 0x79; 0x26; 0xa7; 0xde; 0x29; 0xae; 0x92; 0xd7;
   0x84; 0xe9; 0xd2; 0xba; 0x5d; 0xf3; 0xc5; 0xb0; 0xbf; 0xa4; 0x3b; 0x71; 0x44; 0x46; 0x2b; 0xfc;
   0xeb; 0x6f; 0xd5; 0xf6; 0x14; 0xfe; 0x7c; 0x70; 0x5a; 0x7d; 0xfd; 0x2f; 0x18; 0x83; 0x16; 0xa5;
   0x91; 0x1f; 0x05; 0x95; 0x74; 0xa9; 0xc1; 0x5b; 0x4a; 0x85; 0x6d; 0x13; 0x07; 0x4f; 0x4e; 0x45;
   0xb2; 0x0f; 0xc9; 0x1c; 0xa6; 0xbc; 0xec; 0x73; 0x90; 0x7b; 0xcf; 0x59; 0x8f; 0xa1; 0xf9; 0x2d;
   0xf2; 0xb1; 0x00; 0x94; 0x37; 0x9f; 0xd0; 0x2e; 0x9c; 0x6e; 0x28; 0x3f; 0x80; 0xf0; 0x3d; 0xd3;
   0x25; 0x8a; 0xb5; 0xe7; 0x42; 0xb3; 0xc7; 0xea; 0xf7; 0x4c; 0x11; 0x33; 0x03; 0xa2; 0xac; 0x60
  ].

(** [XOR_128(y, x)]: the new content of [y]. *)
Definition XOR_128 (y x : V128) : V128 :=
  mk128 (Z.lxor (q0 y) (q0 x)) (Z.lxor (q1 y) (q1 x))
        (Z.lxor (q2 y) (q2 x)) (Z.lxor (q3 y) (q3 x)).

(** [MOV_128(y, x)]: the new content of [y]. *)
Definition MOV_128 (x : V128) : V128 := mk128 (q0 x) (q1 x) (q2 x) (q3 x).

(** [ROL_128(y, x, n)]: the new content of [y]. *)
Definition ROL_128 (x : V128) (n : Z) : V128 :=
  mk128 (Z.lor (u32 (Z.shiftl (q0 x) n)) (Z.shiftr (q1 x) (32 - n)))
        (Z.lor (u32 (Z.shiftl (q1 x) n)) (Z.shiftr (q2 x) (32 - n)))
        (Z.lor (u32 (Z.shiftl (q2 x) n)) (Z.shiftr (q3 x) (32 - n)))
        (Z.lor (u32 (Z.shiftl (q3 x) n)) (Z.shiftr (q0 x) (32 - n))).

(** [ROR_128(y, x, n)]: the new content of [y]. *)
Definition ROR_128 (x : V128) (n : Z) : V128 :=
  mk128 (Z.lor (Z.shiftr (q0 x) n) (u32 (Z.shiftl (q3 x) (32 - n))))
        (Z.lor (Z.shiftr (q1 x) n) (u32 (Z.shiftl (q0 x) (32 - n))))
        (Z.lor (Z.shiftr (q2 x) n) (u32 (Z.shiftl (q1 x) (32 - n))))
        (Z.lor (Z.shiftr (q3 x) n) (u32 (Z.shiftl (q2 x) (32 - n)))).

(** [y0 << 24 | y1 << 16 | y2 << 8 | y3] on promoted [unsigned __int8]
    operands, stored in an [unsigned __int32]. *)
Definition pack (y0 y1 y2 y3 : Z) : Z :=
  Z.lor (Z.lor (Z.lor (u32 (Z.shiftl y0 24)) (Z.shiftl y1 16)) (Z.shiftl y2 8)) y3.

(** One output word of a substitution layer:
    [Ta[(u8)(w >> 24)] << 24 | Tb[(u8)(w >> 16)] << 16
     | Tc[(u8)(w >> 8)] << 8 | Td[(u8)(w >> 0)]]. *)
Definition sl_word (Ta Tb Tc Td : list Z) (w : Z) : Z :=
  pack (rd Ta (u8 (Z.shiftr w 24))) (rd Tb (u8 (Z.shiftr w 16)))
       (rd Tc (u8 (Z.shiftr w 8))) (rd Td (u8 (Z.shiftr w 0))).

Definition SL1 (input : V128) : V128 :=
  mk128 (sl_word SB1 SB2 SB3 SB4 (q0 input)) (sl_word SB1 SB2 SB3 SB4 (q1 input))
        (sl_word SB1 SB2 SB3 SB4 (q2 input)) (sl_word SB1 SB2 SB3 SB4 (q3 input)).

Definition SL2 (input : V128) : V128 :=
  mk128 (sl_word SB3 SB4 SB1 SB2 (q0 input)) (sl_word SB3 SB4 SB1 SB2 (q1 input))
        (sl_word SB3 SB4 SB1 SB2 (q2 input)) (sl_word SB3 SB4 SB1 SB2 (q3 input)).

(** [a ^ b ^ c ^ d ^ e ^ f ^ g] stored in an [unsigned __int8]. *)
Definition xor7 (a b c d e f g : Z) : Z :=
  u8 (Z.lxor (Z.lxor (Z.lxor (Z.lxor (Z.lxor (Z.lxor a b) c) d) e) f) g).

Definition A (input : V128) : V128 :=
  let x0 := u8 (Z.shiftr (q0 input) 24) in
  let x1 := u8 (Z.shiftr (q0 input) 16) in
  let x2 := u8 (Z.shiftr (q0 input) 8) in
  let x3 := u8 (q0 input) in
  let x4 := u8 (Z.shiftr (q1 input) 24) in
  let x5 := u8 (Z.shiftr (q1 input) 16) in
  let x6 := u8 (Z.shiftr (q1 input) 8) in
  let x7 := u8 (q1 input) in
  let x8 := u8 (Z.shiftr (q2 input) 24) in
  let x9 := u8 (Z.shiftr (q2 input) 16) in
  let x10 := u8 (Z.shiftr (q2 input) 8) in
  let x11 := u8 (q2 input) in
  let x12 := u8 (Z.shiftr (q3 input) 24) in
  let x13 := u8 (Z.shiftr (q3 input) 16) in
  let x14 := u8 (Z.shiftr (q3 input) 8) in
  let x15 := u8 (q3 input) in
  let y0 := xor7 x3 x4 x6 x8 x9 x13 x14 in
  let y1 := xor7 x2 x5 x7 x8 x9 x12 x15 in
  let y2 := xor7 x1 x4 x6 x10 x11 x12 x15 in
  let y3 := xor7 x0 x5 x7 x10 x11 x13 x14 in
  let y4 := xor7 x0 x2 x5 x8 x11 x14 x15 in
  let y5 := xor7 x1 x3 x4 x9 x10 x14 x15 in
  let y6 := xor7 x0 x2 x7 x9 x10 x12 x13 in
  let y7 := xor7 x1 x3 x6 x8 x11 x12 x13 in
  let y8 := xor7 x0 x1 x4 x7 x10 x13 x15 in
  let y9 := xor7 x0 x1 x5 x6 x11 x12 x14 in
  let y10 := xor7 x2 x3 x5 x6 x8 x13 x15 in
  let y11 := xor7 x2 x3 x4 x7 x9 x12 x14 in
  let y12 := xor7 x1 x2 x6 x7 x9 x11 x12 in
  let y13 := xor7 x0 x3 x6 x7 x8 x10 x13 in
  let y14 := xor7 x0 x3 x4 x5 x9 x11 x14 in
  let y15 := xor7 x1 x2 x4 x5 x8 x10 x15 in
  mk128 (pack y0 y1 y2 y3) (pack y4 y5 y6 y7)
        (pack y8 y9 y10 y11) (pack y12 y13 y14 y15).

(** [FO(D, RK, output)]: the new content of [output]. *)
Definition FO (D RK : V128) : V128 :=
  let y := MOV_128 D in
  let y := XOR_128 y RK in
  let y := SL1 y in
  A y.

(** [FE(D, RK, output)]: the new content of [output]. *)
Definition FE (D RK : V128) : V128 :=
  let y := MOV_128 D in
  let y := XOR_128 y RK in
  let y := SL2 y in
  A y.

(** The global registers [W0 .. W3]. *)
Record Regs : Type := mkRegs { W0 : V128; W1 : V128; W2 : V128; W3 : V128 }.

(** The global encryption keys [ek1 .. ek13]. *)
Record EncKeys : Type := mkEncKeys {
  ek1 : V128; ek2 : V128; ek3 : V128; ek4 : V128; ek5 : V128; ek6 : V128;
  ek7 : V128; ek8 : V128; ek9 : V128; ek10 : V128; ek11 : V128; ek12 : V128;
  ek13 : V128
}.

(** The global decryption keys [dk1 .. dk13]. *)
Record DecKeys : Type := mkDecKeys {
  dk1 : V128; dk2 : V128; dk3 : V128; dk4 : V128; dk5 : V128; dk6 : V128;
  dk7 : V128; dk8 : V128; dk9 : V128; dk10 : V128; dk11 : V128; dk12 : V128;
  dk13 : V128
}.

(** All mutable globals of the file. *)
Record Globals : Type := mkGlobals { regs : Regs; ekeys : EncKeys; dkeys : DecKeys }.

(** [ROR_128(ek, Wb, n); XOR_128(ek, Wa);] *)
Definition ek_ror (Wa Wb : V128) (n : Z) : V128 :=
  let ek := ROR_128 Wb n in
  XOR_128 ek Wa.

(** [ROL_128(ek, Wb, 31); ROL_128(temp, ek, 30); MOV_128(ek, temp); XOR_128(ek, Wa);] *)
Definition ek_rol61 (Wa Wb : V128) : V128 :=
  let ek := ROL_128 Wb 31 in
  let temp := ROL_128 ek 30 in
  let ek := MOV_128 temp in
  XOR_128 ek Wa.

(** [generateEncryptionKeys()]: reads [W0 .. W3], assigns every [ek]. *)
Definition generateEncryptionKeys (r : Regs) : EncKeys :=
  {| ek1 := ek_ror (W0 r) (W1 r) 19;
     ek2 := ek_ror (W1 r) (W2 r) 19;
     ek3 := ek_ror (W2 r) (W3 r) 19;
     ek4 := ek_ror (W3 r) (W0 r) 19;
     ek5 := ek_ror (W0 r) (W1 r) 31;
     ek6 := ek_ror (W1 r) (W2 r) 31;
     ek7 := ek_ror (W2 r) (W3 r) 31;
     ek8 := ek_ror (W3 r) (W0 r) 31;
     ek9 := ek_rol61 (W0 r) (W1 r);
     ek10 := ek_rol61 (W1 r) (W2 r);
     ek11 := ek_rol61 (W2 r) (W3 r);
     ek12 := ek_rol61 (W3 r) (W0 r);
     ek13 := XOR_128 (ROL_128 (W1 r) 31) (W0 r) |}.

(** [generateDecryptionKeys()]: reads [ek1 .. ek13], assigns every [dk]. *)
Definition generateDecryptionKeys (e : EncKeys) : DecKeys :=
  {| dk1 := MOV_128 (ek13 e);
     dk2 := A (ek12 e);
     dk3 := A (ek11 e);
     dk4 := A (ek10 e);
     dk5 := A (ek9 e);
     dk6 := A (ek8 e);
     dk7 := A (ek7 e);
     dk8 := A (ek6 e);
     dk9 := A (ek5 e);
     dk10 := A (ek4 e);
     dk11 := A (ek3 e);
     dk12 := A (ek2 e);
     dk13 := MOV_128 (ek1 e) |}.

(** The rounds shared by [ARIA_encrypt] and [ARIA_decrypt], on thirteen
    round keys in the order they are used. *)
Definition rounds (block k1 k2 k3 k4 k5 k6 k7 k8 k9 k10 k11 k12 k13 : V128) : V128 :=
  let P := FO block k1 in
  let P := FE P k2 in
  let P := FO P k3 in
  let P := FE P k4 in
  let P := FO P k5 in
  let P := FE P k6 in
  let P := FO P k7 in
  let P := FE P k8 in
  let P := FO P k9 in
  let P := FE P k10 in
  let P := FO P k11 in
  let P := XOR_128 P k12 in
  let P := SL2 P in
  XOR_128 P k13.

(** [ARIA_encrypt(block, key, P)]: the globals after the call and the
    content of [P]. *)
Definition ARIA_encrypt (g : Globals) (block key : V128) : Globals * V128 :=
  let W0 := MOV_128 key in
  let W1 := FO W0 CK1 in
  let W1 := XOR_128 W1 KR in
  let W2 := FE W1 CK2 in
  let W2 := XOR_128 W2 W0 in
  let W3 := FO W2 CK3 in
  let W3 := XOR_128 W3 W1 in
  let r := mkRegs W0 W1 W2 W3 in
  let e := generateEncryptionKeys r in
  let P := rounds block (ek1 e) (ek2 e) (ek3 e) (ek4 e) (ek5 e) (ek6 e) (ek7 e)
                  (ek8 e) (ek9 e) (ek10 e) (ek11 e) (ek12 e) (ek13 e) in
  (mkGlobals r e (dkeys g), P).

(** [ARIA_decrypt(block, key, P)]: the third transform is written to [W2],
    [W3] keeps its previous content xored with [W1], and the decryption
    keys are taken from the [ek] left in the globals. *)
Definition ARIA_decrypt (g : Globals) (block key : V128) : Globals * V128 :=
  let W0 := MOV_128 key in
  let W1 := FO W0 CK1 in
  let W1 := XOR_128 W1 KR in
  let W2 := FE W1 CK2 in
  let W2 := XOR_128 W2 W0 in
  let W2 := FO W2 CK3 in
  let W3 := XOR_128 (W3 (regs g)) W1 in
  let r := mkRegs W0 W1 W2 W3 in
  let d := generateDecryptionKeys (ekeys g) in
  let P := rounds block (dk1 d) (dk2 d) (dk3 d) (dk4 d) (dk5 d) (dk6 d) (dk7 d)
                  (dk8 d) (dk9 d) (dk10 d) (dk11 d) (dk12 d) (dk13 d) in
  (mkGlobals r (ekeys g) d, P).

Definition zero128 : V128 := mk128 0 0 0 0.

(** The globals at program start: C zero-initialises them. *)
Definition initial_globals : Globals :=
  mkGlobals (mkRegs zero128 zero128 zero128 zero128)
            (mkEncKeys zero128 zero128 zero128 zero128 zero128 zero128 zero128
                       zero128 zero128 zero128 zero128 zero128 zero128)
            (mkDecKeys zero128 zero128 zero128 zero128 zero128 zero128 zero128
                       zero128 zero128 zero128 zero128 zero128 zero128).

End ARIA.

(* ================================================================== *)
(** ** SIMON.c *)
(* ================================================================== *)

Module SIMON.

(** [ROL_64]: [x << n | x >> (64 - n)] on [uint64_t]. *)
Definition ROL_64 (x n : Z) : Z :=
  Z.lor (u64 (Z.shiftl x n)) (Z.shiftr x (64 - n)).

(** [ROR_64]: [x >> n | x << (64 - n)] on [uint64_t]. *)
Definition ROR_64 (x n : Z) : Z :=
  Z.lor (Z.shiftr x n) (u64 (Z.shiftl x (64 - n))).

Definition f (x : Z) : Z :=
  Z.lxor (Z.land (ROL_64 x 1) (ROL_64 x 8)) (ROL_64 x 2).

(** [R2(&x, &y, k, l)]: the pair is ([*x], [*y]) in the order of the
    parameters. *)
Definition R2 (xy : Z * Z) (k l : Z) : Z * Z :=
  let '(x, y) := xy in
  let y := Z.lxor y (f x) in
  let y := Z.lxor y k in
  let x := Z.lxor x (f y) in
  let x := Z.lxor x l in
  (x, y).

(** Modelled from the spec: the struct [SimonContext] of SIMON.h, which is
    not among the sources.  The functions use its fields [nrSubkeys] (68, 69
    or 72) and [subkeys], the array of up to 72 subkeys of 64 bits. *)
Record SimonContext : Type := mkSimonContext {
  nrSubkeys : Z;
  subkeys : list Z
}.

Definition c : Z := 0xfffffffffffffffc.

(** One iteration of the 128-bit schedule loop; the state is ([z], [subkeys]). *)
Definition init128_body (i : Z) (s : Z * list Z) : Z * list Z :=
  let '(z, sk) := s in
  let sk := upd sk i
    (Z.lxor (Z.lxor (Z.lxor (Z.lxor c (Z.land z 1)) (rd sk (i - 2)))
                    (ROR_64 (rd sk (i - 1)) 3))
            (ROR_64 (rd sk (i - 1)) 4)) in
  (Z.shiftr z 1, sk).

Definition init192_body (i : Z) (s : Z * list Z) : Z * list Z :=
  let '(z, sk) := s in
  let sk := upd sk i
    (Z.lxor (Z.lxor (Z.lxor (Z.lxor c (Z.land z 1)) (rd sk (i - 3)))
                    (ROR_64 (rd sk (i - 1)) 3))
            (ROR_64 (rd sk (i - 1)) 4)) in
  (Z.shiftr z 1, sk).

Definition init256_body (i : Z) (s : Z * list Z) : Z * list Z :=
  let '(z, sk) := s in
  let sk := upd sk i
    (Z.lxor (Z.lxor (Z.lxor (Z.lxor (Z.lxor (Z.lxor c (Z.land z 1)) (rd sk (i - 4)))
                                    (ROR_64 (rd sk (i - 1)) 3))
                            (rd sk (i - 3)))
                    (ROR_64 (rd sk (i - 1)) 4))
            (ROR_64 (rd sk (i - 3)) 1)) in
  (Z.shiftr z 1, sk).

(** The closed form of a tail subkey of the 128- and 192-bit schedules:
    [c ^ bit ^ subkeys[a] ^ ROR_64(subkeys[b], 3) ^ ROR_64(subkeys[b], 4)]. *)
Definition tail2 (cb : Z) (sk : list Z) (a b : Z) : Z :=
  Z.lxor (Z.lxor (Z.lxor cb (rd sk a)) (ROR_64 (rd sk b) 3)) (ROR_64 (rd sk b) 4).

(** The closed form of a tail subkey of the 256-bit schedule:
    [c ^ bit ^ subkeys[a] ^ ROR_64(subkeys[b], 3) ^ subkeys[d]
       ^ ROR_64(subkeys[b], 4) ^ ROR_64(subkeys[d], 1)]. *)
Definition tail4 (cb : Z) (sk : list Z) (a b d : Z) : Z :=
  Z.lxor (Z.lxor (Z.lxor (Z.lxor (Z.lxor cb (rd sk a)) (ROR_64 (rd sk b) 3))
                         (rd sk d))
                 (ROR_64 (rd sk b) 4))
         (ROR_64 (rd sk d) 1).

(** [SIMON_init(context, key, keyLen)]: the context after the call. *)
Definition SIMON_init (context : SimonContext) (key : list Z) (keyLen : Z)
  : SimonContext :=
  if keyLen =? 128 then
    let z := 0x7369f885192c0ef5 in
    let sk := subkeys context in
    let sk := upd sk 0 (rd key 1) in
    let sk := upd sk 1 (rd key 0) in
    let '(z, sk) := for_up 2 66 1 init128_body (z, sk) in
    let sk := upd sk 66 (tail2 (Z.lxor c 1) sk 64 65) in
    let sk := upd sk 67 (tail2 c sk 65 66) in
    mkSimonContext 68 sk
  else if keyLen =? 192 then
    let z := 0xfc2ce51207a635db in
    let sk := subkeys context in
    let sk := upd sk 0 (rd key 2) in
    let sk := upd sk 1 (rd key 1) in
    let sk := upd sk 2 (rd key 0) in
    let '(z, sk) := for_up 3 67 1 init192_body (z, sk) in
    let sk := upd sk 67 (tail2 c sk 64 66) in
    let sk := upd sk 68 (tail2 (Z.lxor c 1) sk 65 67) in
    mkSimonContext 69 sk
  else
    let z := 0xfdc94c3a046d678b in
    let sk := subkeys context in
    let sk := upd sk 0 (rd key 3) in
    let sk := upd sk 1 (rd key 2) in
    let sk := upd sk 2 (rd key 1) in
    let sk := upd sk 3 (rd key 0) in
    let '(z, sk) := for_up 4 68 1 init256_body (z, sk) in
    let sk := upd sk 68 (tail4 c sk 64 67 65) in
    let sk := upd sk 69 (tail4 (Z.lxor c 1) sk 65 68 66) in
    let sk := upd sk 70 (tail4 c sk 66 69 67) in
    let sk := upd sk 71 (tail4 c sk 67 70 68) in
    mkSimonContext 72 sk.

(** Body of the encryption loops: [R2(&x, &y, subkeys[i], subkeys[i + 1])]. *)
Definition enc_body (sk : list Z) (i : Z) (xy : Z * Z) : Z * Z :=
  R2 xy (rd sk i) (rd sk (i + 1)).

(** Body of the decryption loops: [R2(&y, &x, subkeys[i], subkeys[i - 1])];
    the state is still ([x], [y]). *)
Definition dec_body (sk : list Z) (i : Z) (xy : Z * Z) : Z * Z :=
  let '(x, y) := xy in
  let '(y', x') := R2 (y, x) (rd sk i) (rd sk (i - 1)) in
  (x', y').

(** [SIMON_encrypt(context, block, out)]: the two words written to [out]. *)
Definition SIMON_encrypt (context : SimonContext) (block : Z * Z) : Z * Z :=
  let sk := subkeys context in
  if nrSubkeys context =? 69 then
    let '(x, y) := for_up 0 68 2 (enc_body sk) block in
    let y := Z.lxor y (f x) in
    let y := Z.lxor y (rd sk 68) in
    let t := x in
    let x := y in
    let y := t in
    (x, y)
  else
    for_up 0 (nrSubkeys context) 2 (enc_body sk) block.

(** [SIMON_decrypt(context, block, out)]. *)
Definition SIMON_decrypt (context : SimonContext) (block : Z * Z) : Z * Z :=
  let sk := subkeys context in
  let '(x, y) := block in
  if nrSubkeys context =? 69 then
    let t := y in
    let y := x in
    let x := t in
    let y := Z.lxor y (rd sk 68) in
    let y := Z.lxor y (f x) in
    for_down 67 0 2 (dec_body sk) (x, y)
  else
    for_down (nrSubkeys context - 1) 0 2 (dec_body sk) (x, y).

(** A context as the driver declares it: 72 subkey slots. *)
Definition blank_context : SimonContext := mkSimonContext 0 (repeat 0 72).

End SIMON.

(* ================================================================== *)
(** ** PRESENT.c *)
(* ================================================================== *)

Module PRESENT.

Definition NR_ROUNDS : Z := 31.

Definition sbox : list Z :=
  [0xc; 0x5; 0x6; 0xb; 0x9; 0x0; 0xa; 0xd; 0x3; 0xe; 0xf; 0x8; 0x4; 0x7; 0x1; 0x2].

Definition isbox : list Z :=
  [0x5; 0xe; 0xf; 0x8; 0xc; 0x1; 0x2; 0xd; 0xb; 0x4; 0x6; 0x3; 0x0; 0x7; 0x9; 0xa].

Definition p : list Z :=
  [ 0; 16; 32; 48;  1; 17; 33; 49;  2; 18; 34; 50;  3; 19; 35; 51;
    4; 20; 36; 52;  5; 21; 37; 53;  6; 22; 38; 54;  7; 23; 39; 55;
    8; 24; 40; 56;  9; 25; 41; 57; 10; 26; 42; 58; 11; 27; 43; 59;
   12; 28; 44; 60; 13; 29; 45; 61; 14; 30; 46; 62; 15; 31; 47; 63].

(** Modelled from the spec: the struct [PresentContext] of PRESENT.h, which
    is not among the sources.  The functions use its field [roundKeys], the
    array of 32 round keys of 64 bits. *)
Record PresentContext : Type := mkPresentContext {
  roundKeys : list Z
}.

(** Four [uint16_t] loaded into a [uint64_t], most significant first. *)
Definition load64 (a b c d : Z) : Z :=
  Z.lor (Z.lor (Z.lor (u64 (Z.shiftl a 48)) (u64 (Z.shiftl b 32)))
               (u64 (Z.shiftl c 16)))
        d.

(** Loop body of the 80-bit schedule; the state is
    ([keyHigh], [keyLow], [roundKeys]). *)
Definition init80_body (i : Z) (s : Z * Z * list Z) : Z * Z * list Z :=
  let '(keyHigh, keyLow, rk) := s in
  let temp := keyHigh in
  let keyHigh := Z.land (Z.shiftr keyLow 3) 0xffff in
  let keyLow := Z.lor (Z.lor (u64 (Z.shiftl keyLow 61)) (u64 (Z.shiftl temp 45)))
                      (Z.shiftr keyLow 19) in
  let temp := rd sbox (Z.land (Z.shiftr keyHigh 12) 0xf) in
  let keyHigh := Z.lor (Z.land keyHigh 0x0fff) (u64 (Z.shiftl temp 12)) in
  let keyLow := Z.lxor keyLow (u64 (Z.shiftl i 15)) in
  let rk := upd rk i (Z.lor (u64 (Z.shiftl keyHigh 48)) (Z.shiftr keyLow 16)) in
  (keyHigh, keyLow, rk).

(** Loop body of the 128-bit schedule. *)
Definition init128_body (i : Z) (s : Z * Z * list Z) : Z * Z * list Z :=
  let '(keyHigh, keyLow, rk) := s in
  let temp := keyHigh in
  let keyHigh := Z.lor (u64 (Z.shiftl temp 61)) (Z.shiftr keyLow 3) in
  let keyLow := Z.lor (u64 (Z.shiftl keyLow 61)) (Z.shiftr temp 3) in
  let temp := rd sbox (Z.land (Z.shiftr keyHigh 60) 0xf) in
  let keyHigh := Z.lor keyHigh (u64 (Z.shiftl temp 60)) in
  let temp := rd sbox (Z.land (Z.shiftr keyHigh 56) 0xf) in
  let keyHigh := Z.lor keyHigh (u64 (Z.shiftl temp 56)) in
  let keyHigh := Z.lxor keyHigh (Z.shiftr i 2) in
  let keyLow := Z.lxor keyLow (u64 (Z.shiftl i 62)) in
  let rk := upd rk i keyHigh in
  (keyHigh, keyLow, rk).

(** [PRESENT_init(context, key, keyLen)]: the context after the call. *)
Definition PRESENT_init (context : PresentContext) (key : list Z) (keyLen : Z)
  : PresentContext :=
  if keyLen =? 80 then
    let keyHigh := rd key 0 in
    let keyLow := load64 (rd key 1) (rd key 2) (rd key 3) (rd key 4) in
    let rk := upd (roundKeys context) 0
                  (Z.lor (u64 (Z.shiftl keyHigh 48)) (Z.shiftr keyLow 16)) in
    let '(_, _, rk) := for_up 1 (NR_ROUNDS + 1) 1 init80_body (keyHigh, keyLow, rk) in
    mkPresentContext rk
  else
    let keyHigh := load64 (rd key 0) (rd key 1) (rd key 2) (rd key 3) in
    let keyLow := load64 (rd key 4) (rd key 5) (rd key 6) (rd key 7) in
    let rk := upd (roundKeys context) 0 keyHigh in
    let '(_, _, rk) := for_up 1 (NR_ROUNDS + 1) 1 init128_body (keyHigh, keyLow, rk) in
    mkPresentContext rk.

(** Body of the substitution loops, for the table [tbl] ([sbox] when
    encrypting, [isbox] when decrypting); the loop state is [temp]. *)
Definition subst_body (tbl : list Z) (state : Z) (i : Z) (temp : Z) : Z :=
  let pos := u8 (Z.shiftr state (8 * (7 - i))) in
  let highNybble := rd tbl (Z.land (Z.shiftr pos 4) 0x0f) in
  let lowNybble := rd tbl (Z.land pos 0x0f) in
  let mask := 0 in
  let mask := Z.lor mask (Z.lor (Z.shiftl highNybble 4) lowNybble) in
  let mask := u64 (Z.shiftl mask (56 - 8 * i)) in
  Z.lor temp mask.

Definition sBoxLayer (state : Z) : Z := for_up 0 8 1 (subst_body sbox state) 0.
Definition inverseSBoxLayer (state : Z) : Z := for_up 0 8 1 (subst_body isbox state) 0.

(** Body of the permutation loop of [PRESENT_encrypt]. *)
Definition perm_body (state : Z) (i : Z) (temp : Z) : Z :=
  let distance := u8 (63 - i) in
  Z.lor temp (u64 (Z.shiftl (Z.land (Z.shiftr state distance) 0x1) (63 - rd p i))).

Definition pLayer (state : Z) : Z := for_up 0 64 1 (perm_body state) 0.

(** Body of the permutation loop of [PRESENT_decrypt]. *)
Definition iperm_body (state : Z) (i : Z) (temp : Z) : Z :=
  let distance := u8 (63 - rd p i) in
  Z.lor (u64 (Z.shiftl temp 1)) (Z.land (Z.shiftr state distance) 0x1).

Definition inversePLayer (state : Z) : Z := for_up 0 64 1 (iperm_body state) 0.

Definition Block : Type := (Z * Z * Z * Z)%type.

Definition load_block (block : Block) : Z :=
  let '(b0, b1, b2, b3) := block in load64 b0 b1 b2 b3.

Definition store_block (state : Z) : Block :=
  (u16 (Z.shiftr state 48), u16 (Z.shiftr state 32), u16 (Z.shiftr state 16), u16 state).

Definition enc_round (rk : list Z) (round : Z) (state : Z) : Z :=
  let state := Z.lxor state (rd rk round) in
  let state := sBoxLayer state in
  pLayer state.

Definition dec_round (rk : list Z) (round : Z) (state : Z) : Z :=
  let state := Z.lxor state (rd rk round) in
  let state := inversePLayer state in
  inverseSBoxLayer state.

(** [PRESENT_encrypt(context, block, out)]: the four words written to [out]. *)
Definition PRESENT_encrypt (context : PresentContext) (block : Block) : Block :=
  let state := load_block block in
  let state := for_up 0 NR_ROUNDS 1 (enc_round (roundKeys context)) state in
  let state := Z.lxor state (rd (roundKeys context) NR_ROUNDS) in
  store_block state.

(** [PRESENT_decrypt(context, block, out)]. *)
Definition PRESENT_decrypt (context : PresentContext) (block : Block) : Block :=
  let state := load_block block in
  let state := for_down NR_ROUNDS 1 1 (dec_round (roundKeys context)) state in
  let state := Z.lxor state (rd (roundKeys context) 0) in
  store_block state.

(** A context as the driver declares it: 32 round-key slots. *)
Definition blank_context : PresentContext := mkPresentContext (repeat 0 32).

End PRESENT.

(* ================================================================== *)
(** ** Outcome of a schedule derivation *)
(* ================================================================== *)

Module Derive.
(** What a caller of a schedule derivation can observe: a schedule, or the
    error.  [PRESENT_init] and [SIMON_init] return [void] and have no
    error path, so their outcome is always the context they filled. *)
Inductive Outcome (C : Type) : Type :=
| Schedule (c : C)
| InvalidKeySize.
Arguments Schedule {C} c.
Arguments InvalidKeySize {C}.

Definition PRESENT_derive (context : PRESENT.PresentContext) (key : list Z) (keyLen : Z)
  : Outcome PRESENT.PresentContext :=
  Schedule (PRESENT.PRESENT_init context key keyLen).

Definition SIMON_derive (context : SIMON.SimonContext) (key : list Z) (keyLen : Z)
  : Outcome SIMON.SimonContext :=
  Schedule (SIMON.SIMON_init context key keyLen).
End Derive.

(* ================================================================== *)
(** ** Auxiliary definitions: index lists, byte views, well-formedness *)
(* ================================================================== *)

Module Loops.

Fixpoint idx_up_fuel (fuel : nat) (i hi step : Z) : list Z :=
  match fuel with
  | O => []
  | S fuel' => if i <? hi then i :: idx_up_fuel fuel' (i + step) hi step else []
  end.

(** The values [i] takes in [for (i = lo; i < hi; i += step)]. *)
Definition idx_up (lo hi step : Z) : list Z :=
  idx_up_fuel (Z.to_nat (hi - lo)) lo hi step.

Fixpoint idx_down_fuel (fuel : nat) (i lo step : Z) : list Z :=
  match fuel with
  | O => []
  | S fuel' => if lo <=? i then i :: idx_down_fuel fuel' (i - step) lo step else []
  end.

(** The values [i] takes in [for (i = hi; i >= lo; i -= step)]. *)
Definition idx_down (hi lo step : Z) : list Z :=
  idx_down_fuel (Z.to_nat (hi - lo + 1)) hi lo step.

(** A loop body run over the list of the values of its index. *)
Definition run {S : Type} (body : Z -> S -> S) (l : list Z) (s : S) : S :=
  fold_left (fun s i => body i s) l s.

(** The integers [lo, lo + 1, ..., lo + n - 1]. *)
Fixpoint upfrom (lo : Z) (n : nat) : list Z :=
  match n with
  | O => []
  | S n' => lo :: upfrom (lo + 1) n'
  end.

(** A property checked on every byte holds of every byte. *)
Definition all_bytes (f : Z -> bool) : bool :=
  forallb f (map Z.of_nat (seq 0 256)).

(** A property checked on every index below [N] holds of every such index. *)
Definition all_below (N : nat) (f : Z -> bool) : bool :=
  forallb f (map Z.of_nat (seq 0 N)).

End Loops.
Import Loops.

Module AriaAux.
Import ARIA.

(** Every word of a 128-bit value is in the range of [unsigned __int32]. *)
Definition wf128 (x : V128) : Prop :=
  in_u32 (q0 x) /\ in_u32 (q1 x) /\ in_u32 (q2 x) /\ in_u32 (q3 x).

(** Decidable membership in the range of a byte. *)
Definition is_byte (z : Z) : bool := (0 <=? z) && (z <? 256).

(** [A] on the sixteen bytes of its input. *)
Definition A_bytes (x0 x1 x2 x3 x4 x5 x6 x7 x8 x9 x10 x11 x12 x13 x14 x15 : Z) : V128 :=
  mk128 (pack (xor7 x3 x4 x6 x8 x9 x13 x14) (xor7 x2 x5 x7 x8 x9 x12 x15)
              (xor7 x1 x4 x6 x10 x11 x12 x15) (xor7 x0 x5 x7 x10 x11 x13 x14))
        (pack (xor7 x0 x2 x5 x8 x11 x14 x15) (xor7 x1 x3 x4 x9 x10 x14 x15)
              (xor7 x0 x2 x7 x9 x10 x12 x13) (xor7 x1 x3 x6 x8 x11 x12 x13))
        (pack (xor7 x0 x1 x4 x7 x10 x13 x15) (xor7 x0 x1 x5 x6 x11 x12 x14)
              (xor7 x2 x3 x5 x6 x8 x13 x15) (xor7 x2 x3 x4 x7 x9 x12 x14))
        (pack (xor7 x1 x2 x6 x7 x9 x11 x12) (xor7 x0 x3 x6 x7 x8 x10 x13)
              (xor7 x0 x3 x4 x5 x9 x11 x14) (xor7 x1 x2 x4 x5 x8 x10 x15)).

(** The registers [ARIA_encrypt] computes from its key argument. *)
Definition setup (key : V128) : Regs :=
  let W0 := key in
  let W1 := XOR_128 (FO W0 CK1) KR in
  let W2 := XOR_128 (FE W1 CK2) W0 in
  let W3 := XOR_128 (FO W2 CK3) W1 in
  mkRegs W0 W1 W2 W3.

Definition wf_regs (r : Regs) : Prop :=
  wf128 (W0 r) /\ wf128 (W1 r) /\ wf128 (W2 r) /\ wf128 (W3 r).

Definition wf_ekeys (e : EncKeys) : Prop :=
  wf128 (ek1 e) /\ wf128 (ek2 e) /\ wf128 (ek3 e) /\ wf128 (ek4 e) /\
  wf128 (ek5 e) /\ wf128 (ek6 e) /\ wf128 (ek7 e) /\ wf128 (ek8 e) /\
  wf128 (ek9 e) /\ wf128 (ek10 e) /\ wf128 (ek11 e) /\ wf128 (ek12 e) /\
  wf128 (ek13 e).

(** The encryption key [ek_i] and the decryption key [dk_i], for [i] from
    1 to 13. *)
Definition ek (e : EncKeys) (i : Z) : V128 :=
  match i with
  | 1 => ek1 e | 2 => ek2 e | 3 => ek3 e | 4 => ek4 e | 5 => ek5 e
  | 6 => ek6 e | 7 => ek7 e | 8 => ek8 e | 9 => ek9 e | 10 => ek10 e
  | 11 => ek11 e | 12 => ek12 e | _ => ek13 e
  end.

Definition dk (d : DecKeys) (i : Z) : V128 :=
  match i with
  | 1 => dk1 d | 2 => dk2 d | 3 => dk3 d | 4 => dk4 d | 5 => dk5 d
  | 6 => dk6 d | 7 => dk7 d | 8 => dk8 d | 9 => dk9 d | 10 => dk10 d
  | 11 => dk11 d | 12 => dk12 d | _ => dk13 d
  end.

End AriaAux.

Module PresentAux.
Import PRESENT.

(** The four words of a block are [uint16_t] values. *)
Definition wf_block (b : Block) : Prop :=
  let '(b0, b1, b2, b3) := b in in_u16 b0 /\ in_u16 b1 /\ in_u16 b2 /\ in_u16 b3.

(** The round keys of a context are [uint64_t] values. *)
Definition wf_keys (rk : list Z) : Prop := Forall in_u64 rk.

(** The words of a key array are [uint16_t] values. *)
Definition wf_key (key : list Z) : Prop := Forall in_u16 key.

(** The byte a substitution loop computes in [mask] before shifting it. *)
Definition sub_byte (tbl : list Z) (pos : Z) : Z :=
  Z.lor 0 (Z.lor (Z.shiftl (rd tbl (Z.land (Z.shiftr pos 4) 0x0f)) 4)
                 (rd tbl (Z.land pos 0x0f))).

(** Eight bytes shifted into place and or-ed into [temp], first byte on top. *)
Definition pack8 (B0 B1 B2 B3 B4 B5 B6 B7 : Z) : Z :=
  Z.lor (Z.lor (Z.lor (Z.lor (Z.lor (Z.lor (Z.lor (Z.lor 0
    (u64 (Z.shiftl B0 56))) (u64 (Z.shiftl B1 48))) (u64 (Z.shiftl B2 40)))
    (u64 (Z.shiftl B3 32))) (u64 (Z.shiftl B4 24))) (u64 (Z.shiftl B5 16)))
    (u64 (Z.shiftl B6 8))) (u64 (Z.shiftl B7 0)).

(** What the schedule loops maintain: both halves of the key register and
    every round key are [uint64_t] values. *)
Definition sched_inv (s : Z * Z * list Z) : Prop :=
  let '(keyHigh, keyLow, rk) := s in in_u64 keyHigh /\ in_u64 keyLow /\ wf_keys rk.

End PresentAux.

(** The known-answer vectors of the drivers. *)
Module Vectors.
Import ARIA.
Definition aria_key : V128 := mk128 0x00010203 0x04050607 0x08090a0b 0x0c0d0e0f.
Definition aria_text : V128 := mk128 0x00112233 0x44556677 0x8899aabb 0xccddeeff.
Definition aria_cipher : V128 := mk128 0xd718fbd6 0xab644c73 0x9da95f3b 0xe6451778.
Definition present_key : list Z := [0; 0; 0; 0; 0; 0; 0; 0].
Definition simon_key128 : list Z := [0x0f0e0d0c0b0a0908; 0x0706050403020100].
Definition simon_key192 : list Z :=
  [0x1716151413121110; 0x0f0e0d0c0b0a0908; 0x0706050403020100].
Definition simon_text128 : Z * Z := (0x6373656420737265, 0x6c6c657661727420).
End Vectors.

(* ================================================================== *)
(** ** Auxiliary definitions for the further properties *)
(* ================================================================== *)

(** Arrays filled by a recurrence. *)
Module ArrayDefs.
(** The entries [lo <= j < i] of an array satisfy the equation [G]: each is
    the value [G] computes from the array. *)
Definition filled (G : list Z -> Z -> Z) (lo i : Z) (a : list Z) : Prop :=
  forall j, lo <= j < i -> rd a j = G a j.

(** [G a j] reads only entries of [a] below [j]. *)
Definition reads_below (G : list Z -> Z -> Z) (lo : Z) : Prop :=
  forall a a' j, lo <= j -> (forall k, 0 <= k < j -> rd a k = rd a' k) -> G a j = G a' j.
End ArrayDefs.

(** The four words of ARIA as one 128-bit integer. *)
Module AriaMoreDefs.
Import ARIA.



End AriaMoreDefs.

(** The key schedule and the round of SIMON. *)
Module SimonMoreDefs.
Import SIMON ArrayDefs.

Definition z128 : Z := 0x7369f885192c0ef5.
Definition z192 : Z := 0xfc2ce51207a635db.
Definition z256 : Z := 0xfdc94c3a046d678b.

(** Bit [j] of a constant sequence of period 62 held in the low bits of [z]. *)
Definition zbit (z j : Z) : Z := Z.land (Z.shiftr z (j mod 62)) 1.

(** The subkey recurrence for two or three key words:
    [c ^ bit ^ a ^ ROR_64(b, 3) ^ ROR_64(b, 4)], with [a] the subkey two or
    three places back and [b] the previous subkey. *)
Definition next2 (bit a b : Z) : Z :=
  Z.lxor (Z.lxor (Z.lxor (Z.lxor c bit) a) (ROR_64 b 3)) (ROR_64 b 4).

(** The subkey recurrence for four key words:
    [c ^ bit ^ a ^ ROR_64(b, 3) ^ d ^ ROR_64(b, 4) ^ ROR_64(d, 1)], with [a]
    the subkey four places back, [b] the previous one and [d] the one three
    places back. *)
Definition next4 (bit a b d : Z) : Z :=
  Z.lxor (Z.lxor (Z.lxor (Z.lxor (Z.lxor (Z.lxor c bit) a) (ROR_64 b 3)) d)
                 (ROR_64 b 4))
         (ROR_64 d 1).

Definition G128 (a : list Z) (j : Z) : Z :=
  next2 (zbit z128 (j - 2)) (rd a (j - 2)) (rd a (j - 1)).

Definition G192 (a : list Z) (j : Z) : Z :=
  next2 (zbit z192 (j - 3)) (rd a (j - 3)) (rd a (j - 1)).

Definition G256 (a : list Z) (j : Z) : Z :=
  next4 (zbit z256 (j - 4)) (rd a (j - 4)) (rd a (j - 1)) (rd a (j - 3)).

(** One Feistel round of SIMON under the subkey [k]. *)
Definition round1 (k : Z) (xy : Z * Z) : Z * Z :=
  let '(x, y) := xy in (Z.lxor (Z.lxor y (f x)) k, x).

(** The rounds under the subkeys [0 .. n - 1], in order. *)
Definition rounds_upto (sk : list Z) (n : nat) (xy : Z * Z) : Z * Z :=
  run (fun i xy => round1 (rd sk i) xy) (upfrom 0 n) xy.

(** The even indices [lo, lo + 2, ...], [n] of them. *)
Fixpoint evens (lo : Z) (n : nat) : list Z :=
  match n with
  | O => []
  | S n' => lo :: evens (lo + 2) n'
  end.

(** What the schedule maintains once the entries below [i] are written: the
    array keeps its length and its first [lo] entries, and the entries from
    [lo] to [i - 1] satisfy the recurrence. *)
Definition arr_at (G : list Z -> Z -> Z) (lo : Z) (sk0 : list Z) (i : Z) (sk : list Z)
  : Prop :=
  length sk = length sk0 /\ filled G lo i sk
  /\ (forall j, 0 <= j < lo -> rd sk j = rd sk0 j).

(** In the loops, moreover, the constant has been shifted [i - lo] times. *)
Definition sched_at (G : list Z -> Z -> Z) (z0 : Z) (lo : Z) (sk0 : list Z)
           (i : Z) (s : Z * list Z) : Prop :=
  let '(z, sk) := s in z = Z.shiftr z0 (i - lo) /\ arr_at G lo sk0 i sk.

(** What the schedule loops keep in range. *)
Definition sched_range (s : Z * list Z) : Prop :=
  in_u64 (fst s) /\ Forall in_u64 (snd s).
End SimonMoreDefs.

(** The key register of PRESENT. *)
Module PresentMoreDefs.
Import PRESENT.

(** The key register: [keyHigh] above the 64 bits of [keyLow]. *)
Definition reg (keyHigh keyLow : Z) : Z := Z.lor (Z.shiftl keyHigh 64) keyLow.

(** Rotation of a [w]-bit integer by [n] bits to the left. *)
Definition rotl (w K n : Z) : Z := Z.lor (Z.shiftl K n mod 2 ^ w) (Z.shiftr K (w - n)).

(** The update of the 80-bit key register in round [i]: rotate by 61 bits
    to the left, pass the four leftmost bits through the S-box, xor the
    round counter into the bits 19 to 15. *)
Definition update80 (i K : Z) : Z :=
  let K1 := rotl 80 K 61 in
  let K2 := Z.lor (Z.land K1 (Z.ones 76)) (Z.shiftl (rd sbox (Z.shiftr K1 76)) 76) in
  Z.lxor K2 (Z.shiftl i 15).

(** What the 128-bit branch does to the key register in round [i]: rotate
    by 61 bits to the left, or the S-box images of the two leftmost nibbles
    onto these nibbles, xor the round counter into the bits 66 to 62. *)
Definition update128 (i K : Z) : Z :=
  let K1 := rotl 128 K 61 in
  let K2 := Z.lor (Z.lor K1 (Z.shiftl (rd sbox (Z.shiftr K1 124)) 124))
                  (Z.shiftl (rd sbox (Z.land (Z.shiftr K1 120) 0xf)) 120) in
  Z.lxor K2 (Z.shiftl i 62).

(** The key register after [r] updates, from the register [K0]. *)
Fixpoint regs (update : Z -> Z -> Z) (K0 : Z) (r : nat) : Z :=
  match r with
  | O => K0
  | S r' => update (Z.of_nat r) (regs update K0 r')
  end.

(** The 80-bit and the 128-bit key held by the key array. *)
Definition key80 (key : list Z) : Z :=
  reg (rd key 0) (load64 (rd key 1) (rd key 2) (rd key 3) (rd key 4)).

Definition key128 (key : list Z) : Z :=
  reg (load64 (rd key 0) (rd key 1) (rd key 2) (rd key 3))
      (load64 (rd key 4) (rd key 5) (rd key 6) (rd key 7)).

(** What a schedule loop maintains at the counter [i], for the update
    [update] of the register and round keys taken [sh] bits above its
    bottom: the register has been updated [i - 1] times and the round keys
    below [i] are those of the registers so far. *)
Definition sched_spec (update : Z -> Z -> Z) (sh : Z) (wfh : Z -> Prop) (K0 : Z)
           (i : Z) (s : Z * Z * list Z) : Prop :=
  let '(kh, kl, rk) := s in
  wfh kh /\ in_u64 kl /\ reg kh kl = regs update K0 (Z.to_nat (i - 1))
  /\ length rk = 32%nat
  /\ forall j, 0 <= j < i -> rd rk j = Z.shiftr (regs update K0 (Z.to_nat j)) sh.

(** Two runs of a schedule loop on two arrays of 32 round keys, at the
    counter [i]: the key registers are the same and the arrays agree below
    [i]. *)
Definition sched_rel (i : Z) (s s' : Z * Z * list Z) : Prop :=
  let '(kh, kl, rk) := s in
  let '(kh', kl', rk') := s' in
  kh = kh' /\ kl = kl' /\ length rk = 32%nat /\ length rk' = 32%nat
  /\ forall j, 0 <= j < i -> rd rk j = rd rk' j.
End PresentMoreDefs.

(* ================================================================== *)
(** ** Bit-level facts about words *)
(* ================================================================== *)

Module WordFacts.

Lemma u8_small z : in_u8 z -> u8 z = z.
Proof. intros H. apply Z.mod_small. exact H. Qed.

Lemma u16_small z : in_u16 z -> u16 z = z.
Proof. intros H. apply Z.mod_small. exact H. Qed.

Lemma u32_small z : in_u32 z -> u32 z = z.
Proof. intros H. apply Z.mod_small. exact H. Qed.

Lemma u64_small z : in_u64 z -> u64 z = z.
Proof. intros H. apply Z.mod_small. exact H. Qed.

Lemma u8_range z : in_u8 (u8 z).
Proof. apply Z.mod_pos_bound. reflexivity. Qed.

Lemma u16_range z : in_u16 (u16 z).
Proof. apply Z.mod_pos_bound. reflexivity. Qed.

Lemma u32_range z : in_u32 (u32 z).
Proof. apply Z.mod_pos_bound. reflexivity. Qed.

Lemma u64_range z : in_u64 (u64 z).
Proof. apply Z.mod_pos_bound. reflexivity. Qed.

(** Rewriting [Z.testbit] through the bit operations; every index whose
    sign is known to [lia] is pushed to the leaves. *)
Ltac bit_push :=
  repeat first
    [ rewrite Z.lor_spec
    | rewrite Z.land_spec
    | rewrite Z.lxor_spec
    | rewrite Z.testbit_0_l
    | match goal with
      | |- context [Z.testbit (?a mod 2 ^ ?k) ?i] =>
          rewrite (Z.testbit_mod_pow2 a k i) by lia
      | |- context [Z.testbit (Z.shiftl ?a ?k) ?i] =>
          rewrite (Z.shiftl_spec a k i) by lia
      | |- context [Z.testbit (Z.shiftr ?a ?k) ?i] =>
          rewrite (Z.shiftr_spec a k i) by lia
      | |- context [Z.testbit (Z.ones ?k) ?i] =>
          rewrite (Z.testbit_ones_nonneg k i) by lia
      | |- context [Z.testbit ?a ?i] =>
          rewrite (Z.testbit_neg_r a i) by lia
      end ].

(** Deciding the comparisons left by [bit_push]. *)
Ltac bit_cmp :=
  repeat match goal with
         | |- context [?a <? ?b] =>
             destruct (Z.ltb_spec a b); try (exfalso; lia)
         end.

Ltac bit_norm :=
  repeat match goal with
         | |- context [Z.testbit ?a ?i] =>
             progress (ring_simplify i)
         end.

Ltac bit_solve := bit_push; bit_cmp; bit_norm; try reflexivity; try btauto.

(** Equality of two words bit by bit, one byte position at a time. *)
Ltac bitwise_u32 :=
  unfold u8, u16, u32, u64;
  apply Z.bits_inj'; intros n Hn;
  assert (Hc : n < 8 \/ 8 <= n < 16 \/ 16 <= n < 24 \/ 24 <= n < 32 \/ 32 <= n) by lia;
  destruct Hc as [Hc | [Hc | [Hc | [Hc | Hc]]]]; bit_solve.

(** Bounds of the bit operations, for any width [k]. *)
Lemma mod_fix k a : 0 <= a < 2 ^ k -> a mod 2 ^ k = a.
Proof. apply Z.mod_small. Qed.

Lemma fix_bound k a : 0 <= k -> a mod 2 ^ k = a -> 0 <= a < 2 ^ k.
Proof.
  intros Hk E. rewrite <- E. apply Z.mod_pos_bound. apply Z.pow_pos_nonneg; lia.
Qed.

Lemma lor_bound k a b :
  0 <= k -> 0 <= a < 2 ^ k -> 0 <= b < 2 ^ k -> 0 <= Z.lor a b < 2 ^ k.
Proof.
  intros Hk Ha Hb. apply fix_bound; [exact Hk|].
  rewrite <- (mod_fix k a Ha), <- (mod_fix k b Hb).
  apply Z.bits_inj'; intros n Hn. bit_solve.
Qed.

Lemma lxor_bound k a b :
  0 <= k -> 0 <= a < 2 ^ k -> 0 <= b < 2 ^ k -> 0 <= Z.lxor a b < 2 ^ k.
Proof.
  intros Hk Ha Hb. apply fix_bound; [exact Hk|].
  rewrite <- (mod_fix k a Ha), <- (mod_fix k b Hb).
  apply Z.bits_inj'; intros n Hn. bit_solve.
Qed.

Lemma land_bound k a b :
  0 <= k -> 0 <= a < 2 ^ k -> 0 <= Z.land a b < 2 ^ k.
Proof.
  intros Hk Ha. apply fix_bound; [exact Hk|].
  rewrite <- (mod_fix k a Ha).
  apply Z.bits_inj'; intros n Hn. bit_solve.
Qed.

Lemma shiftr_bound k a s :
  0 <= k -> 0 <= s -> 0 <= a < 2 ^ k -> 0 <= Z.shiftr a s < 2 ^ k.
Proof.
  intros Hk Hs Ha. apply fix_bound; [exact Hk|].
  rewrite <- (mod_fix k a Ha).
  apply Z.bits_inj'; intros n Hn. bit_solve.
Qed.

Lemma lxor_cancel_r a b : Z.lxor (Z.lxor a b) b = a.
Proof. rewrite Z.lxor_assoc, Z.lxor_nilpotent. apply Z.lxor_0_r. Qed.

Lemma lxor_cancel_r_l y a k : Z.lxor (Z.lxor (Z.lxor (Z.lxor y a) k) k) a = y.
Proof. rewrite !lxor_cancel_r. reflexivity. Qed.

Lemma all_bytes_spec f : all_bytes f = true -> forall b, in_u8 b -> f b = true.
Proof.
  unfold all_bytes, in_u8. intros H b Hb.
  rewrite forallb_forall in H. apply H.
  rewrite <- (Z2Nat.id b) by lia.
  apply in_map. apply in_seq. change (2 ^ 8) with 256 in Hb. lia.
Qed.

End WordFacts.
Import WordFacts.

(* ================================================================== *)
(** ** Loops as folds over their index lists *)
(* ================================================================== *)

Module LoopFacts.

Section Folds.
Context {S : Type}.
Variable body : Z -> S -> S.

Lemma for_up_fuel_run fuel i hi step s :
  for_up_fuel fuel i hi step body s = run body (idx_up_fuel fuel i hi step) s.
Proof.
  revert i s. induction fuel as [|fuel IH]; intros i s; cbn [for_up_fuel idx_up_fuel].
  - reflexivity.
  - destruct (i <? hi); [|reflexivity]. apply IH.
Qed.

Lemma for_up_run lo hi step s :
  for_up lo hi step body s = run body (idx_up lo hi step) s.
Proof. apply for_up_fuel_run. Qed.

Lemma for_down_fuel_run fuel i lo step s :
  for_down_fuel fuel i lo step body s = run body (idx_down_fuel fuel i lo step) s.
Proof.
  revert i s. induction fuel as [|fuel IH]; intros i s; cbn [for_down_fuel idx_down_fuel].
  - reflexivity.
  - destruct (lo <=? i); [|reflexivity]. apply IH.
Qed.

Lemma for_down_run hi lo step s :
  for_down hi lo step body s = run body (idx_down hi lo step) s.
Proof. apply for_down_fuel_run. Qed.

Lemma run_app l1 l2 s : run body (l1 ++ l2) s = run body l2 (run body l1 s).
Proof. apply fold_left_app. Qed.

Lemma run_nil s : run body [] s = s.
Proof. reflexivity. Qed.

Lemma run_cons a l s : run body (a :: l) s = run body l (body a s).
Proof. reflexivity. Qed.

(** An invariant of the body, for the indices of the list, holds after
    the loop. *)
Lemma run_invariant (I : S -> Prop) (R : Z -> Prop) l s :
  (forall i s, R i -> I s -> I (body i s)) -> Forall R l -> I s -> I (run body l s).
Proof.
  intros Hstep. revert s. induction l as [|a l IH]; intros s Hl Hs.
  - exact Hs.
  - rewrite run_cons. inversion Hl; subst. apply IH; [assumption|].
    apply Hstep; assumption.
Qed.
End Folds.

(** The loops end because their test fails, not because the fuel runs out:
    more fuel does not change the indices visited. *)
Lemma idx_up_fuel_stable fuel i hi step :
  0 < step -> (Z.to_nat (hi - i) <= fuel)%nat ->
  idx_up_fuel (S fuel) i hi step = idx_up_fuel fuel i hi step.
Proof.
  intros Hstep. revert i. induction fuel as [|fuel IH]; intros i Hf.
  - cbn [idx_up_fuel]. destruct (Z.ltb_spec i hi); [lia|reflexivity].
  - change (idx_up_fuel (S (S fuel)) i hi step)
      with (if i <? hi then i :: idx_up_fuel (S fuel) (i + step) hi step else []).
    change (idx_up_fuel (S fuel) i hi step)
      with (if i <? hi then i :: idx_up_fuel fuel (i + step) hi step else []).
    destruct (Z.ltb_spec i hi); [|reflexivity].
    f_equal. apply IH. lia.
Qed.

Lemma idx_down_fuel_stable fuel i lo step :
  0 < step -> (Z.to_nat (i - lo + 1) <= fuel)%nat ->
  idx_down_fuel (S fuel) i lo step = idx_down_fuel fuel i lo step.
Proof.
  intros Hstep. revert i. induction fuel as [|fuel IH]; intros i Hf.
  - cbn [idx_down_fuel]. destruct (Z.leb_spec lo i); [lia|reflexivity].
  - change (idx_down_fuel (S (S fuel)) i lo step)
      with (if lo <=? i then i :: idx_down_fuel (S fuel) (i - step) lo step else []).
    change (idx_down_fuel (S fuel) i lo step)
      with (if lo <=? i then i :: idx_down_fuel fuel (i - step) lo step else []).
    destruct (Z.leb_spec lo i); [|reflexivity].
    f_equal. apply IH. lia.
Qed.

End LoopFacts.
Import LoopFacts.

(* ================================================================== *)
(** ** ARIA: the layers and the rounds *)
(* ================================================================== *)

Module AriaFacts.
Import ARIA AriaAux.

(** *** Bytes of a packed word *)

Lemma byte0_pack a b c d :
  u8 (Z.shiftr (pack (u8 a) (u8 b) (u8 c) (u8 d)) 24) = u8 a.
Proof. unfold pack. bitwise_u32. Qed.

Lemma byte1_pack a b c d :
  u8 (Z.shiftr (pack (u8 a) (u8 b) (u8 c) (u8 d)) 16) = u8 b.
Proof. unfold pack. bitwise_u32. Qed.

Lemma byte2_pack a b c d :
  u8 (Z.shiftr (pack (u8 a) (u8 b) (u8 c) (u8 d)) 8) = u8 c.
Proof. unfold pack. bitwise_u32. Qed.

Lemma byte3_pack a b c d :
  u8 (pack (u8 a) (u8 b) (u8 c) (u8 d)) = u8 d.
Proof. unfold pack. bitwise_u32. Qed.

Lemma pack_bytes w :
  pack (u8 (Z.shiftr w 24)) (u8 (Z.shiftr w 16)) (u8 (Z.shiftr w 8)) (u8 w) = u32 w.
Proof. unfold pack. bitwise_u32. Qed.

Lemma pack_u32 a b c d :
  u32 (pack (u8 a) (u8 b) (u8 c) (u8 d)) = pack (u8 a) (u8 b) (u8 c) (u8 d).
Proof. unfold pack. bitwise_u32. Qed.

Lemma pack_lxor a b c d a' b' c' d' :
  pack (Z.lxor (u8 a) (u8 a')) (Z.lxor (u8 b) (u8 b'))
       (Z.lxor (u8 c) (u8 c')) (Z.lxor (u8 d) (u8 d'))
  = Z.lxor (pack (u8 a) (u8 b) (u8 c) (u8 d)) (pack (u8 a') (u8 b') (u8 c') (u8 d')).
Proof. unfold pack. bitwise_u32. Qed.

Lemma u8_shiftr_lxor a b k :
  0 <= k -> u8 (Z.shiftr (Z.lxor a b) k) = Z.lxor (u8 (Z.shiftr a k)) (u8 (Z.shiftr b k)).
Proof. intros Hk. unfold u8. apply Z.bits_inj'; intros n Hn. bit_solve. Qed.

Lemma u8_lxor a b : u8 (Z.lxor a b) = Z.lxor (u8 a) (u8 b).
Proof. unfold u8. apply Z.bits_inj'; intros n Hn. bit_solve. Qed.

(** The same facts for operands known to be bytes. *)
Section Bytes.
Variables a b c d : Z.
Hypothesis Ha : in_u8 a.
Hypothesis Hb : in_u8 b.
Hypothesis Hc : in_u8 c.
Hypothesis Hd : in_u8 d.

Lemma byte0_pack_r : u8 (Z.shiftr (pack a b c d) 24) = a.
Proof.
  pose proof (byte0_pack a b c d) as E.
  rewrite (u8_small a), (u8_small b), (u8_small c), (u8_small d) in E by assumption.
  exact E.
Qed.

Lemma byte1_pack_r : u8 (Z.shiftr (pack a b c d) 16) = b.
Proof.
  pose proof (byte1_pack a b c d) as E.
  rewrite (u8_small a), (u8_small b), (u8_small c), (u8_small d) in E by assumption.
  exact E.
Qed.

Lemma byte2_pack_r : u8 (Z.shiftr (pack a b c d) 8) = c.
Proof.
  pose proof (byte2_pack a b c d) as E.
  rewrite (u8_small a), (u8_small b), (u8_small c), (u8_small d) in E by assumption.
  exact E.
Qed.

Lemma byte3_pack_r : u8 (pack a b c d) = d.
Proof.
  pose proof (byte3_pack a b c d) as E.
  rewrite (u8_small a), (u8_small b), (u8_small c), (u8_small d) in E by assumption.
  exact E.
Qed.

Lemma pack_range : in_u32 (pack a b c d).
Proof.
  pose proof (pack_u32 a b c d) as E.
  rewrite (u8_small a), (u8_small b), (u8_small c), (u8_small d) in E by assumption.
  rewrite <- E. apply u32_range.
Qed.
End Bytes.

(** *** The diffusion layer *)

Lemma xor7_range a b c d e f g : in_u8 (xor7 a b c d e f g).
Proof. apply u8_range. Qed.

Lemma xor7_lxor a b c d e f g a' b' c' d' e' f' g' :
  xor7 (Z.lxor a a') (Z.lxor b b') (Z.lxor c c') (Z.lxor d d')
       (Z.lxor e e') (Z.lxor f f') (Z.lxor g g')
  = Z.lxor (xor7 a b c d e f g) (xor7 a' b' c' d' e' f' g').
Proof. unfold xor7, u8. apply Z.bits_inj'; intros n Hn. bit_solve. Qed.

Lemma A_as_bytes x :
  A x = A_bytes (u8 (Z.shiftr (q0 x) 24)) (u8 (Z.shiftr (q0 x) 16))
                (u8 (Z.shiftr (q0 x) 8)) (u8 (q0 x))
                (u8 (Z.shiftr (q1 x) 24)) (u8 (Z.shiftr (q1 x) 16))
                (u8 (Z.shiftr (q1 x) 8)) (u8 (q1 x))
                (u8 (Z.shiftr (q2 x) 24)) (u8 (Z.shiftr (q2 x) 16))
                (u8 (Z.shiftr (q2 x) 8)) (u8 (q2 x))
                (u8 (Z.shiftr (q3 x) 24)) (u8 (Z.shiftr (q3 x) 16))
                (u8 (Z.shiftr (q3 x) 8)) (u8 (q3 x)).
Proof. reflexivity. Qed.

Ltac xor_bytes :=
  unfold xor7, u8; apply Z.bits_inj'; intros n Hn; bit_push;
  destruct (n <? 8); [ btauto | reflexivity ].

(** The byte matrix of [A] squares to the identity. *)
Lemma A_bytes_invol t0 t1 t2 t3 t4 t5 t6 t7 t8 t9 t10 t11 t12 t13 t14 t15 :
  A (A_bytes (u8 t0) (u8 t1) (u8 t2) (u8 t3) (u8 t4) (u8 t5) (u8 t6) (u8 t7)
             (u8 t8) (u8 t9) (u8 t10) (u8 t11) (u8 t12) (u8 t13) (u8 t14) (u8 t15))
  = mk128 (pack (u8 t0) (u8 t1) (u8 t2) (u8 t3)) (pack (u8 t4) (u8 t5) (u8 t6) (u8 t7))
          (pack (u8 t8) (u8 t9) (u8 t10) (u8 t11))
          (pack (u8 t12) (u8 t13) (u8 t14) (u8 t15)).
Proof.
  rewrite A_as_bytes.
  set (Y := A_bytes (u8 t0) (u8 t1) (u8 t2) (u8 t3) (u8 t4) (u8 t5) (u8 t6) (u8 t7)
                    (u8 t8) (u8 t9) (u8 t10) (u8 t11) (u8 t12) (u8 t13) (u8 t14) (u8 t15)).
  unfold A_bytes in Y. subst Y. cbn [q0 q1 q2 q3].
  rewrite !byte0_pack_r, !byte1_pack_r, !byte2_pack_r, !byte3_pack_r
    by apply xor7_range.
  unfold A_bytes. f_equal; f_equal; xor_bytes.
Qed.

Lemma wf128_A x : wf128 (A x).
Proof. unfold wf128, A; cbn [q0 q1 q2 q3]. repeat split; apply pack_range; apply xor7_range. Qed.

Lemma A_invol x : wf128 x -> A (A x) = x.
Proof.
  destruct x as [a b c d]. intros (Ha & Hb & Hc & Hd); cbn [q0 q1 q2 q3] in *.
  rewrite (A_as_bytes (mk128 a b c d)); cbn [q0 q1 q2 q3].
  rewrite A_bytes_invol, !pack_bytes.
  rewrite !u32_small by assumption. reflexivity.
Qed.

Lemma A_lxor x y : A (XOR_128 x y) = XOR_128 (A x) (A y).
Proof.
  destruct x as [a b c d], y as [a' b' c' d'].
  unfold A, XOR_128; cbn [q0 q1 q2 q3].
  rewrite !u8_shiftr_lxor by lia. rewrite !u8_lxor. rewrite !xor7_lxor.
  unfold xor7. rewrite !pack_lxor. reflexivity.
Qed.

(** *** The substitution layers *)

Lemma is_byte_spec z : is_byte z = true -> in_u8 z.
Proof. unfold is_byte, in_u8. change (2 ^ 8) with 256. lia. Qed.

Lemma SB_range :
  forall b, in_u8 b ->
    in_u8 (rd SB1 b) /\ in_u8 (rd SB2 b) /\ in_u8 (rd SB3 b) /\ in_u8 (rd SB4 b).
Proof.
  intros b Hb.
  assert (H : all_bytes (fun b => is_byte (rd SB1 b) && is_byte (rd SB2 b)
                                  && is_byte (rd SB3 b) && is_byte (rd SB4 b)) = true)
    by (vm_compute; reflexivity).
  apply all_bytes_spec with (b := b) in H; [|exact Hb].
  apply andb_prop in H; destruct H as [H H4].
  apply andb_prop in H; destruct H as [H H3].
  apply andb_prop in H; destruct H as [H1 H2].
  auto using is_byte_spec.
Qed.

(** [SB3] is the inverse table of [SB1] and [SB4] that of [SB2]. *)
Lemma SB_inverse :
  forall b, in_u8 b ->
    rd SB3 (rd SB1 b) = b /\ rd SB1 (rd SB3 b) = b /\
    rd SB4 (rd SB2 b) = b /\ rd SB2 (rd SB4 b) = b.
Proof.
  intros b Hb.
  assert (H : all_bytes (fun b => (rd SB3 (rd SB1 b) =? b) && (rd SB1 (rd SB3 b) =? b)
                                  && (rd SB4 (rd SB2 b) =? b) && (rd SB2 (rd SB4 b) =? b))
              = true)
    by (vm_compute; reflexivity).
  apply all_bytes_spec with (b := b) in H; [|exact Hb].
  apply andb_prop in H; destruct H as [H H4].
  apply andb_prop in H; destruct H as [H H3].
  apply andb_prop in H; destruct H as [H1 H2].
  rewrite Z.eqb_eq in H1, H2, H3, H4. auto.
Qed.

Lemma sl1_word_range w : in_u32 (sl_word SB1 SB2 SB3 SB4 w).
Proof. unfold sl_word. apply pack_range; apply SB_range; apply u8_range. Qed.

Lemma sl2_word_range w : in_u32 (sl_word SB3 SB4 SB1 SB2 w).
Proof. unfold sl_word. apply pack_range; apply SB_range; apply u8_range. Qed.

Lemma sl1_sl2_word w : in_u32 w -> sl_word SB1 SB2 SB3 SB4 (sl_word SB3 SB4 SB1 SB2 w) = w.
Proof.
  intros Hw. unfold sl_word at 1.
  unfold sl_word. rewrite !Z.shiftr_0_r.
  rewrite byte0_pack_r, byte1_pack_r, byte2_pack_r, byte3_pack_r
    by (apply SB_range; apply u8_range).
  destruct (SB_inverse (u8 (Z.shiftr w 24)) (u8_range _)) as (_ & -> & _ & _).
  destruct (SB_inverse (u8 (Z.shiftr w 16)) (u8_range _)) as (_ & _ & _ & ->).
  destruct (SB_inverse (u8 (Z.shiftr w 8)) (u8_range _)) as (-> & _ & _ & _).
  destruct (SB_inverse (u8 w) (u8_range _)) as (_ & _ & -> & _).
  rewrite pack_bytes. apply u32_small; exact Hw.
Qed.

Lemma sl2_sl1_word w : in_u32 w -> sl_word SB3 SB4 SB1 SB2 (sl_word SB1 SB2 SB3 SB4 w) = w.
Proof.
  intros Hw. unfold sl_word at 1.
  unfold sl_word. rewrite !Z.shiftr_0_r.
  rewrite byte0_pack_r, byte1_pack_r, byte2_pack_r, byte3_pack_r
    by (apply SB_range; apply u8_range).
  destruct (SB_inverse (u8 (Z.shiftr w 24)) (u8_range _)) as (-> & _ & _ & _).
  destruct (SB_inverse (u8 (Z.shiftr w 16)) (u8_range _)) as (_ & _ & -> & _).
  destruct (SB_inverse (u8 (Z.shiftr w 8)) (u8_range _)) as (_ & -> & _ & _).
  destruct (SB_inverse (u8 w) (u8_range _)) as (_ & _ & _ & ->).
  rewrite pack_bytes. apply u32_small; exact Hw.
Qed.

Lemma wf128_SL1 x : wf128 (SL1 x).
Proof. unfold wf128, SL1; cbn [q0 q1 q2 q3]. repeat split; apply sl1_word_range. Qed.

Lemma wf128_SL2 x : wf128 (SL2 x).
Proof. unfold wf128, SL2; cbn [q0 q1 q2 q3]. repeat split; apply sl2_word_range. Qed.

Lemma SL1_SL2 x : wf128 x -> SL1 (SL2 x) = x.
Proof.
  destruct x as [a b c d]. intros (Ha & Hb & Hc & Hd); cbn [q0 q1 q2 q3] in *.
  unfold SL1, SL2; cbn [q0 q1 q2 q3]. rewrite !sl1_sl2_word by assumption. reflexivity.
Qed.

Lemma SL2_SL1 x : wf128 x -> SL2 (SL1 x) = x.
Proof.
  destruct x as [a b c d]. intros (Ha & Hb & Hc & Hd); cbn [q0 q1 q2 q3] in *.
  unfold SL1, SL2; cbn [q0 q1 q2 q3]. rewrite !sl2_sl1_word by assumption. reflexivity.
Qed.

(** *** Well-formedness of the registers and round keys *)

Lemma wf128_XOR x y : wf128 x -> wf128 y -> wf128 (XOR_128 x y).
Proof.
  unfold wf128, XOR_128, in_u32; cbn [q0 q1 q2 q3].
  intros (H0 & H1 & H2 & H3) (K0 & K1 & K2 & K3).
  split; [|split; [|split]]; apply lxor_bound; solve [lia | assumption].
Qed.

Lemma wf128_MOV x : MOV_128 x = x.
Proof. destruct x; reflexivity. Qed.

Lemma wf128_ROL x n : 0 <= n <= 32 -> wf128 x -> wf128 (ROL_128 x n).
Proof.
  unfold wf128, ROL_128, in_u32; cbn [q0 q1 q2 q3].
  intros Hn (H0 & H1 & H2 & H3).
  split; [|split; [|split]]; apply lor_bound; try lia; try apply u32_range;
    apply shiftr_bound; solve [lia | assumption].
Qed.

Lemma wf128_ROR x n : 0 <= n <= 32 -> wf128 x -> wf128 (ROR_128 x n).
Proof.
  unfold wf128, ROR_128, in_u32; cbn [q0 q1 q2 q3].
  intros Hn (H0 & H1 & H2 & H3).
  split; [|split; [|split]]; apply lor_bound; try lia; try apply u32_range;
    apply shiftr_bound; solve [lia | assumption].
Qed.

Lemma wf128_KR : wf128 KR.
Proof. unfold wf128, KR, in_u32; cbn [q0 q1 q2 q3]. lia. Qed.

Lemma wf128_FO D RK : wf128 (FO D RK).
Proof. apply wf128_A. Qed.

Lemma wf128_FE D RK : wf128 (FE D RK).
Proof. apply wf128_A. Qed.

Lemma XOR_cancel x y : XOR_128 (XOR_128 x y) y = x.
Proof.
  destruct x, y; unfold XOR_128; cbn [q0 q1 q2 q3].
  rewrite !lxor_cancel_r. reflexivity.
Qed.

(** Well-formedness goals, dispatched on the head of the value. *)
Ltac wf_step :=
  match goal with
  | H : ?G |- ?G => exact H
  | |- wf128 (FO _ _) => apply wf128_FO
  | |- wf128 (FE _ _) => apply wf128_FE
  | |- wf128 (A _) => apply wf128_A
  | |- wf128 (SL1 _) => apply wf128_SL1
  | |- wf128 (SL2 _) => apply wf128_SL2
  | |- wf128 KR => apply wf128_KR
  | |- wf128 (XOR_128 _ _) => apply wf128_XOR
  | |- wf128 (ROL_128 _ _) => apply wf128_ROL; [lia|]
  | |- wf128 (ROR_128 _ _) => apply wf128_ROR; [lia|]
  end.
Ltac wf_auto := repeat wf_step.

(** *** Undoing the rounds *)

Lemma FO_eq D RK : FO D RK = A (SL1 (XOR_128 D RK)).
Proof. unfold FO. rewrite wf128_MOV. reflexivity. Qed.

Lemma FE_eq D RK : FE D RK = A (SL2 (XOR_128 D RK)).
Proof. unfold FE. rewrite wf128_MOV. reflexivity. Qed.

(** The first decryption round removes the final substitution. *)
Lemma peel_first P k12 k13 :
  wf128 P -> wf128 k12 ->
  FO (XOR_128 (SL2 (XOR_128 P k12)) k13) k13 = A (XOR_128 P k12).
Proof.
  intros HP Hk. rewrite FO_eq, XOR_cancel, SL1_SL2; [reflexivity|].
  wf_auto.
Qed.

(** An even decryption round under [A k'] removes the odd round before it. *)
Lemma peel_FE Q k' k'' :
  wf128 Q -> wf128 k'' ->
  FE (A (XOR_128 (FO Q k'') k')) (A k') = A (XOR_128 Q k'').
Proof.
  intros HQ Hk. rewrite FE_eq, A_lxor, XOR_cancel, FO_eq.
  rewrite A_invol by apply wf128_SL1.
  rewrite SL2_SL1; [reflexivity|]. wf_auto.
Qed.

(** An odd decryption round under [A k'] removes the even round before it. *)
Lemma peel_FO Q k' k'' :
  wf128 Q -> wf128 k'' ->
  FO (A (XOR_128 (FE Q k'') k')) (A k') = A (XOR_128 Q k'').
Proof.
  intros HQ Hk. rewrite FO_eq, A_lxor, XOR_cancel, FE_eq.
  rewrite A_invol by apply wf128_SL2.
  rewrite SL1_SL2; [reflexivity|]. wf_auto.
Qed.

(** The last key additions of the decryption remove the first round. *)
Lemma peel_last b k1 k2 :
  wf128 b -> wf128 k1 ->
  XOR_128 (SL2 (XOR_128 (A (XOR_128 (FO b k1) k2)) (A k2))) k1 = b.
Proof.
  intros Hb Hk. rewrite A_lxor, XOR_cancel, FO_eq.
  rewrite A_invol by apply wf128_SL1.
  rewrite SL2_SL1 by wf_auto.
  apply XOR_cancel.
Qed.

(** The rounds under the reordered, diffused keys undo the rounds. *)
Lemma rounds_inverse b k1 k2 k3 k4 k5 k6 k7 k8 k9 k10 k11 k12 k13 :
  wf128 b -> wf128 k1 -> wf128 k2 -> wf128 k3 -> wf128 k4 -> wf128 k5 ->
  wf128 k6 -> wf128 k7 -> wf128 k8 -> wf128 k9 -> wf128 k10 -> wf128 k11 ->
  wf128 k12 ->
  rounds (rounds b k1 k2 k3 k4 k5 k6 k7 k8 k9 k10 k11 k12 k13)
         k13 (A k12) (A k11) (A k10) (A k9) (A k8) (A k7) (A k6) (A k5) (A k4)
         (A k3) (A k2) k1
  = b.
Proof.
  intros Hb H1 H2 H3 H4 H5 H6 H7 H8 H9 H10 H11 H12.
  cbv beta zeta delta [rounds].
  rewrite peel_first by wf_auto.
  rewrite peel_FE by wf_auto.
  rewrite peel_FO by wf_auto.
  rewrite peel_FE by wf_auto.
  rewrite peel_FO by wf_auto.
  rewrite peel_FE by wf_auto.
  rewrite peel_FO by wf_auto.
  rewrite peel_FE by wf_auto.
  rewrite peel_FO by wf_auto.
  rewrite peel_FE by wf_auto.
  rewrite peel_FO by wf_auto.
  apply peel_last; wf_auto.
Qed.

(** *** The key setup of [ARIA_encrypt] *)

Lemma ARIA_encrypt_eq g p key :
  ARIA_encrypt g p key
  = (mkGlobals (setup key) (generateEncryptionKeys (setup key)) (dkeys g),
     let e := generateEncryptionKeys (setup key) in
     rounds p (ek1 e) (ek2 e) (ek3 e) (ek4 e) (ek5 e) (ek6 e) (ek7 e)
            (ek8 e) (ek9 e) (ek10 e) (ek11 e) (ek12 e) (ek13 e)).
Proof.
  unfold ARIA_encrypt, setup. rewrite wf128_MOV. cbv zeta. reflexivity.
Qed.

Lemma ARIA_decrypt_out g c key :
  snd (ARIA_decrypt g c key)
  = let e := ekeys g in
    rounds c (ek13 e) (A (ek12 e)) (A (ek11 e)) (A (ek10 e)) (A (ek9 e)) (A (ek8 e))
           (A (ek7 e)) (A (ek6 e)) (A (ek5 e)) (A (ek4 e)) (A (ek3 e)) (A (ek2 e))
           (ek1 e).
Proof.
  unfold ARIA_decrypt; cbn [snd generateDecryptionKeys dk1 dk2 dk3 dk4 dk5 dk6 dk7
                                dk8 dk9 dk10 dk11 dk12 dk13].
  rewrite !wf128_MOV. reflexivity.
Qed.

Ltac split_wf := repeat match goal with |- wf128 _ /\ _ => split end.

Lemma wf_setup key : wf128 key -> wf_regs (setup key).
Proof.
  intros Hk. unfold wf_regs, setup. cbv zeta. cbn [W0 W1 W2 W3].
  split_wf; wf_auto.
Qed.

Lemma wf_generateEncryptionKeys r : wf_regs r -> wf_ekeys (generateEncryptionKeys r).
Proof.
  intros (H0 & H1 & H2 & H3).
  unfold wf_ekeys, generateEncryptionKeys;
    cbn [ek1 ek2 ek3 ek4 ek5 ek6 ek7 ek8 ek9 ek10 ek11 ek12 ek13].
  unfold ek_ror, ek_rol61. rewrite !wf128_MOV.
  split_wf; wf_auto.
Qed.

(** Whatever key [ARIA_decrypt] is passed, it undoes the [ARIA_encrypt]
    call that last filled the global encryption keys. *)
Lemma decrypt_after_encrypt g p key key' :
  wf128 key -> wf128 p ->
  snd (ARIA_decrypt (fst (ARIA_encrypt g p key)) (snd (ARIA_encrypt g p key)) key') = p.
Proof.
  intros Hk Hp. rewrite ARIA_decrypt_out, ARIA_encrypt_eq. cbn [fst snd ekeys].
  cbv zeta.
  destruct (wf_generateEncryptionKeys (setup key) (wf_setup key Hk))
    as (H1 & H2 & H3 & H4 & H5 & H6 & H7 & H8 & H9 & H10 & H11 & H12 & H13).
  apply rounds_inverse; wf_auto.
Qed.

End AriaFacts.

(* ================================================================== *)
(** ** SIMON: decryption undoes encryption *)
(* ================================================================== *)

Module SimonFacts.
Import SIMON.

Lemma lxor_undo x a l : Z.lxor (Z.lxor (Z.lxor (Z.lxor x a) l) a) l = x.
Proof.
  apply Z.bits_inj'; intros n Hn. rewrite !Z.lxor_spec.
  destruct (Z.testbit x n), (Z.testbit a n), (Z.testbit l n); reflexivity.
Qed.

(** [R2] with the halves and the two keys swapped undoes [R2]. *)
Lemma R2_undo x y k l :
  R2 (snd (R2 (x, y) k l), fst (R2 (x, y) k l)) l k = (y, x).
Proof.
  unfold R2; cbn [fst snd]. cbv zeta.
  rewrite (lxor_undo x). rewrite (lxor_undo y). reflexivity.
Qed.

Lemma dec_enc_body sk i xy : dec_body sk (i + 1) (enc_body sk i xy) = xy.
Proof.
  destruct xy as [x y]. unfold dec_body, enc_body.
  replace (i + 1 - 1) with i by lia.
  pose proof (R2_undo x y (rd sk i) (rd sk (i + 1))) as E.
  destruct (R2 (x, y) (rd sk i) (rd sk (i + 1))) as [x1 y1]; cbn [fst snd] in E.
  rewrite E. reflexivity.
Qed.

(** The decryption loop over the successors of the encryption indices,
    in reverse order, undoes the encryption loop. *)
Lemma dec_enc_run sk l xy :
  run (dec_body sk) (rev (map (fun i => i + 1) l)) (run (enc_body sk) l xy) = xy.
Proof.
  revert xy. induction l as [|a l IH]; intros xy.
  - reflexivity.
  - cbn [map rev]. rewrite run_app, run_cons, run_cons, run_nil.
    rewrite IH. apply dec_enc_body.
Qed.

Lemma idx_68 : idx_down 67 0 2 = rev (map (fun i => i + 1) (idx_up 0 68 2)).
Proof. vm_compute. reflexivity. Qed.

Lemma idx_72 : idx_down 71 0 2 = rev (map (fun i => i + 1) (idx_up 0 72 2)).
Proof. vm_compute. reflexivity. Qed.

(** Round trip for a context with one of the three subkey counts. *)
Lemma simon_roundtrip_ctx ctx b :
  nrSubkeys ctx = 68 \/ nrSubkeys ctx = 69 \/ nrSubkeys ctx = 72 ->
  SIMON_decrypt ctx (SIMON_encrypt ctx b) = b.
Proof.
  destruct ctx as [n sk]; cbn [nrSubkeys]. destruct b as [x y].
  intros [-> | [-> | ->]]; unfold SIMON_encrypt, SIMON_decrypt; cbn [nrSubkeys subkeys].
  - change (68 =? 69) with false. cbv iota.
    rewrite for_up_run.
    destruct (run (enc_body sk) (idx_up 0 68 2) (x, y)) as [x1 y1] eqn:E.
    change (68 - 1) with 67. rewrite for_down_run, idx_68, <- E. apply dec_enc_run.
  - change (69 =? 69) with true. cbv iota.
    rewrite for_up_run.
    destruct (run (enc_body sk) (idx_up 0 68 2) (x, y)) as [x1 y1] eqn:E.
    cbv zeta. rewrite lxor_cancel_r_l.
    rewrite for_down_run, idx_68, <- E. apply dec_enc_run.
  - change (72 =? 69) with false. cbv iota.
    rewrite for_up_run.
    destruct (run (enc_body sk) (idx_up 0 72 2) (x, y)) as [x1 y1] eqn:E.
    change (72 - 1) with 71. rewrite for_down_run, idx_72, <- E. apply dec_enc_run.
Qed.

Lemma SIMON_init_128 ctx key : nrSubkeys (SIMON_init ctx key 128) = 68.
Proof.
  unfold SIMON_init. change (128 =? 128) with true. cbv beta iota zeta.
  destruct (for_up 2 66 1 init128_body _) as [z sk]. reflexivity.
Qed.

Lemma SIMON_init_192 ctx key : nrSubkeys (SIMON_init ctx key 192) = 69.
Proof.
  unfold SIMON_init. change (192 =? 128) with false. change (192 =? 192) with true.
  cbv beta iota zeta.
  destruct (for_up 3 67 1 init192_body _) as [z sk]. reflexivity.
Qed.

Lemma SIMON_init_else ctx key keyLen :
  keyLen <> 128 -> keyLen <> 192 ->
  SIMON_init ctx key keyLen = SIMON_init ctx key 256.
Proof.
  intros H1 H2. unfold SIMON_init.
  apply Z.eqb_neq in H1, H2. rewrite H1, H2.
  change (256 =? 128) with false. change (256 =? 192) with false.
  cbv beta iota. reflexivity.
Qed.

Lemma SIMON_init_256 ctx key : nrSubkeys (SIMON_init ctx key 256) = 72.
Proof.
  unfold SIMON_init. change (256 =? 128) with false. change (256 =? 192) with false.
  cbv beta iota zeta.
  destruct (for_up 4 68 1 init256_body _) as [z sk]. reflexivity.
Qed.

Lemma simon_roundtrip_init ctx key keyLen b :
  keyLen = 128 \/ keyLen = 192 \/ keyLen = 256 ->
  SIMON_decrypt (SIMON_init ctx key keyLen) (SIMON_encrypt (SIMON_init ctx key keyLen) b) = b.
Proof.
  intros H. apply simon_roundtrip_ctx. destruct H as [-> | [-> | ->]].
  - left. apply SIMON_init_128.
  - right; left. apply SIMON_init_192.
  - right; right. apply SIMON_init_256.
Qed.

End SimonFacts.

(* ================================================================== *)
(** ** PRESENT: the layers and their inverses *)
(* ================================================================== *)

Module PresentFacts.
Import PRESENT PresentAux.

Lemma all_below_spec N f :
  all_below N f = true -> forall i, 0 <= i < Z.of_nat N -> f i = true.
Proof.
  unfold all_below. intros H i Hi.
  rewrite forallb_forall in H. apply H.
  rewrite <- (Z2Nat.id i) by lia.
  apply in_map. apply in_seq. lia.
Qed.

(** *** Loading and storing a block *)

Ltac bitwise_u64_16 :=
  unfold u8, u16, u32, u64;
  apply Z.bits_inj'; intros n Hn;
  assert (Hc : n < 16 \/ 16 <= n < 32 \/ 32 <= n < 48 \/ 48 <= n < 64 \/ 64 <= n) by lia;
  destruct Hc as [Hc | [Hc | [Hc | [Hc | Hc]]]]; bit_solve.

Lemma load64_u64 a b c d : u64 (load64 a b c (u16 d)) = load64 a b c (u16 d).
Proof. unfold load64. bitwise_u64_16. Qed.

Lemma load_store state : load_block (store_block state) = u64 state.
Proof. unfold load_block, store_block, load64. bitwise_u64_16. Qed.

Lemma store_load_words a b c d :
  store_block (load64 (u16 a) (u16 b) (u16 c) (u16 d)) = (u16 a, u16 b, u16 c, u16 d).
Proof.
  unfold store_block, load64.
  f_equal; [f_equal; [f_equal|]|]; bitwise_u64_16.
Qed.

Lemma store_load b : wf_block b -> store_block (load_block b) = b.
Proof.
  destruct b as [[[b0 b1] b2] b3]. intros (H0 & H1 & H2 & H3). unfold load_block.
  rewrite <- (u16_small b0 H0), <- (u16_small b1 H1), <- (u16_small b2 H2),
          <- (u16_small b3 H3).
  apply store_load_words.
Qed.

Lemma load_block_range b : wf_block b -> in_u64 (load_block b).
Proof.
  destruct b as [[[b0 b1] b2] b3]. intros (H0 & H1 & H2 & H3). unfold load_block.
  rewrite <- (u16_small b3 H3). rewrite <- load64_u64. apply u64_range.
Qed.

(** *** The substitution layers *)

Lemma idx_0_8 : idx_up 0 8 1 = [0; 1; 2; 3; 4; 5; 6; 7].
Proof. vm_compute. reflexivity. Qed.

Lemma subst_layer_eq tbl state :
  for_up 0 8 1 (subst_body tbl state) 0
  = pack8 (sub_byte tbl (u8 (Z.shiftr state 56))) (sub_byte tbl (u8 (Z.shiftr state 48)))
          (sub_byte tbl (u8 (Z.shiftr state 40))) (sub_byte tbl (u8 (Z.shiftr state 32)))
          (sub_byte tbl (u8 (Z.shiftr state 24))) (sub_byte tbl (u8 (Z.shiftr state 16)))
          (sub_byte tbl (u8 (Z.shiftr state 8))) (sub_byte tbl (u8 (Z.shiftr state 0))).
Proof. rewrite for_up_run, idx_0_8. reflexivity. Qed.

Ltac bitwise_u64_8 :=
  unfold u8, u16, u32, u64;
  apply Z.bits_inj'; intros n Hn;
  assert (Hc : n < 8 \/ 8 <= n < 16 \/ 16 <= n < 24 \/ 24 <= n < 32 \/ 32 <= n < 40
               \/ 40 <= n < 48 \/ 48 <= n < 56 \/ 56 <= n < 64 \/ 64 <= n) by lia;
  destruct Hc as [Hc | [Hc | [Hc | [Hc | [Hc | [Hc | [Hc | [Hc | Hc]]]]]]]]; bit_solve.

Lemma bytes_pack8 t0 t1 t2 t3 t4 t5 t6 t7 :
  let w := pack8 (u8 t0) (u8 t1) (u8 t2) (u8 t3) (u8 t4) (u8 t5) (u8 t6) (u8 t7) in
  u8 (Z.shiftr w 56) = u8 t0 /\ u8 (Z.shiftr w 48) = u8 t1 /\
  u8 (Z.shiftr w 40) = u8 t2 /\ u8 (Z.shiftr w 32) = u8 t3 /\
  u8 (Z.shiftr w 24) = u8 t4 /\ u8 (Z.shiftr w 16) = u8 t5 /\
  u8 (Z.shiftr w 8) = u8 t6 /\ u8 (Z.shiftr w 0) = u8 t7.
Proof. cbv zeta. unfold pack8. repeat apply conj; bitwise_u64_8. Qed.

Lemma pack8_bytes s :
  pack8 (u8 (Z.shiftr s 56)) (u8 (Z.shiftr s 48)) (u8 (Z.shiftr s 40))
        (u8 (Z.shiftr s 32)) (u8 (Z.shiftr s 24)) (u8 (Z.shiftr s 16))
        (u8 (Z.shiftr s 8)) (u8 (Z.shiftr s 0))
  = u64 s.
Proof. unfold pack8. bitwise_u64_8. Qed.

Lemma pack8_u64 B0 B1 B2 B3 B4 B5 B6 B7 :
  u64 (pack8 B0 B1 B2 B3 B4 B5 B6 B7) = pack8 B0 B1 B2 B3 B4 B5 B6 B7.
Proof.
  unfold pack8, u64. apply Z.bits_inj'; intros n Hn.
  rewrite !Z.testbit_mod_pow2, !Z.lor_spec, !Z.testbit_mod_pow2, Z.testbit_0_l by lia.
  destruct (n <? 64); [reflexivity|]. reflexivity.
Qed.

Lemma sub_byte_range b :
  in_u8 b -> in_u8 (sub_byte sbox b) /\ in_u8 (sub_byte isbox b).
Proof.
  intros Hb.
  assert (H : all_bytes (fun b => AriaAux.is_byte (sub_byte sbox b)
                                  && AriaAux.is_byte (sub_byte isbox b)) = true)
    by (vm_compute; reflexivity).
  apply all_bytes_spec with (b := b) in H; [|exact Hb].
  apply andb_prop in H; destruct H as [H1 H2].
  split; apply AriaFacts.is_byte_spec; assumption.
Qed.

(** [isbox] undoes [sbox] on both nibbles of a byte. *)
Lemma sub_byte_inverse b : in_u8 b -> sub_byte isbox (sub_byte sbox b) = b.
Proof.
  intros Hb.
  assert (H : all_bytes (fun b => sub_byte isbox (sub_byte sbox b) =? b) = true)
    by (vm_compute; reflexivity).
  apply all_bytes_spec with (b := b) in H; [|exact Hb].
  apply Z.eqb_eq; exact H.
Qed.

Lemma sBoxLayer_range s : in_u64 (sBoxLayer s).
Proof.
  unfold sBoxLayer. rewrite subst_layer_eq, <- pack8_u64. apply u64_range.
Qed.

Lemma inverseSBoxLayer_range s : in_u64 (inverseSBoxLayer s).
Proof.
  unfold inverseSBoxLayer. rewrite subst_layer_eq, <- pack8_u64. apply u64_range.
Qed.

Lemma inverseSBoxLayer_sBoxLayer s : in_u64 s -> inverseSBoxLayer (sBoxLayer s) = s.
Proof.
  intros Hs. unfold inverseSBoxLayer, sBoxLayer.
  rewrite (subst_layer_eq isbox). rewrite (subst_layer_eq sbox).
  set (B0 := sub_byte sbox (u8 (Z.shiftr s 56))).
  set (B1 := sub_byte sbox (u8 (Z.shiftr s 48))).
  set (B2 := sub_byte sbox (u8 (Z.shiftr s 40))).
  set (B3 := sub_byte sbox (u8 (Z.shiftr s 32))).
  set (B4 := sub_byte sbox (u8 (Z.shiftr s 24))).
  set (B5 := sub_byte sbox (u8 (Z.shiftr s 16))).
  set (B6 := sub_byte sbox (u8 (Z.shiftr s 8))).
  set (B7 := sub_byte sbox (u8 (Z.shiftr s 0))).
  pose proof (bytes_pack8 B0 B1 B2 B3 B4 B5 B6 B7) as E. cbv zeta in E.
  assert (R : forall t, u8 (sub_byte sbox (u8 t)) = sub_byte sbox (u8 t))
    by (intros t; apply u8_small, sub_byte_range, u8_range).
  unfold B0, B1, B2, B3, B4, B5, B6, B7 in E. rewrite !R in E.
  fold B0 B1 B2 B3 B4 B5 B6 B7 in E.
  destruct E as (E0 & E1 & E2 & E3 & E4 & E5 & E6 & E7).
  rewrite E0, E1, E2, E3, E4, E5, E6, E7.
  unfold B0, B1, B2, B3, B4, B5, B6, B7.
  rewrite !sub_byte_inverse by apply u8_range.
  rewrite pack8_bytes. apply u64_small; exact Hs.
Qed.

(** *** The permutation layers *)

Lemma p_range i : 0 <= i < 64 -> 0 <= rd p i < 64.
Proof.
  intros Hi.
  assert (H : all_below 64 (fun i => (0 <=? rd p i) && (rd p i <? 64)) = true)
    by (vm_compute; reflexivity).
  apply all_below_spec with (i := i) in H; [|exact Hi]. lia.
Qed.

Lemma p_injective i j : 0 <= i < 64 -> 0 <= j < 64 -> rd p i = rd p j -> i = j.
Proof.
  intros Hi Hj E.
  assert (H : all_below 64 (fun i =>
                all_below 64 (fun j => implb (rd p i =? rd p j) (i =? j))) = true)
    by (vm_compute; reflexivity).
  apply all_below_spec with (i := i) in H; [|exact Hi].
  apply all_below_spec with (i := j) in H; [|exact Hj].
  rewrite E, Z.eqb_refl in H. cbn in H. apply Z.eqb_eq; exact H.
Qed.

(** The bit [d] of [s] moved to position [k]. *)
Lemma moved_bit s d k n :
  0 <= d -> 0 <= k < 64 -> 0 <= n ->
  Z.testbit (u64 (Z.shiftl (Z.land (Z.shiftr s d) 0x1) k)) n
  = (n =? k) && Z.testbit s d.
Proof.
  intros Hd Hk Hn. unfold u64. change 0x1 with (Z.ones 1).
  destruct (Z.eqb_spec n k) as [->|Hne].
  - bit_push. bit_cmp. cbn [andb]. rewrite andb_true_r. f_equal; lia.
  - assert (Hc : n < k \/ k < n) by lia. destruct Hc; bit_solve.
Qed.

Lemma perm_run_bit s l acc n :
  0 <= n -> Forall (fun i => 0 <= i < 64) l ->
  Z.testbit (run (perm_body s) l acc) n
  = Z.testbit acc n
    || existsb (fun i => (n =? 63 - rd p i) && Z.testbit s (63 - i)) l.
Proof.
  intros Hn. revert acc. induction l as [|a l IH]; intros acc Hl.
  - cbn. rewrite orb_false_r. reflexivity.
  - inversion Hl as [|? ? Ha Hl']; subst. rewrite run_cons. cbn [existsb].
    rewrite IH by exact Hl'.
    unfold perm_body. cbv zeta. rewrite Z.lor_spec.
    assert (E : u8 (63 - a) = 63 - a) by (apply u8_small; unfold in_u8; lia).
    rewrite E. pose proof (p_range a Ha).
    rewrite moved_bit by lia. rewrite orb_assoc. reflexivity.
Qed.

Lemma existsb_unique (g : Z -> Z) (h : Z -> bool) (R : Z -> Prop) l k :
  (forall i, R i -> R k -> g i = g k -> i = k) -> R k ->
  Forall R l -> NoDup l -> In k l ->
  existsb (fun i => (g k =? g i) && h i) l = h k.
Proof.
  intros Hinj Hk. induction l as [|a l IH]; intros Hl Hnd Hin.
  - contradiction.
  - inversion Hl as [|? ? Ha Hl']; subst. inversion Hnd as [|? ? Hna Hnd']; subst.
    cbn [existsb]. destruct Hin as [->|Hin].
    + rewrite Z.eqb_refl. cbn [andb].
      assert (E : existsb (fun i => (g k =? g i) && h i) l = false).
      { apply not_true_is_false. intros C. apply existsb_exists in C.
        destruct C as (i & Hi & Hc). apply andb_prop in Hc. destruct Hc as [Hc _].
        apply Z.eqb_eq in Hc. rewrite Forall_forall in Hl'.
        assert (i = k) by (apply Hinj; auto). subst. contradiction. }
      rewrite E. apply orb_false_r.
    + destruct (Z.eqb_spec (g k) (g a)) as [E|E].
      * assert (a = k) by (apply Hinj; auto). subst. contradiction.
      * cbn [andb orb]. apply IH; assumption.
Qed.

Lemma idx_0_64 : idx_up 0 64 1 = map Z.of_nat (seq 0 64).
Proof. vm_compute. reflexivity. Qed.

Lemma upto_range N : Forall (fun i => 0 <= i < Z.of_nat N) (map Z.of_nat (seq 0 N)).
Proof.
  apply Forall_forall. intros i Hi. apply in_map_iff in Hi.
  destruct Hi as (m & <- & Hm). apply in_seq in Hm. lia.
Qed.

Lemma upto_NoDup N : NoDup (map Z.of_nat (seq 0 N)).
Proof.
  apply Injective_map_NoDup; [|apply seq_NoDup].
  intros a b. apply Nat2Z.inj.
Qed.

Lemma upto_In N k : 0 <= k < Z.of_nat N -> In k (map Z.of_nat (seq 0 N)).
Proof.
  intros Hk. rewrite <- (Z2Nat.id k) by lia. apply in_map, in_seq. lia.
Qed.

(** [pLayer] moves the bit [63 - k] to the position [63 - p[k]]. *)
Lemma pLayer_bit s k :
  0 <= k < 64 -> Z.testbit (pLayer s) (63 - rd p k) = Z.testbit s (63 - k).
Proof.
  intros Hk. pose proof (p_range k Hk) as Hp.
  unfold pLayer. rewrite for_up_run, idx_0_64.
  rewrite perm_run_bit; [|lia|apply (upto_range 64)].
  rewrite Z.testbit_0_l, orb_false_l.
  apply (existsb_unique (fun i => 63 - rd p i) (fun i => Z.testbit s (63 - i))
                        (fun i => 0 <= i < 64)).
  - intros i Hi _ E. apply p_injective; lia.
  - exact Hk.
  - apply (upto_range 64).
  - apply upto_NoDup.
  - apply (upto_In 64). exact Hk.
Qed.

Lemma pLayer_range s : in_u64 (pLayer s).
Proof.
  unfold pLayer. rewrite for_up_run.
  apply (run_invariant (perm_body s) in_u64 (fun _ => True)).
  - intros i t _ Ht. unfold perm_body. cbv zeta.
    apply (lor_bound 64); [lia | exact Ht | apply u64_range].
  - apply Forall_forall. intros; exact I.
  - unfold in_u64. lia.
Qed.

(** One step of the inverse permutation loop shifts the bit [b] into [temp]. *)
Lemma shift_in s k t d :
  0 <= k < 64 -> 0 <= d ->
  Z.testbit t d = Z.testbit s (63 - k) ->
  Z.lor (u64 (Z.shiftl (Z.shiftr (u64 s) (64 - k)) 1)) (Z.land (Z.shiftr t d) 0x1)
  = Z.shiftr (u64 s) (64 - (k + 1)).
Proof.
  intros Hk Hd E. unfold u64.
  change (Z.land (Z.shiftr t d) 0x1) with (Z.land (Z.shiftr t d) (Z.ones 1)).
  apply Z.bits_inj'; intros n Hn.
  assert (Hc : n = 0 \/ 0 < n) by lia. destruct Hc as [->|Hc].
  - bit_push. bit_cmp. rewrite Z.add_0_l, E. cbn [andb orb].
    rewrite andb_true_r. f_equal. lia.
  - bit_push. bit_cmp; cbn [andb orb]; rewrite ?andb_false_r, ?orb_false_r;
      try reflexivity; try (f_equal; lia).
Qed.

Lemma iperm_prefix s k :
  (k <= 64)%nat ->
  run (iperm_body (pLayer s)) (map Z.of_nat (seq 0 k)) 0
  = Z.shiftr (u64 s) (64 - Z.of_nat k).
Proof.
  induction k as [|k IH]; intros Hk.
  - cbn [seq map run fold_left]. symmetry. apply Z.shiftr_eq_0_iff.
    pose proof (u64_range s) as R. unfold in_u64 in R.
    assert (C : u64 s = 0 \/ 0 < u64 s) by lia. destruct C as [C|C]; [left; exact C|].
    right. split; [exact C|]. apply Z.log2_lt_pow2; [exact C|].
    change (64 - Z.of_nat 0) with 64. lia.
  - rewrite seq_S, map_app, run_app. cbn [map Nat.add].
    rewrite run_cons, run_nil, IH by lia. unfold iperm_body. cbv zeta.
    pose proof (p_range (Z.of_nat k) ltac:(lia)) as Hp.
    assert (E : u8 (63 - rd p (Z.of_nat k)) = 63 - rd p (Z.of_nat k))
      by (apply u8_small; unfold in_u8; lia).
    rewrite E. rewrite (shift_in s (Z.of_nat k)).
    + f_equal. lia.
    + lia.
    + lia.
    + apply pLayer_bit. lia.
Qed.

Lemma inversePLayer_pLayer s : in_u64 s -> inversePLayer (pLayer s) = s.
Proof.
  intros Hs. unfold inversePLayer. rewrite for_up_run, idx_0_64.
  rewrite iperm_prefix by lia. change (64 - Z.of_nat 64) with 0.
  rewrite Z.shiftr_0_r. apply u64_small; exact Hs.
Qed.

(** *** The rounds *)

Lemma rd_range rk i : wf_keys rk -> in_u64 (rd rk i).
Proof.
  intros H. unfold rd. destruct (nth_in_or_default (Z.to_nat i) rk 0) as [Hin| ->].
  - unfold wf_keys in H. rewrite Forall_forall in H. apply H; exact Hin.
  - unfold in_u64. lia.
Qed.

Lemma upd_nat_range rk n v : wf_keys rk -> in_u64 v -> wf_keys (upd_nat rk n v).
Proof.
  unfold wf_keys. intros H Hv. revert n.
  induction H as [|a l Ha Hl IH]; intros n; cbn [upd_nat].
  - constructor.
  - destruct n; constructor; auto.
Qed.

Lemma upd_range rk i v : wf_keys rk -> in_u64 v -> wf_keys (upd rk i v).
Proof. apply upd_nat_range. Qed.

(** A decryption round under the next key undoes an encryption round. *)
Lemma dec_enc_round rk r s :
  wf_keys rk -> in_u64 s ->
  dec_round rk (r + 1) (Z.lxor (enc_round rk r s) (rd rk (r + 1)))
  = Z.lxor s (rd rk r).
Proof.
  intros Hrk Hs. unfold dec_round, enc_round. cbv zeta.
  rewrite lxor_cancel_r.
  rewrite inversePLayer_pLayer by apply sBoxLayer_range.
  apply inverseSBoxLayer_sBoxLayer.
  apply (lxor_bound 64); [lia | exact Hs | apply rd_range; exact Hrk].
Qed.

Lemma enc_round_range rk r s : in_u64 (enc_round rk r s).
Proof. apply pLayer_range. Qed.

(** The decryption loop over the successors of the encryption rounds, in
    reverse order, takes the state before the last key addition back to
    the state after the first one. *)
Lemma dec_enc_rounds rk n lo s :
  wf_keys rk -> in_u64 s ->
  run (dec_round rk) (rev (map (fun i => i + 1) (upfrom lo n)))
      (Z.lxor (run (enc_round rk) (upfrom lo n) s) (rd rk (lo + Z.of_nat n)))
  = Z.lxor s (rd rk lo).
Proof.
  intros Hrk. revert lo s. induction n as [|n IH]; intros lo s Hs.
  - cbn [upfrom map rev]. rewrite !run_nil. f_equal. f_equal. lia.
  - cbn [upfrom map rev]. rewrite run_app, run_cons, run_cons, run_nil.
    replace (lo + Z.of_nat (S n)) with (lo + 1 + Z.of_nat n) by lia.
    rewrite IH by apply enc_round_range.
    apply dec_enc_round; assumption.
Qed.

Lemma idx_enc : idx_up 0 NR_ROUNDS 1 = upfrom 0 31.
Proof. vm_compute. reflexivity. Qed.

Lemma idx_dec : idx_down NR_ROUNDS 1 1 = rev (map (fun i => i + 1) (upfrom 0 31)).
Proof. vm_compute. reflexivity. Qed.

Lemma enc_state_range rk l s : in_u64 s -> in_u64 (run (enc_round rk) l s).
Proof.
  intros Hs. apply (run_invariant (enc_round rk) in_u64 (fun _ => True)).
  - intros; apply enc_round_range.
  - apply Forall_forall; intros; exact I.
  - exact Hs.
Qed.

(** Round trip for a context whose round keys are [uint64_t] values. *)
Lemma present_roundtrip_ctx ctx b :
  wf_keys (roundKeys ctx) -> wf_block b ->
  PRESENT_decrypt ctx (PRESENT_encrypt ctx b) = b.
Proof.
  intros Hrk Hb. unfold PRESENT_decrypt, PRESENT_encrypt. cbv zeta.
  rewrite load_store.
  rewrite for_up_run, for_down_run, idx_enc, idx_dec.
  pose proof (load_block_range b Hb) as Hs.
  rewrite (u64_small (Z.lxor _ _)).
  - change NR_ROUNDS with (0 + Z.of_nat 31).
    rewrite dec_enc_rounds by assumption.
    rewrite lxor_cancel_r. apply store_load; exact Hb.
  - apply (lxor_bound 64); [lia | apply enc_state_range; exact Hs | apply rd_range; exact Hrk].
Qed.

(** *** The key schedule produces [uint64_t] round keys *)

Lemma lor64 a b : in_u64 a -> in_u64 b -> in_u64 (Z.lor a b).
Proof. apply (lor_bound 64). lia. Qed.

Lemma lxor64 a b : in_u64 a -> in_u64 b -> in_u64 (Z.lxor a b).
Proof. apply (lxor_bound 64). lia. Qed.

Lemma land64 a b : in_u64 a -> in_u64 (Z.land a b).
Proof. apply (land_bound 64). lia. Qed.

Lemma shiftr64 a s : 0 <= s -> in_u64 a -> in_u64 (Z.shiftr a s).
Proof. intros Hs. apply (shiftr_bound 64); lia. Qed.

Ltac range64 :=
  repeat match goal with
         | H : in_u64 ?x |- in_u64 ?x => exact H
         | |- in_u64 (u64 _) => apply u64_range
         | |- in_u64 (Z.lor _ _) => apply lor64
         | |- in_u64 (Z.lxor _ _) => apply lxor64
         | |- in_u64 (Z.land _ _) => apply land64
         | |- in_u64 (Z.shiftr _ _) => apply shiftr64; [lia|]
         end.

Lemma key_word_range key i : wf_key key -> in_u64 (rd key i).
Proof.
  intros H. unfold rd. destruct (nth_in_or_default (Z.to_nat i) key 0) as [Hin| ->].
  - unfold wf_key in H. rewrite Forall_forall in H. apply H in Hin.
    unfold in_u16 in Hin. unfold in_u64. lia.
  - unfold in_u64. lia.
Qed.

Lemma load64_range a b c d : in_u64 d -> in_u64 (load64 a b c d).
Proof. intros Hd. unfold load64. range64. Qed.

Lemma init80_body_inv i s : 0 <= i < 32 -> sched_inv s -> sched_inv (init80_body i s).
Proof.
  destruct s as [[kh kl] rk]. intros Hi (Hh & Hl & Hrk).
  unfold init80_body, sched_inv. cbv zeta.
  split; [range64|]. split; [range64|]. apply upd_range; [exact Hrk|]. range64.
Qed.

Lemma init128_body_inv i s : 0 <= i < 32 -> sched_inv s -> sched_inv (init128_body i s).
Proof.
  destruct s as [[kh kl] rk]. intros Hi (Hh & Hl & Hrk).
  assert (Hi64 : in_u64 i) by (unfold in_u64; lia).
  unfold init128_body, sched_inv. cbv zeta.
  split; [range64|]. split; [range64|]. apply upd_range; [exact Hrk|]. range64.
Qed.

Lemma idx_sched : idx_up 1 (NR_ROUNDS + 1) 1 = upfrom 1 31.
Proof. vm_compute. reflexivity. Qed.

Lemma upfrom_range lo n :
  Forall (fun i => lo <= i < lo + Z.of_nat n) (upfrom lo n).
Proof.
  revert lo. induction n as [|n IH]; intros lo; cbn [upfrom]; constructor.
  - lia.
  - eapply Forall_impl; [|apply IH]. cbv beta. intros a Ha. lia.
Qed.

Lemma sched_indices : Forall (fun i => 0 <= i < 32) (upfrom 1 31).
Proof.
  eapply Forall_impl; [|apply upfrom_range]. cbv beta. intros a Ha. lia.
Qed.

Lemma PRESENT_init_wf ctx key keyLen :
  wf_keys (roundKeys ctx) -> wf_key key ->
  wf_keys (roundKeys (PRESENT_init ctx key keyLen)).
Proof.
  intros Hctx Hkey. unfold PRESENT_init.
  destruct (keyLen =? 80); cbv zeta; rewrite for_up_run, idx_sched.
  - match goal with
    | |- context [run init80_body ?l ?s] =>
        assert (H : sched_inv (run init80_body l s))
    end.
    { apply (run_invariant init80_body sched_inv (fun i => 0 <= i < 32)).
      - apply init80_body_inv.
      - apply sched_indices.
      - unfold sched_inv. split; [apply key_word_range; exact Hkey|].
        split; [apply load64_range; apply key_word_range; exact Hkey|].
        apply upd_range; [exact Hctx|].
        pose proof (key_word_range key 4 Hkey). range64.
        apply load64_range. assumption. }
    destruct (run init80_body _ _) as [[kh kl] rk]. cbn [roundKeys].
    destruct H as (_ & _ & H). exact H.
  - match goal with
    | |- context [run init128_body ?l ?s] =>
        assert (H : sched_inv (run init128_body l s))
    end.
    { apply (run_invariant init128_body sched_inv (fun i => 0 <= i < 32)).
      - apply init128_body_inv.
      - apply sched_indices.
      - unfold sched_inv.
        split; [apply load64_range; apply key_word_range; exact Hkey|].
        split; [apply load64_range; apply key_word_range; exact Hkey|].
        apply upd_range; [exact Hctx|].
        apply load64_range; apply key_word_range; exact Hkey. }
    destruct (run init128_body _ _) as [[kh kl] rk]. cbn [roundKeys].
    destruct H as (_ & _ & H). exact H.
Qed.

Lemma PRESENT_init_else ctx key keyLen :
  keyLen <> 80 -> PRESENT_init ctx key keyLen = PRESENT_init ctx key 128.
Proof.
  intros H. unfold PRESENT_init. apply Z.eqb_neq in H. rewrite H.
  change (128 =? 80) with false. cbv beta iota. reflexivity.
Qed.

Lemma present_roundtrip_init ctx key keyLen b :
  wf_keys (roundKeys ctx) -> wf_key key -> wf_block b ->
  PRESENT_decrypt (PRESENT_init ctx key keyLen)
                  (PRESENT_encrypt (PRESENT_init ctx key keyLen) b) = b.
Proof.
  intros Hctx Hkey Hb. apply present_roundtrip_ctx; [|exact Hb].
  apply PRESENT_init_wf; assumption.
Qed.

Lemma blank_wf : wf_keys (roundKeys blank_context).
Proof.
  unfold blank_context, wf_keys; cbn [roundKeys]. apply Forall_forall.
  intros x Hx. apply repeat_spec in Hx. subst. unfold in_u64. lia.
Qed.

End PresentFacts.

(* ================================================================== *)
(** ** The properties of the specification *)
(* ================================================================== *)

Module Claims.
Import ARIA AriaAux AriaFacts Derive Vectors.

(** C1. Round trip: for ARIA (128-bit key), PRESENT (80- and 128-bit key)
    and SIMON (128-, 192- and 256-bit key), decrypting the encryption of
    any block under the schedule derived from the same key returns the
    block.  For ARIA the schedule is the global key arrays that
    [ARIA_encrypt] fills; keys, blocks and the round-key array of an
    incoming PRESENT context hold values of their C types. *)
Theorem roundtrip_all_ciphers :
  (forall g key p, wf128 key -> wf128 p ->
     snd (ARIA_decrypt (fst (ARIA_encrypt g p key)) (snd (ARIA_encrypt g p key)) key) = p)
  /\ (forall ctx key keyLen b,
        keyLen = 80 \/ keyLen = 128 ->
        PresentAux.wf_keys (PRESENT.roundKeys ctx) -> PresentAux.wf_key key ->
        PresentAux.wf_block b ->
        PRESENT.PRESENT_decrypt (PRESENT.PRESENT_init ctx key keyLen)
          (PRESENT.PRESENT_encrypt (PRESENT.PRESENT_init ctx key keyLen) b) = b)
  /\ (forall ctx key keyLen b,
        keyLen = 128 \/ keyLen = 192 \/ keyLen = 256 ->
        SIMON.SIMON_decrypt (SIMON.SIMON_init ctx key keyLen)
          (SIMON.SIMON_encrypt (SIMON.SIMON_init ctx key keyLen) b) = b).
Proof.
  split; [|split].
  - intros g key p Hk Hp. apply decrypt_after_encrypt; assumption.
  - intros ctx key keyLen b _ Hctx Hkey Hb. apply PresentFacts.present_roundtrip_init; assumption.
  - intros ctx key keyLen b H. apply SimonFacts.simon_roundtrip_init; exact H.
Qed.

Lemma wf_aria_key : wf128 aria_key.
Proof. unfold wf128, in_u32, aria_key; cbn [q0 q1 q2 q3]. lia. Defined.

Lemma wf_aria_text : wf128 aria_text.
Proof. unfold wf128, in_u32, aria_text; cbn [q0 q1 q2 q3]. lia. Defined.

Lemma wf_present_key : PresentAux.wf_key present_key.
Proof.
  unfold PresentAux.wf_key, present_key.
  repeat (constructor; [unfold in_u16; lia|]). constructor.
Defined.

Lemma wf_zero_block : PresentAux.wf_block (0, 0, 0, 0).
Proof. unfold PresentAux.wf_block, in_u16. lia. Defined.

Lemma roundtrip_all_ciphers_witness :
  (wf128 aria_key /\ wf128 aria_text /\
   snd (ARIA_decrypt (fst (ARIA_encrypt initial_globals aria_text aria_key))
                     (snd (ARIA_encrypt initial_globals aria_text aria_key)) aria_key)
   = aria_text)
  /\ ((80 = 80 \/ 80 = 128) /\
      PresentAux.wf_keys (PRESENT.roundKeys PRESENT.blank_context) /\
      PresentAux.wf_key present_key /\ PresentAux.wf_block (0, 0, 0, 0) /\
      PRESENT.PRESENT_decrypt (PRESENT.PRESENT_init PRESENT.blank_context present_key 80)
        (PRESENT.PRESENT_encrypt
           (PRESENT.PRESENT_init PRESENT.blank_context present_key 80) (0, 0, 0, 0))
      = (0, 0, 0, 0))
  /\ ((192 = 128 \/ 192 = 192 \/ 192 = 256) /\
      SIMON.SIMON_decrypt (SIMON.SIMON_init SIMON.blank_context simon_key192 192)
        (SIMON.SIMON_encrypt (SIMON.SIMON_init SIMON.blank_context simon_key192 192)
           simon_text128)
      = simon_text128).
Proof.
  destruct roundtrip_all_ciphers as (HA & HP & HS).
  split; [|split].
  - split; [exact wf_aria_key|]. split; [exact wf_aria_text|].
    apply HA; [exact wf_aria_key | exact wf_aria_text].
  - split; [left; reflexivity|]. split; [exact PresentFacts.blank_wf|].
    split; [exact wf_present_key|]. split; [exact wf_zero_block|].
    apply HP; [left; reflexivity | exact PresentFacts.blank_wf | exact wf_present_key
              | exact wf_zero_block].
  - split; [right; left; reflexivity|]. apply HS. right; left; reflexivity.
Defined.

(** C2. Determinism fails for [ARIA_decrypt]: two calls with the same
    block and the same key return different outputs when an
    [ARIA_encrypt] call under another key is interleaved, because the
    decryption keys come from the global [ek] arrays.  After
    [ARIA_encrypt(text, key)] the call [ARIA_decrypt(cipher, key)] returns
    [text]; after a further [ARIA_encrypt(text, 0)] the same call does not. *)
Theorem ARIA_decrypt_depends_on_interleaved_calls :
  let g1 := fst (ARIA_encrypt initial_globals aria_text aria_key) in
  let g2 := fst (ARIA_encrypt g1 aria_text zero128) in
  snd (ARIA_decrypt g1 aria_cipher aria_key) = aria_text
  /\ snd (ARIA_decrypt g2 aria_cipher aria_key) <> aria_text
  /\ snd (ARIA_decrypt g1 aria_cipher aria_key) <> snd (ARIA_decrypt g2 aria_cipher aria_key).
Proof.
  cbv zeta. split; [vm_compute; reflexivity|].
  split; vm_compute; intros H; discriminate H.
Qed.

(** C3, as the specification states it, fails: the 64-bit length for
    PRESENT and the 100-bit length for SIMON are accepted, and the
    schedule produced is the one of the 128-bit, respectively 256-bit,
    branch. *)
Lemma unsupported_length_is_accepted :
  PRESENT_derive PRESENT.blank_context present_key 64 <> InvalidKeySize
  /\ PRESENT_derive PRESENT.blank_context present_key 64
     = Schedule (PRESENT.PRESENT_init PRESENT.blank_context present_key 128)
  /\ SIMON_derive SIMON.blank_context simon_key128 100 <> InvalidKeySize
  /\ SIMON_derive SIMON.blank_context simon_key128 100
     = Schedule (SIMON.SIMON_init SIMON.blank_context simon_key128 256).
Proof.
  unfold PRESENT_derive, SIMON_derive.
  split; [intros H; discriminate H|]. split; [vm_compute; reflexivity|].
  split; [intros H; discriminate H|]. vm_compute; reflexivity.
Qed.

(** C3, amended. Deriving a schedule with an unsupported key length does
    not fail: the outcome is a schedule, the one [PRESENT_init] computes
    for a 128-bit key and [SIMON_init] for a 256-bit key from the same key
    array. *)
Theorem unsupported_length_yields_schedule :
  (forall ctx key keyLen,
      keyLen <> 80 -> keyLen <> 128 ->
      PRESENT_derive ctx key keyLen = Schedule (PRESENT.PRESENT_init ctx key 128))
  /\ (forall ctx key keyLen,
        keyLen <> 128 -> keyLen <> 192 -> keyLen <> 256 ->
        SIMON_derive ctx key keyLen = Schedule (SIMON.SIMON_init ctx key 256)).
Proof.
  unfold PRESENT_derive, SIMON_derive. split.
  - intros ctx key keyLen H _. f_equal. apply PresentFacts.PRESENT_init_else; exact H.
  - intros ctx key keyLen H1 H2 _. f_equal. apply SimonFacts.SIMON_init_else; assumption.
Qed.

Lemma unsupported_length_yields_schedule_witness :
  (64 <> 80 /\ 64 <> 128 /\
   PRESENT_derive PRESENT.blank_context present_key 64
   = Schedule (PRESENT.PRESENT_init PRESENT.blank_context present_key 128))
  /\ (100 <> 128 /\ 100 <> 192 /\ 100 <> 256 /\
      SIMON_derive SIMON.blank_context simon_key128 100
      = Schedule (SIMON.SIMON_init SIMON.blank_context simon_key128 256)).
Proof.
  destruct unsupported_length_yields_schedule as (HP & HS). split.
  - split; [lia|]. split; [lia|]. apply HP; lia.
  - split; [lia|]. split; [lia|]. split; [lia|]. apply HS; lia.
Defined.

(** C4. [ARIA_decrypt] does not depend on its key argument: from one
    global state, any two keys give the same output; the output is
    determined by the block and the global [ek] arrays alone (not by the
    [W] registers).  Hence it undoes the [ARIA_encrypt] call that last
    filled these arrays, whatever key it is passed, and does not undo an
    encryption when an [ARIA_encrypt] under another key came in between. *)
Theorem ARIA_decrypt_ignores_key :
  (forall g c k1 k2, snd (ARIA_decrypt g c k1) = snd (ARIA_decrypt g c k2))
  /\ (forall g g' c k k', ekeys g = ekeys g' ->
        snd (ARIA_decrypt g c k) = snd (ARIA_decrypt g' c k'))
  /\ (forall g p k k', wf128 k -> wf128 p ->
        snd (ARIA_decrypt (fst (ARIA_encrypt g p k)) (snd (ARIA_encrypt g p k)) k') = p)
  /\ (let g1 := fst (ARIA_encrypt initial_globals aria_text aria_key) in
      let g2 := fst (ARIA_encrypt g1 aria_text zero128) in
      snd (ARIA_encrypt initial_globals aria_text aria_key) = aria_cipher
      /\ snd (ARIA_decrypt g2 aria_cipher aria_key) <> aria_text).
Proof.
  split; [|split; [|split]].
  - intros g c k1 k2. rewrite !ARIA_decrypt_out. reflexivity.
  - intros g g' c k k' E. rewrite !ARIA_decrypt_out, E. reflexivity.
  - intros g p k k' Hk Hp. apply decrypt_after_encrypt; assumption.
  - cbv zeta. split; [vm_compute; reflexivity|].
    vm_compute; intros H; discriminate H.
Qed.

Lemma ARIA_decrypt_ignores_key_witness :
  wf128 aria_key /\ wf128 aria_text /\
  snd (ARIA_decrypt (fst (ARIA_encrypt initial_globals aria_text aria_key))
                    (snd (ARIA_encrypt initial_globals aria_text aria_key)) zero128)
  = aria_text.
Proof.
  split; [exact wf_aria_key|]. split; [exact wf_aria_text|].
  destruct ARIA_decrypt_ignores_key as (_ & _ & H & _).
  apply H; [exact wf_aria_key | exact wf_aria_text].
Defined.

(** C5. PRESENT with the 128-bit all-zero key maps the all-zero block to
    [04bdd5f4eaefcc19], for a context with its 32 round-key slots. *)
Theorem present128_known_answer :
  forall ctx, length (PRESENT.roundKeys ctx) = 32%nat ->
    PRESENT.PRESENT_encrypt (PRESENT.PRESENT_init ctx present_key 128) (0, 0, 0, 0)
    = (0x04bd, 0xd5f4, 0xeaef, 0xcc19).
Proof.
  intros [rk] H; cbn [PRESENT.roundKeys] in H.
  do 32 (destruct rk as [|? rk]; [discriminate H|]).
  destruct rk; [|discriminate H].
  vm_compute. reflexivity.
Qed.

Lemma present128_known_answer_witness :
  length (PRESENT.roundKeys PRESENT.blank_context) = 32%nat
  /\ PRESENT.PRESENT_encrypt
       (PRESENT.PRESENT_init PRESENT.blank_context present_key 128) (0, 0, 0, 0)
     = (0x04bd, 0xd5f4, 0xeaef, 0xcc19).
Proof.
  split; [reflexivity|]. apply present128_known_answer. reflexivity.
Defined.

(** C6. ARIA encryption of [00112233445566778899aabbccddeeff] under the
    key [000102030405060708090a0b0c0d0e0f] is
    [d718fbd6ab644c739da95f3be6451778], from any state of the globals. *)
Theorem aria_known_answer :
  forall g, snd (ARIA_encrypt g aria_text aria_key) = aria_cipher.
Proof. intros g. vm_compute. reflexivity. Qed.

(** C7. SIMON with the 128-bit key [0f0e0d0c0b0a0908 0706050403020100]
    maps [6373656420737265 6c6c657661727420] to
    [49681b1e1e54fe3f 65aa832af84e0bbc], for a context with its 72
    subkey slots. *)
Theorem simon128_known_answer :
  forall ctx, length (SIMON.subkeys ctx) = 72%nat ->
    SIMON.SIMON_encrypt (SIMON.SIMON_init ctx simon_key128 128) simon_text128
    = (0x49681b1e1e54fe3f, 0x65aa832af84e0bbc).
Proof.
  intros [n sk] H; cbn [SIMON.subkeys] in H.
  do 72 (destruct sk as [|? sk]; [discriminate H|]).
  destruct sk; [|discriminate H].
  vm_compute. reflexivity.
Qed.

Lemma simon128_known_answer_witness :
  length (SIMON.subkeys SIMON.blank_context) = 72%nat
  /\ SIMON.SIMON_encrypt (SIMON.SIMON_init SIMON.blank_context simon_key128 128)
       simon_text128
     = (0x49681b1e1e54fe3f, 0x65aa832af84e0bbc).
Proof.
  split; [reflexivity|]. apply simon128_known_answer. reflexivity.
Defined.

(** C8. The diffusion layer is an involution: [A (A x) = x] for every
    128-bit value [x]. *)
Theorem diffusion_involution : forall x, wf128 x -> A (A x) = x.
Proof. intros x Hx. apply A_invol; exact Hx. Qed.

Lemma diffusion_involution_witness :
  wf128 aria_text /\ A (A aria_text) = aria_text.
Proof.
  split; [exact wf_aria_text|]. apply diffusion_involution. exact wf_aria_text.
Defined.

(** C9. For every key, once [ARIA_encrypt] has derived the encryption
    keys and [ARIA_decrypt] the decryption keys, [dk1 = ek13],
    [dk13 = ek1] and [dk_i = A (ek_(14-i))] for [2 <= i <= 12]; the [ek]
    are still those derived from the key. *)
Theorem decryption_keys_from_encryption_keys :
  forall g p key c key' i,
    2 <= i <= 12 ->
    let g1 := fst (ARIA_encrypt g p key) in
    let g2 := fst (ARIA_decrypt g1 c key') in
    ekeys g2 = generateEncryptionKeys (setup key)
    /\ dkeys g2 = generateDecryptionKeys (generateEncryptionKeys (setup key))
    /\ dk (dkeys g2) 1 = ek (ekeys g2) 13
    /\ dk (dkeys g2) 13 = ek (ekeys g2) 1
    /\ dk (dkeys g2) i = A (ek (ekeys g2) (14 - i)).
Proof.
  intros g p key c key' i Hi. cbv zeta.
  rewrite ARIA_encrypt_eq. cbn [fst].
  unfold ARIA_decrypt. cbn [fst ekeys dkeys].
  set (e := generateEncryptionKeys (setup key)).
  split; [reflexivity|]. split; [reflexivity|].
  split; [apply wf128_MOV|]. split; [apply wf128_MOV|].
  assert (C : i = 2 \/ i = 3 \/ i = 4 \/ i = 5 \/ i = 6 \/ i = 7 \/ i = 8 \/ i = 9
              \/ i = 10 \/ i = 11 \/ i = 12) by lia.
  destruct C as [-> | [-> | [-> | [-> | [-> | [-> | [-> | [-> | [-> | [-> | ->]]]]]]]]]];
    reflexivity.
Qed.

Lemma decryption_keys_from_encryption_keys_witness :
  2 <= 5 <= 12 /\
  dk (dkeys (fst (ARIA_decrypt (fst (ARIA_encrypt initial_globals aria_text aria_key))
                               aria_cipher aria_key))) 5
  = A (ek (ekeys (fst (ARIA_decrypt (fst (ARIA_encrypt initial_globals aria_text aria_key))
                                    aria_cipher aria_key))) (14 - 5)).
Proof.
  split; [lia|].
  apply (decryption_keys_from_encryption_keys
           initial_globals aria_text aria_key aria_cipher aria_key 5).
  lia.
Defined.

(** C10. The key-length dispatch never rejects: every [keyLen] other
    than 80 runs the 128-bit branch of [PRESENT_init], every [keyLen]
    other than 128 and 192 runs the 256-bit branch of [SIMON_init], and
    the outcome is never the error. *)
Theorem key_length_dispatch_never_rejects :
  (forall ctx key keyLen,
      keyLen <> 80 ->
      PRESENT.PRESENT_init ctx key keyLen = PRESENT.PRESENT_init ctx key 128)
  /\ (forall ctx key keyLen,
        keyLen <> 128 -> keyLen <> 192 ->
        SIMON.SIMON_init ctx key keyLen = SIMON.SIMON_init ctx key 256
        /\ SIMON.nrSubkeys (SIMON.SIMON_init ctx key keyLen) = 72)
  /\ (forall ctx key keyLen, PRESENT_derive ctx key keyLen <> InvalidKeySize)
  /\ (forall ctx key keyLen, SIMON_derive ctx key keyLen <> InvalidKeySize).
Proof.
  split; [|split; [|split]].
  - intros ctx key keyLen H. apply PresentFacts.PRESENT_init_else; exact H.
  - intros ctx key keyLen H1 H2. split.
    + apply SimonFacts.SIMON_init_else; assumption.
    + rewrite SimonFacts.SIMON_init_else by assumption. apply SimonFacts.SIMON_init_256.
  - intros ctx key keyLen H. discriminate H.
  - intros ctx key keyLen H. discriminate H.
Qed.

Lemma key_length_dispatch_never_rejects_witness :
  (64 <> 80 /\
   PRESENT.PRESENT_init PRESENT.blank_context present_key 64
   = PRESENT.PRESENT_init PRESENT.blank_context present_key 128)
  /\ (100 <> 128 /\ 100 <> 192 /\
      SIMON.SIMON_init SIMON.blank_context simon_key128 100
      = SIMON.SIMON_init SIMON.blank_context simon_key128 256).
Proof.
  destruct key_length_dispatch_never_rejects as (HP & HS & _ & _). split.
  - split; [lia|]. apply HP; lia.
  - split; [lia|]. split; [lia|]. apply HS; lia.
Defined.

End Claims.

(* ================================================================== *)
(** ** Arrays updated in place *)
(* ================================================================== *)

Module ArrayFacts.
Import ArrayDefs.

Lemma length_upd_nat a n v : length (upd_nat a n v) = length a.
Proof.
  revert n. induction a as [|h t IH]; intros n; cbn [upd_nat].
  - reflexivity.
  - destruct n; cbn [length]; [reflexivity|]. rewrite IH. reflexivity.
Qed.

Lemma length_upd a i v : length (upd a i v) = length a.
Proof. apply length_upd_nat. Qed.

Lemma nth_upd_nat_same a n v : (n < length a)%nat -> nth n (upd_nat a n v) 0 = v.
Proof.
  revert n. induction a as [|h t IH]; intros n Hn; cbn [length] in Hn.
  - lia.
  - destruct n; cbn [upd_nat nth]; [reflexivity|]. apply IH. lia.
Qed.

Lemma nth_upd_nat_other a n m v : n <> m -> nth m (upd_nat a n v) 0 = nth m a 0.
Proof.
  revert n m. induction a as [|h t IH]; intros n m Hnm; cbn [upd_nat].
  - reflexivity.
  - destruct n, m; cbn [nth]; try reflexivity; try lia. apply IH. lia.
Qed.

Lemma rd_upd_same a i v : 0 <= i < Z.of_nat (length a) -> rd (upd a i v) i = v.
Proof. intros Hi. unfold rd, upd. apply nth_upd_nat_same. lia. Qed.

Lemma rd_upd_other a i j v : 0 <= i -> 0 <= j -> i <> j -> rd (upd a i v) j = rd a j.
Proof. intros Hi Hj Hij. unfold rd, upd. apply nth_upd_nat_other. lia. Qed.

(** Writing the entry [i] with the value of the equation extends the part
    of the array that satisfies the equation. *)
Lemma filled_step G lo i a :
  reads_below G lo -> 0 <= lo <= i -> i < Z.of_nat (length a) ->
  filled G lo i a -> filled G lo (i + 1) (upd a i (G a i)).
Proof.
  intros HG Hlo Hi Hf j Hj.
  assert (E : G (upd a i (G a i)) j = G a j).
  { apply HG; [lia|]. intros k Hk. apply rd_upd_other; lia. }
  rewrite E. destruct (Z.eq_dec j i) as [->|Hne].
  - apply rd_upd_same. lia.
  - rewrite rd_upd_other by lia. apply Hf. lia.
Qed.

(** An invariant indexed by the loop counter, over consecutive indices. *)
Lemma run_upfrom_inv {T : Type} (body : Z -> T -> T) (I : Z -> T -> Prop) n lo s :
  (forall i s, lo <= i < lo + Z.of_nat n -> I i s -> I (i + 1) (body i s)) ->
  I lo s -> I (lo + Z.of_nat n) (run body (upfrom lo n) s).
Proof.
  revert lo s. induction n as [|n IH]; intros lo s Hstep Hs.
  - cbn [upfrom]. rewrite run_nil. replace (lo + Z.of_nat 0) with lo by lia. exact Hs.
  - cbn [upfrom]. rewrite run_cons.
    replace (lo + Z.of_nat (S n)) with (lo + 1 + Z.of_nat n) by lia.
    apply IH.
    + intros i s' Hi. apply Hstep. lia.
    + apply Hstep; [lia | exact Hs].
Qed.

(** Two bodies that agree on the indices of the list run alike. *)
Lemma run_ext {T : Type} (body body' : Z -> T -> T) l s :
  (forall i s, In i l -> body i s = body' i s) -> run body l s = run body' l s.
Proof.
  revert s. induction l as [|a l IH]; intros s H.
  - reflexivity.
  - rewrite !run_cons. rewrite (H a s) by (left; reflexivity).
    apply IH. intros i s' Hi. apply H. right; exact Hi.
Qed.
(** Arrays of 64-bit words stay so when read and when written. *)
Lemma rd_u64 a i : Forall in_u64 a -> in_u64 (rd a i).
Proof. exact (PresentFacts.rd_range a i). Qed.

Lemma upd_u64 a i v : Forall in_u64 a -> in_u64 v -> Forall in_u64 (upd a i v).
Proof. exact (PresentFacts.upd_range a i v). Qed.
End ArrayFacts.

(* ================================================================== *)
(** ** More facts about ARIA.c *)
(* ================================================================== *)

Module AriaMore.
Import ARIA AriaAux AriaFacts AriaMoreDefs.







(** The rounds under the encryption keys undo the rounds under the
    reordered, diffused keys. *)
Lemma rounds_inverse_rev c k1 k2 k3 k4 k5 k6 k7 k8 k9 k10 k11 k12 k13 :
  wf128 c -> wf128 k2 -> wf128 k3 -> wf128 k4 -> wf128 k5 -> wf128 k6 ->
  wf128 k7 -> wf128 k8 -> wf128 k9 -> wf128 k10 -> wf128 k11 -> wf128 k12 ->
  wf128 k13 ->
  rounds (rounds c k13 (A k12) (A k11) (A k10) (A k9) (A k8) (A k7) (A k6) (A k5)
                 (A k4) (A k3) (A k2) k1)
         k1 k2 k3 k4 k5 k6 k7 k8 k9 k10 k11 k12 k13
  = c.
Proof.
  intros Hc H2 H3 H4 H5 H6 H7 H8 H9 H10 H11 H12 H13.
  pose proof (rounds_inverse c k13 (A k12) (A k11) (A k10) (A k9) (A k8) (A k7) (A k6)
                             (A k5) (A k4) (A k3) (A k2) k1) as E.
  rewrite !A_invol in E by wf_auto.
  apply E; wf_auto.
Qed.

Lemma ekeys_after_encrypt g p key :
  ekeys (fst (ARIA_encrypt g p key)) = generateEncryptionKeys (setup key).
Proof. rewrite ARIA_encrypt_eq. reflexivity. Qed.

Lemma encrypt_out g p key :
  snd (ARIA_encrypt g p key)
  = let e := generateEncryptionKeys (setup key) in
    rounds p (ek1 e) (ek2 e) (ek3 e) (ek4 e) (ek5 e) (ek6 e) (ek7 e)
           (ek8 e) (ek9 e) (ek10 e) (ek11 e) (ek12 e) (ek13 e).
Proof. rewrite ARIA_encrypt_eq. reflexivity. Qed.

Lemma wf_rounds b k1 k2 k3 k4 k5 k6 k7 k8 k9 k10 k11 k12 k13 :
  wf128 k13 -> wf128 (rounds b k1 k2 k3 k4 k5 k6 k7 k8 k9 k10 k11 k12 k13).
Proof. intros H. cbv beta zeta delta [rounds]. wf_auto. Qed.
End AriaMore.

(* ================================================================== *)
(** ** More facts about SIMON.c *)
(* ================================================================== *)

Module SimonMore.
Import SIMON SimonFacts SimonMoreDefs ArrayDefs ArrayFacts.

Lemma zbit128_loop j : 0 <= j < 64 -> Z.land (Z.shiftr z128 j) 1 = zbit z128 j.
Proof.
  intros Hj.
  assert (H : all_below 64 (fun j => Z.land (Z.shiftr z128 j) 1 =? zbit z128 j) = true)
    by (vm_compute; reflexivity).
  apply PresentFacts.all_below_spec with (i := j) in H; [|exact Hj].
  apply Z.eqb_eq; exact H.
Qed.

Lemma zbit192_loop j : 0 <= j < 64 -> Z.land (Z.shiftr z192 j) 1 = zbit z192 j.
Proof.
  intros Hj.
  assert (H : all_below 64 (fun j => Z.land (Z.shiftr z192 j) 1 =? zbit z192 j) = true)
    by (vm_compute; reflexivity).
  apply PresentFacts.all_below_spec with (i := j) in H; [|exact Hj].
  apply Z.eqb_eq; exact H.
Qed.

Lemma zbit256_loop j : 0 <= j < 64 -> Z.land (Z.shiftr z256 j) 1 = zbit z256 j.
Proof.
  intros Hj.
  assert (H : all_below 64 (fun j => Z.land (Z.shiftr z256 j) 1 =? zbit z256 j) = true)
    by (vm_compute; reflexivity).
  apply PresentFacts.all_below_spec with (i := j) in H; [|exact Hj].
  apply Z.eqb_eq; exact H.
Qed.

Lemma G128_below : reads_below G128 2.
Proof.
  intros a a' j Hj H. unfold G128. rewrite (H (j - 2)), (H (j - 1)) by lia. reflexivity.
Qed.

Lemma G192_below : reads_below G192 3.
Proof.
  intros a a' j Hj H. unfold G192. rewrite (H (j - 3)), (H (j - 1)) by lia. reflexivity.
Qed.

Lemma G256_below : reads_below G256 4.
Proof.
  intros a a' j Hj H. unfold G256.
  rewrite (H (j - 4)), (H (j - 1)), (H (j - 3)) by lia. reflexivity.
Qed.

Lemma arr_step G lo sk0 i sk v :
  reads_below G lo -> 0 <= lo <= i -> i < Z.of_nat (length sk0) ->
  v = G sk i ->
  arr_at G lo sk0 i sk -> arr_at G lo sk0 (i + 1) (upd sk i v).
Proof.
  intros HG Hlo Hi -> (Hlen & Hf & Hk). unfold arr_at.
  split; [rewrite length_upd; exact Hlen|]. split.
  - apply filled_step; try assumption. rewrite Hlen. exact Hi.
  - intros j Hj. rewrite rd_upd_other by lia. apply Hk. exact Hj.
Qed.

Lemma sched_start G z0 lo sk0 : sched_at G z0 lo sk0 lo (z0, sk0).
Proof.
  unfold sched_at, arr_at. replace (lo - lo) with 0 by lia. rewrite Z.shiftr_0_r.
  split; [reflexivity|]. split; [reflexivity|]. split; [|auto].
  intros j Hj. lia.
Qed.

Lemma sched_step G z0 lo sk0 i z sk v :
  reads_below G lo -> 0 <= lo <= i -> i < Z.of_nat (length sk0) ->
  v = G sk i ->
  sched_at G z0 lo sk0 i (z, sk) ->
  sched_at G z0 lo sk0 (i + 1) (Z.shiftr z 1, upd sk i v).
Proof.
  intros HG Hlo Hi Hv (Hz & Ha). unfold sched_at. split.
  - rewrite Hz, Z.shiftr_shiftr by lia. f_equal. lia.
  - apply arr_step; assumption.
Qed.

Lemma init128_body_step sk0 i s :
  2 <= i < 66 -> 66 <= Z.of_nat (length sk0) ->
  sched_at G128 z128 2 sk0 i s -> sched_at G128 z128 2 sk0 (i + 1) (init128_body i s).
Proof.
  intros Hi Hlen. destruct s as [z sk]. intros H. unfold init128_body.
  apply sched_step; [apply G128_below | lia | lia | | exact H].
  destruct H as (-> & _). unfold G128, next2.
  rewrite zbit128_loop by lia. reflexivity.
Qed.

Lemma init192_body_step sk0 i s :
  3 <= i < 67 -> 67 <= Z.of_nat (length sk0) ->
  sched_at G192 z192 3 sk0 i s -> sched_at G192 z192 3 sk0 (i + 1) (init192_body i s).
Proof.
  intros Hi Hlen. destruct s as [z sk]. intros H. unfold init192_body.
  apply sched_step; [apply G192_below | lia | lia | | exact H].
  destruct H as (-> & _). unfold G192, next2.
  rewrite zbit192_loop by lia. reflexivity.
Qed.

Lemma init256_body_step sk0 i s :
  4 <= i < 68 -> 68 <= Z.of_nat (length sk0) ->
  sched_at G256 z256 4 sk0 i s -> sched_at G256 z256 4 sk0 (i + 1) (init256_body i s).
Proof.
  intros Hi Hlen. destruct s as [z sk]. intros H. unfold init256_body.
  apply sched_step; [apply G256_below | lia | lia | | exact H].
  destruct H as (-> & _). unfold G256, next4.
  rewrite zbit256_loop by lia. reflexivity.
Qed.

Lemma idx_128 : idx_up 2 66 1 = upfrom 2 64.
Proof. vm_compute. reflexivity. Qed.

Lemma idx_192 : idx_up 3 67 1 = upfrom 3 64.
Proof. vm_compute. reflexivity. Qed.

Lemma idx_256 : idx_up 4 68 1 = upfrom 4 64.
Proof. vm_compute. reflexivity. Qed.

(** The schedule of a 128-bit key: the first two subkeys are the key words
    in reverse order and each later subkey, up to the last, satisfies the
    recurrence. *)
Lemma schedule_128 ctx key :
  68 <= Z.of_nat (length (subkeys ctx)) ->
  let sk := subkeys (SIMON_init ctx key 128) in
  length sk = length (subkeys ctx)
  /\ rd sk 0 = rd key 1 /\ rd sk 1 = rd key 0 /\ filled G128 2 68 sk.
Proof.
  intros Hlen. unfold SIMON_init. change (128 =? 128) with true. cbv beta iota zeta.
  rewrite for_up_run, idx_128. fold z128.
  set (sk0 := upd (upd (subkeys ctx) 0 (rd key 1)) 1 (rd key 0)).
  assert (L0 : length sk0 = length (subkeys ctx)) by (unfold sk0; rewrite !length_upd; reflexivity).
  pose proof (run_upfrom_inv init128_body (sched_at G128 z128 2 sk0) 64 2 (z128, sk0)) as H.
  change (2 + Z.of_nat 64) with 66 in H.
  specialize (H ltac:(intros i s Hi; apply init128_body_step; lia) (sched_start _ _ _ _)).
  destruct (run init128_body (upfrom 2 64) (z128, sk0)) as [z sk]. cbn [subkeys].
  destruct H as (_ & H).
  apply (arr_step G128 2 sk0 66 sk (tail2 (Z.lxor c 1) sk 64 65)) in H;
    [|apply G128_below | lia | lia | reflexivity].
  change (66 + 1) with 67 in H.
  set (sk1 := upd sk 66 (tail2 (Z.lxor c 1) sk 64 65)) in *.
  apply (arr_step G128 2 sk0 67 sk1 (tail2 c sk1 65 66)) in H;
    [|apply G128_below | lia | lia | reflexivity].
  change (67 + 1) with 68 in H.
  destruct H as (Hl & Hf & Hk).
  split; [rewrite Hl; exact L0|]. split; [|split; [|exact Hf]].
  - rewrite (Hk 0) by lia. unfold sk0. rewrite rd_upd_other by lia.
    apply rd_upd_same. lia.
  - rewrite (Hk 1) by lia. unfold sk0. apply rd_upd_same. rewrite length_upd. lia.
Qed.

Lemma schedule_192 ctx key :
  69 <= Z.of_nat (length (subkeys ctx)) ->
  let sk := subkeys (SIMON_init ctx key 192) in
  length sk = length (subkeys ctx)
  /\ rd sk 0 = rd key 2 /\ rd sk 1 = rd key 1 /\ rd sk 2 = rd key 0
  /\ filled G192 3 69 sk.
Proof.
  intros Hlen. unfold SIMON_init.
  change (192 =? 128) with false. change (192 =? 192) with true. cbv beta iota zeta.
  rewrite for_up_run, idx_192. fold z192.
  set (sk0 := upd (upd (upd (subkeys ctx) 0 (rd key 2)) 1 (rd key 1)) 2 (rd key 0)).
  assert (L0 : length sk0 = length (subkeys ctx)) by (unfold sk0; rewrite !length_upd; reflexivity).
  pose proof (run_upfrom_inv init192_body (sched_at G192 z192 3 sk0) 64 3 (z192, sk0)) as H.
  change (3 + Z.of_nat 64) with 67 in H.
  specialize (H ltac:(intros i s Hi; apply init192_body_step; lia) (sched_start _ _ _ _)).
  destruct (run init192_body (upfrom 3 64) (z192, sk0)) as [z sk]. cbn [subkeys].
  destruct H as (_ & H).
  apply (arr_step G192 3 sk0 67 sk (tail2 c sk 64 66)) in H;
    [|apply G192_below | lia | lia | reflexivity].
  change (67 + 1) with 68 in H.
  set (sk1 := upd sk 67 (tail2 c sk 64 66)) in *.
  apply (arr_step G192 3 sk0 68 sk1 (tail2 (Z.lxor c 1) sk1 65 67)) in H;
    [|apply G192_below | lia | lia | reflexivity].
  change (68 + 1) with 69 in H.
  destruct H as (Hl & Hf & Hk).
  split; [rewrite Hl; exact L0|]. split; [|split; [|split; [|exact Hf]]].
  - rewrite (Hk 0) by lia. unfold sk0. rewrite !rd_upd_other by lia.
    apply rd_upd_same. lia.
  - rewrite (Hk 1) by lia. unfold sk0. rewrite rd_upd_other by lia.
    apply rd_upd_same. rewrite length_upd. lia.
  - rewrite (Hk 2) by lia. unfold sk0. apply rd_upd_same. rewrite !length_upd. lia.
Qed.

Lemma schedule_256 ctx key :
  72 <= Z.of_nat (length (subkeys ctx)) ->
  let sk := subkeys (SIMON_init ctx key 256) in
  length sk = length (subkeys ctx)
  /\ rd sk 0 = rd key 3 /\ rd sk 1 = rd key 2 /\ rd sk 2 = rd key 1 /\ rd sk 3 = rd key 0
  /\ filled G256 4 72 sk.
Proof.
  intros Hlen. unfold SIMON_init.
  change (256 =? 128) with false. change (256 =? 192) with false. cbv beta iota zeta.
  rewrite for_up_run, idx_256. fold z256.
  set (sk0 := upd (upd (upd (upd (subkeys ctx) 0 (rd key 3)) 1 (rd key 2)) 2 (rd key 1))
                  3 (rd key 0)).
  assert (L0 : length sk0 = length (subkeys ctx)) by (unfold sk0; rewrite !length_upd; reflexivity).
  pose proof (run_upfrom_inv init256_body (sched_at G256 z256 4 sk0) 64 4 (z256, sk0)) as H.
  change (4 + Z.of_nat 64) with 68 in H.
  specialize (H ltac:(intros i s Hi; apply init256_body_step; lia) (sched_start _ _ _ _)).
  destruct (run init256_body (upfrom 4 64) (z256, sk0)) as [z sk]. cbn [subkeys].
  destruct H as (_ & H).
  apply (arr_step G256 4 sk0 68 sk (tail4 c sk 64 67 65)) in H;
    [|apply G256_below | lia | lia | reflexivity].
  change (68 + 1) with 69 in H.
  set (sk1 := upd sk 68 (tail4 c sk 64 67 65)) in *.
  apply (arr_step G256 4 sk0 69 sk1 (tail4 (Z.lxor c 1) sk1 65 68 66)) in H;
    [|apply G256_below | lia | lia | reflexivity].
  change (69 + 1) with 70 in H.
  set (sk2 := upd sk1 69 (tail4 (Z.lxor c 1) sk1 65 68 66)) in *.
  apply (arr_step G256 4 sk0 70 sk2 (tail4 c sk2 66 69 67)) in H;
    [|apply G256_below | lia | lia | reflexivity].
  change (70 + 1) with 71 in H.
  set (sk3 := upd sk2 70 (tail4 c sk2 66 69 67)) in *.
  apply (arr_step G256 4 sk0 71 sk3 (tail4 c sk3 67 70 68)) in H;
    [|apply G256_below | lia | lia | reflexivity].
  change (71 + 1) with 72 in H.
  destruct H as (Hl & Hf & Hk).
  split; [rewrite Hl; exact L0|]. split; [|split; [|split; [|split; [|exact Hf]]]].
  - rewrite (Hk 0) by lia. unfold sk0. rewrite !rd_upd_other by lia.
    apply rd_upd_same. lia.
  - rewrite (Hk 1) by lia. unfold sk0. rewrite !rd_upd_other by lia.
    apply rd_upd_same. rewrite length_upd. lia.
  - rewrite (Hk 2) by lia. unfold sk0. rewrite rd_upd_other by lia.
    apply rd_upd_same. rewrite !length_upd. lia.
  - rewrite (Hk 3) by lia. unfold sk0. apply rd_upd_same. rewrite !length_upd. lia.
Qed.

(** Two arrays that satisfy the same recurrence from the same first entries
    agree on every entry the recurrence reaches. *)
Lemma filled_unique G lo n a a' :
  reads_below G lo -> 0 <= lo ->
  filled G lo n a -> filled G lo n a' ->
  (forall j, 0 <= j < lo -> rd a j = rd a' j) ->
  forall j, 0 <= j < n -> rd a j = rd a' j.
Proof.
  intros HG Hlo Hf Hf' Hk.
  assert (H : forall m : nat, forall j, 0 <= j < Z.of_nat m -> j < n -> rd a j = rd a' j).
  { induction m as [|m IH]; intros j Hj Hn; [lia|].
    destruct (Z_lt_dec j lo) as [Hlt|Hge]; [apply Hk; lia|].
    rewrite (Hf j), (Hf' j) by lia. apply HG; [lia|].
    intros k Hk'. apply IH; lia. }
  intros j Hj. apply (H (Z.to_nat (j + 1))); lia.
Qed.

Lemma R2_rounds xy k l : R2 xy k l = round1 l (round1 k xy).
Proof. destruct xy as [x y]. reflexivity. Qed.

Lemma enc_body_rounds sk i xy :
  enc_body sk i xy = round1 (rd sk (i + 1)) (round1 (rd sk i) xy).
Proof. unfold enc_body. apply R2_rounds. Qed.

Lemma run_enc_rounds sk m lo xy :
  run (enc_body sk) (evens lo m) xy
  = run (fun i xy => round1 (rd sk i) xy) (upfrom lo (2 * m)) xy.
Proof.
  revert lo xy. induction m as [|m IH]; intros lo xy.
  - reflexivity.
  - replace (2 * S m)%nat with (S (S (2 * m))) by lia.
    cbn [evens upfrom]. rewrite !run_cons, enc_body_rounds.
    replace (lo + 1 + 1) with (lo + 2) by lia. apply IH.
Qed.

Lemma evens_68 : idx_up 0 68 2 = evens 0 34.
Proof. vm_compute. reflexivity. Qed.

Lemma evens_72 : idx_up 0 72 2 = evens 0 36.
Proof. vm_compute. reflexivity. Qed.

Lemma upfrom_snoc lo n : upfrom lo (S n) = upfrom lo n ++ [lo + Z.of_nat n].
Proof.
  revert lo. induction n as [|n IH]; intros lo.
  - cbn [upfrom app]. f_equal. lia.
  - change (upfrom lo (S (S n))) with (lo :: upfrom (lo + 1) (S n)).
    rewrite IH. cbn [upfrom app]. f_equal. f_equal. f_equal. lia.
Qed.

Lemma encrypt_as_rounds ctx b :
  nrSubkeys ctx = 68 \/ nrSubkeys ctx = 69 \/ nrSubkeys ctx = 72 ->
  SIMON_encrypt ctx b = rounds_upto (subkeys ctx) (Z.to_nat (nrSubkeys ctx)) b.
Proof.
  destruct ctx as [n sk]; cbn [nrSubkeys subkeys].
  intros [-> | [-> | ->]]; unfold SIMON_encrypt, rounds_upto; cbn [nrSubkeys subkeys].
  - change (68 =? 69) with false. cbv iota.
    rewrite for_up_run, evens_68, run_enc_rounds. reflexivity.
  - change (69 =? 69) with true. cbv iota.
    rewrite for_up_run, evens_68, run_enc_rounds.
    change (Z.to_nat 69) with (S 68). rewrite upfrom_snoc, run_app.
    change (2 * 34)%nat with 68%nat.
    destruct (run (fun i xy => round1 (rd sk i) xy) (upfrom 0 68) b) as [x y].
    reflexivity.
  - change (72 =? 69) with false. cbv iota.
    rewrite for_up_run, evens_72, run_enc_rounds. reflexivity.
Qed.

(** *** Encryption undoes decryption *)

Lemma enc_dec_body sk i xy : enc_body sk i (dec_body sk (i + 1) xy) = xy.
Proof.
  destruct xy as [x y]. unfold dec_body, enc_body.
  replace (i + 1 - 1) with i by lia.
  pose proof (R2_undo y x (rd sk (i + 1)) (rd sk i)) as E.
  destruct (R2 (y, x) (rd sk (i + 1)) (rd sk i)) as [y1 x1]; cbn [fst snd] in E.
  exact E.
Qed.

Lemma enc_dec_run sk l xy :
  run (enc_body sk) l (run (dec_body sk) (rev (map (fun i => i + 1) l)) xy) = xy.
Proof.
  revert xy. induction l as [|a l IH]; intros xy.
  - reflexivity.
  - cbn [map rev]. rewrite run_app, run_cons, run_cons, run_nil.
    rewrite enc_dec_body. apply IH.
Qed.

Lemma encrypt_decrypt_ctx ctx b :
  nrSubkeys ctx = 68 \/ nrSubkeys ctx = 69 \/ nrSubkeys ctx = 72 ->
  SIMON_encrypt ctx (SIMON_decrypt ctx b) = b.
Proof.
  destruct ctx as [n sk]; cbn [nrSubkeys]. destruct b as [x y].
  intros [-> | [-> | ->]]; unfold SIMON_encrypt, SIMON_decrypt; cbn [nrSubkeys subkeys].
  - change (68 =? 69) with false. cbv iota. change (68 - 1) with 67.
    rewrite for_up_run, for_down_run, idx_68. apply enc_dec_run.
  - change (69 =? 69) with true. cbv iota. cbv zeta.
    rewrite for_up_run, for_down_run, idx_68, enc_dec_run.
    rewrite lxor_cancel_r_l. reflexivity.
  - change (72 =? 69) with false. cbv iota. change (72 - 1) with 71.
    rewrite for_up_run, for_down_run, idx_72. apply enc_dec_run.
Qed.

(** *** Rotations and ranges *)

Ltac bitwise_rot64 n :=
  unfold u64; apply Z.bits_inj'; intros i Hi;
  assert (Hw : i < 64 \/ 64 <= i) by lia;
  assert (Hs : i < n \/ n <= i) by lia;
  assert (Ht : i < 64 - n \/ 64 - n <= i) by lia;
  destruct Hw as [Hw | Hw]; destruct Hs as [Hs | Hs]; destruct Ht as [Ht | Ht];
  try (exfalso; lia); repeat (progress (bit_push; bit_cmp)); bit_norm;
  try reflexivity; try btauto.

Lemma ROR_ROL_64 x n : 0 <= n <= 64 -> in_u64 x -> ROR_64 (ROL_64 x n) n = x.
Proof.
  intros Hn Hx. rewrite <- (u64_small x Hx). unfold ROR_64, ROL_64.
  bitwise_rot64 n.
Qed.

Lemma ROL_ROR_64 x n : 0 <= n <= 64 -> in_u64 x -> ROL_64 (ROR_64 x n) n = x.
Proof.
  intros Hn Hx. rewrite <- (u64_small x Hx). unfold ROR_64, ROL_64.
  bitwise_rot64 n.
Qed.

Lemma ROL_64_range x n : 0 <= n <= 64 -> in_u64 x -> in_u64 (ROL_64 x n).
Proof.
  intros Hn Hx. unfold ROL_64. apply PresentFacts.lor64; [apply u64_range|].
  apply PresentFacts.shiftr64; [lia | exact Hx].
Qed.

Lemma ROR_64_range x n : 0 <= n <= 64 -> in_u64 x -> in_u64 (ROR_64 x n).
Proof.
  intros Hn Hx. unfold ROR_64. apply PresentFacts.lor64; [|apply u64_range].
  apply PresentFacts.shiftr64; [lia | exact Hx].
Qed.

Lemma f_range x : in_u64 x -> in_u64 (f x).
Proof.
  intros Hx. unfold f. apply PresentFacts.lxor64.
  - apply PresentFacts.land64. apply ROL_64_range; [lia | exact Hx].
  - apply ROL_64_range; [lia | exact Hx].
Qed.

Ltac simon_range :=
  repeat match goal with
         | H : in_u64 ?x |- in_u64 ?x => exact H
         | |- in_u64 (u64 _) => apply u64_range
         | |- in_u64 (f _) => apply f_range
         | |- in_u64 (ROR_64 _ _) => apply ROR_64_range; [lia|]
         | |- in_u64 (ROL_64 _ _) => apply ROL_64_range; [lia|]
         | |- in_u64 (rd _ _) => apply rd_u64; assumption
         | |- in_u64 (Z.lor _ _) => apply PresentFacts.lor64
         | |- in_u64 (Z.lxor _ _) => apply PresentFacts.lxor64
         | |- in_u64 (Z.land _ _) => apply PresentFacts.land64
         | |- in_u64 (Z.shiftr _ _) => apply PresentFacts.shiftr64; [lia|]
         end.

Lemma c_range : in_u64 c.
Proof. unfold in_u64, c. lia. Qed.

Lemma c1_range : in_u64 (Z.lxor c 1).
Proof. change (Z.lxor c 1) with 0xfffffffffffffffd. unfold in_u64. lia. Qed.

Lemma R2_range x y k l :
  in_u64 x -> in_u64 y -> in_u64 k -> in_u64 l ->
  in_u64 (fst (R2 (x, y) k l)) /\ in_u64 (snd (R2 (x, y) k l)).
Proof.
  intros Hx Hy Hk Hl. unfold R2; cbn [fst snd]. cbv zeta.
  assert (H1 : in_u64 (Z.lxor (Z.lxor y (f x)) k)) by simon_range.
  split; [simon_range | exact H1].
Qed.

Lemma enc_body_range sk i xy :
  Forall in_u64 sk -> in_u64 (fst xy) /\ in_u64 (snd xy) ->
  in_u64 (fst (enc_body sk i xy)) /\ in_u64 (snd (enc_body sk i xy)).
Proof.
  intros Hsk (Hx & Hy). destruct xy as [x y]; cbn [fst snd] in *. unfold enc_body.
  apply R2_range; simon_range.
Qed.

Lemma dec_body_range sk i xy :
  Forall in_u64 sk -> in_u64 (fst xy) /\ in_u64 (snd xy) ->
  in_u64 (fst (dec_body sk i xy)) /\ in_u64 (snd (dec_body sk i xy)).
Proof.
  intros Hsk (Hx & Hy). destruct xy as [x y]; cbn [fst snd] in *. unfold dec_body.
  pose proof (R2_range y x (rd sk i) (rd sk (i - 1)) Hy Hx
                ltac:(simon_range) ltac:(simon_range)) as (H1 & H2).
  destruct (R2 (y, x) (rd sk i) (rd sk (i - 1))) as [y1 x1]; cbn [fst snd] in *.
  split; assumption.
Qed.

Lemma SIMON_encrypt_range ctx b :
  Forall in_u64 (subkeys ctx) -> in_u64 (fst b) /\ in_u64 (snd b) ->
  in_u64 (fst (SIMON_encrypt ctx b)) /\ in_u64 (snd (SIMON_encrypt ctx b)).
Proof.
  intros Hsk Hb. unfold SIMON_encrypt. cbv zeta.
  assert (R : forall l, in_u64 (fst (run (enc_body (subkeys ctx)) l b))
                        /\ in_u64 (snd (run (enc_body (subkeys ctx)) l b))).
  { intros l.
    apply (run_invariant (enc_body (subkeys ctx))
             (fun xy => in_u64 (fst xy) /\ in_u64 (snd xy)) (fun _ => True)).
    - intros i s _ Hs. apply enc_body_range; assumption.
    - apply Forall_forall; intros; exact I.
    - exact Hb. }
  destruct (nrSubkeys ctx =? 69); rewrite for_up_run.
  - specialize (R (idx_up 0 68 2)).
    destruct (run (enc_body (subkeys ctx)) (idx_up 0 68 2) b) as [x y].
    cbn [fst snd] in *. destruct R as [Hx Hy]. split; simon_range.
  - apply R.
Qed.

Lemma SIMON_decrypt_range ctx b :
  Forall in_u64 (subkeys ctx) -> in_u64 (fst b) /\ in_u64 (snd b) ->
  in_u64 (fst (SIMON_decrypt ctx b)) /\ in_u64 (snd (SIMON_decrypt ctx b)).
Proof.
  intros Hsk Hb. unfold SIMON_decrypt. destruct b as [x y]; cbn [fst snd] in Hb.
  destruct Hb as [Hx Hy]. cbv zeta.
  assert (R : forall l b, in_u64 (fst b) /\ in_u64 (snd b) ->
                          in_u64 (fst (run (dec_body (subkeys ctx)) l b))
                          /\ in_u64 (snd (run (dec_body (subkeys ctx)) l b))).
  { intros l b Hb.
    apply (run_invariant (dec_body (subkeys ctx))
             (fun xy => in_u64 (fst xy) /\ in_u64 (snd xy)) (fun _ => True)).
    - intros i s _ Hs. apply dec_body_range; assumption.
    - apply Forall_forall; intros; exact I.
    - exact Hb. }
  destruct (nrSubkeys ctx =? 69); rewrite for_down_run; apply R; cbn [fst snd];
    split; simon_range.
Qed.

Lemma init128_body_range i s : sched_range s -> sched_range (init128_body i s).
Proof.
  destruct s as [z sk]. intros (Hz & Hsk); cbn [fst snd] in *.
  unfold init128_body, sched_range; cbn [fst snd]. pose proof c_range.
  split; [simon_range|]. apply upd_u64; [exact Hsk|]. simon_range.
Qed.

Lemma init192_body_range i s : sched_range s -> sched_range (init192_body i s).
Proof.
  destruct s as [z sk]. intros (Hz & Hsk); cbn [fst snd] in *.
  unfold init192_body, sched_range; cbn [fst snd]. pose proof c_range.
  split; [simon_range|]. apply upd_u64; [exact Hsk|]. simon_range.
Qed.

Lemma init256_body_range i s : sched_range s -> sched_range (init256_body i s).
Proof.
  destruct s as [z sk]. intros (Hz & Hsk); cbn [fst snd] in *.
  unfold init256_body, sched_range; cbn [fst snd]. pose proof c_range.
  split; [simon_range|]. apply upd_u64; [exact Hsk|]. simon_range.
Qed.

Lemma tail2_range cb sk a b :
  in_u64 cb -> Forall in_u64 sk -> in_u64 (tail2 cb sk a b).
Proof. intros Hc Hsk. unfold tail2. simon_range. Qed.

Lemma tail4_range cb sk a b d :
  in_u64 cb -> Forall in_u64 sk -> in_u64 (tail4 cb sk a b d).
Proof. intros Hc Hsk. unfold tail4. simon_range. Qed.

Lemma key64_range key i : Forall in_u64 key -> in_u64 (rd key i).
Proof. apply rd_u64. Qed.

Ltac keys_ok :=
  repeat match goal with
         | H : Forall in_u64 ?a |- Forall in_u64 ?a => exact H
         | H : in_u64 ?x |- in_u64 ?x => exact H
         | H : forall i, in_u64 (rd ?k i) |- in_u64 (rd ?k _) => apply H
         | |- Forall in_u64 (upd _ _ _) => apply upd_u64
         | |- in_u64 (tail2 _ _ _ _) => apply tail2_range
         | |- in_u64 (tail4 _ _ _ _ _) => apply tail4_range
         end.

Lemma SIMON_init_range ctx key keyLen :
  Forall in_u64 (subkeys ctx) -> Forall in_u64 key ->
  Forall in_u64 (subkeys (SIMON_init ctx key keyLen)).
Proof.
  intros Hctx Hkey. unfold SIMON_init.
  pose proof c_range as Hc. pose proof c1_range as Hc1.
  assert (K : forall i, in_u64 (rd key i)) by (intros; apply key64_range; exact Hkey).
  destruct (keyLen =? 128); [|destruct (keyLen =? 192)]; cbv zeta; rewrite for_up_run.
  - match goal with
    | |- context [run init128_body ?l ?s] =>
        assert (H : sched_range (run init128_body l s))
    end.
    { apply (run_invariant init128_body sched_range (fun _ => True)).
      - intros i s _ Hs. apply init128_body_range; exact Hs.
      - apply Forall_forall; intros; exact I.
      - split; cbn [fst snd]; [unfold in_u64; lia | keys_ok]. }
    destruct (run init128_body _ _) as [z sk]. destruct H as [_ H]; cbn [snd] in H.
    cbn [subkeys]. keys_ok.
  - match goal with
    | |- context [run init192_body ?l ?s] =>
        assert (H : sched_range (run init192_body l s))
    end.
    { apply (run_invariant init192_body sched_range (fun _ => True)).
      - intros i s _ Hs. apply init192_body_range; exact Hs.
      - apply Forall_forall; intros; exact I.
      - split; cbn [fst snd]; [unfold in_u64; lia | keys_ok]. }
    destruct (run init192_body _ _) as [z sk]. destruct H as [_ H]; cbn [snd] in H.
    cbn [subkeys]. keys_ok.
  - match goal with
    | |- context [run init256_body ?l ?s] =>
        assert (H : sched_range (run init256_body l s))
    end.
    { apply (run_invariant init256_body sched_range (fun _ => True)).
      - intros i s _ Hs. apply init256_body_range; exact Hs.
      - apply Forall_forall; intros; exact I.
      - split; cbn [fst snd]; [unfold in_u64; lia | keys_ok]. }
    destruct (run init256_body _ _) as [z sk]. destruct H as [_ H]; cbn [snd] in H.
    cbn [subkeys]. keys_ok.
Qed.

Lemma SIMON_init_count ctx key keyLen :
  nrSubkeys (SIMON_init ctx key keyLen) = 68
  \/ nrSubkeys (SIMON_init ctx key keyLen) = 69
  \/ nrSubkeys (SIMON_init ctx key keyLen) = 72.
Proof.
  destruct (Z.eq_dec keyLen 128) as [->|H1]; [left; apply SIMON_init_128|].
  destruct (Z.eq_dec keyLen 192) as [->|H2]; [right; left; apply SIMON_init_192|].
  right; right. rewrite SIMON_init_else by assumption. apply SIMON_init_256.
Qed.

(** *** The schedule does not depend on the previous content of the context *)

Lemma rounds_upto_ext sk sk' n xy :
  (forall j, 0 <= j < Z.of_nat n -> rd sk j = rd sk' j) ->
  rounds_upto sk n xy = rounds_upto sk' n xy.
Proof.
  intros H. unfold rounds_upto. apply run_ext. intros i s Hi.
  pose proof (PresentFacts.upfrom_range 0 n) as R. rewrite Forall_forall in R.
  apply R in Hi. rewrite H by lia. reflexivity.
Qed.

Lemma schedule_agrees ctx ctx' key keyLen :
  length (subkeys ctx) = 72%nat -> length (subkeys ctx') = 72%nat ->
  nrSubkeys (SIMON_init ctx key keyLen) = nrSubkeys (SIMON_init ctx' key keyLen)
  /\ forall j, 0 <= j < nrSubkeys (SIMON_init ctx key keyLen) ->
       rd (subkeys (SIMON_init ctx key keyLen)) j
       = rd (subkeys (SIMON_init ctx' key keyLen)) j.
Proof.
  intros L L'.
  destruct (Z.eq_dec keyLen 128) as [->|H1]; [|destruct (Z.eq_dec keyLen 192) as [->|H2]].
  - rewrite !SIMON_init_128. split; [reflexivity|].
    pose proof (schedule_128 ctx key ltac:(lia)) as (_ & A0 & A1 & Af).
    pose proof (schedule_128 ctx' key ltac:(lia)) as (_ & B0 & B1 & Bf).
    apply (filled_unique G128 2 68); [apply G128_below | lia | exact Af | exact Bf |].
    intros j Hj. assert (C : j = 0 \/ j = 1) by lia. destruct C as [-> | ->]; congruence.
  - rewrite !SIMON_init_192. split; [reflexivity|].
    pose proof (schedule_192 ctx key ltac:(lia)) as (_ & A0 & A1 & A2 & Af).
    pose proof (schedule_192 ctx' key ltac:(lia)) as (_ & B0 & B1 & B2 & Bf).
    apply (filled_unique G192 3 69); [apply G192_below | lia | exact Af | exact Bf |].
    intros j Hj. assert (C : j = 0 \/ j = 1 \/ j = 2) by lia.
    destruct C as [-> | [-> | ->]]; congruence.
  - rewrite !(SIMON_init_else _ key keyLen) by assumption. rewrite !SIMON_init_256.
    split; [reflexivity|].
    pose proof (schedule_256 ctx key ltac:(lia)) as (_ & A0 & A1 & A2 & A3 & Af).
    pose proof (schedule_256 ctx' key ltac:(lia)) as (_ & B0 & B1 & B2 & B3 & Bf).
    apply (filled_unique G256 4 72); [apply G256_below | lia | exact Af | exact Bf |].
    intros j Hj. assert (C : j = 0 \/ j = 1 \/ j = 2 \/ j = 3) by lia.
    destruct C as [-> | [-> | [-> | ->]]]; congruence.
Qed.

Lemma encrypt_agrees ctx ctx' key keyLen b :
  length (subkeys ctx) = 72%nat -> length (subkeys ctx') = 72%nat ->
  SIMON_encrypt (SIMON_init ctx key keyLen) b = SIMON_encrypt (SIMON_init ctx' key keyLen) b.
Proof.
  intros L L'. destruct (schedule_agrees ctx ctx' key keyLen L L') as (En & Ek).
  rewrite !encrypt_as_rounds by apply SIMON_init_count.
  rewrite <- En. apply rounds_upto_ext. intros j Hj. apply Ek.
  destruct (SIMON_init_count ctx key keyLen) as [E | [E | E]]; rewrite E in *; lia.
Qed.
End SimonMore.

(* ================================================================== *)
(** ** More facts about PRESENT.c *)
(* ================================================================== *)

Module PresentMore.
Import PRESENT PresentAux PresentFacts ArrayDefs ArrayFacts PresentMoreDefs.

(** *** The substitution layers, the other way round *)

Lemma sub_byte_inverse' b : in_u8 b -> sub_byte sbox (sub_byte isbox b) = b.
Proof.
  intros Hb.
  assert (H : all_bytes (fun b => sub_byte sbox (sub_byte isbox b) =? b) = true)
    by (vm_compute; reflexivity).
  apply all_bytes_spec with (b := b) in H; [|exact Hb].
  apply Z.eqb_eq; exact H.
Qed.

Lemma sBoxLayer_inverseSBoxLayer s : in_u64 s -> sBoxLayer (inverseSBoxLayer s) = s.
Proof.
  intros Hs. unfold inverseSBoxLayer, sBoxLayer.
  rewrite (subst_layer_eq sbox). rewrite (subst_layer_eq isbox).
  set (B0 := sub_byte isbox (u8 (Z.shiftr s 56))).
  set (B1 := sub_byte isbox (u8 (Z.shiftr s 48))).
  set (B2 := sub_byte isbox (u8 (Z.shiftr s 40))).
  set (B3 := sub_byte isbox (u8 (Z.shiftr s 32))).
  set (B4 := sub_byte isbox (u8 (Z.shiftr s 24))).
  set (B5 := sub_byte isbox (u8 (Z.shiftr s 16))).
  set (B6 := sub_byte isbox (u8 (Z.shiftr s 8))).
  set (B7 := sub_byte isbox (u8 (Z.shiftr s 0))).
  pose proof (bytes_pack8 B0 B1 B2 B3 B4 B5 B6 B7) as E. cbv zeta in E.
  assert (R : forall t, u8 (sub_byte isbox (u8 t)) = sub_byte isbox (u8 t))
    by (intros t; apply u8_small, sub_byte_range, u8_range).
  unfold B0, B1, B2, B3, B4, B5, B6, B7 in E. rewrite !R in E.
  fold B0 B1 B2 B3 B4 B5 B6 B7 in E.
  destruct E as (E0 & E1 & E2 & E3 & E4 & E5 & E6 & E7).
  rewrite E0, E1, E2, E3, E4, E5, E6, E7.
  unfold B0, B1, B2, B3, B4, B5, B6, B7.
  rewrite !sub_byte_inverse' by apply u8_range.
  rewrite pack8_bytes. apply u64_small; exact Hs.
Qed.

(** *** The permutation layers, the other way round *)

Lemma testbit_high a n : in_u64 a -> 64 <= n -> Z.testbit a n = false.
Proof.
  intros Ha Hn. rewrite <- (u64_small a Ha). unfold u64.
  rewrite Z.testbit_mod_pow2 by lia. destruct (Z.ltb_spec n 64); [lia|reflexivity].
Qed.

Lemma one_range : in_u64 1.
Proof. unfold in_u64. lia. Qed.

Lemma iperm_body_range s i t : in_u64 (iperm_body s i t).
Proof.
  unfold iperm_body. cbv zeta. apply lor64; [apply u64_range|].
  rewrite Z.land_comm. apply land64. apply one_range.
Qed.

(** One step of the inverse permutation loop, bit by bit. *)
Lemma iperm_step_bit s d t j :
  0 <= d -> 0 <= j ->
  Z.testbit (Z.lor (u64 (Z.shiftl t 1)) (Z.land (Z.shiftr s d) 0x1)) j
  = if j =? 0 then Z.testbit s d else (j <? 64) && Z.testbit t (j - 1).
Proof.
  intros Hd Hj. unfold u64.
  change (Z.land (Z.shiftr s d) 0x1) with (Z.land (Z.shiftr s d) (Z.ones 1)).
  destruct (Z.eqb_spec j 0) as [->|Hne].
  - bit_push. bit_cmp. cbn [andb orb]. rewrite andb_true_r. f_equal.
  - assert (0 < j) by lia. bit_push. bit_cmp; cbn [andb orb];
      rewrite ?andb_false_r, ?orb_false_r; reflexivity.
Qed.

Lemma iperm_prefix_bits s k :
  (k <= 64)%nat ->
  forall j, 0 <= j < Z.of_nat k ->
    Z.testbit (run (iperm_body s) (map Z.of_nat (seq 0 k)) 0) j
    = Z.testbit s (63 - rd p (Z.of_nat k - 1 - j)).
Proof.
  induction k as [|k IH]; intros Hk j Hj; [lia|].
  rewrite seq_S, map_app, run_app. cbn [map Nat.add].
  rewrite run_cons, run_nil. unfold iperm_body at 1. cbv zeta.
  pose proof (p_range (Z.of_nat k) ltac:(lia)) as Hp.
  assert (E : u8 (63 - rd p (Z.of_nat k)) = 63 - rd p (Z.of_nat k))
    by (apply u8_small; unfold in_u8; lia).
  rewrite E, iperm_step_bit by lia.
  destruct (Z.eqb_spec j 0) as [->|Hne].
  - f_equal. f_equal. f_equal. lia.
  - destruct (Z.ltb_spec j 64); [|lia]. cbn [andb].
    rewrite IH by lia. f_equal. f_equal. f_equal. lia.
Qed.

(** [inversePLayer] fetches the bit [63 - k] from the position [63 - p[k]]. *)
Lemma inversePLayer_bit s k :
  0 <= k < 64 -> Z.testbit (inversePLayer s) (63 - k) = Z.testbit s (63 - rd p k).
Proof.
  intros Hk. unfold inversePLayer. rewrite for_up_run, idx_0_64.
  rewrite iperm_prefix_bits by lia. f_equal. f_equal. f_equal. lia.
Qed.

Lemma inversePLayer_range s : in_u64 (inversePLayer s).
Proof.
  unfold inversePLayer. rewrite for_up_run.
  rewrite idx_0_64. change 64%nat with (S 63). rewrite seq_S, map_app, run_app.
  cbn [map]. rewrite run_cons, run_nil. apply iperm_body_range.
Qed.

Lemma p_onto m : 0 <= m < 64 -> exists k, 0 <= k < 64 /\ rd p k = m.
Proof.
  intros Hm.
  assert (H : all_below 64 (fun m =>
                existsb (fun k => rd p k =? m) (map Z.of_nat (seq 0 64))) = true)
    by (vm_compute; reflexivity).
  apply all_below_spec with (i := m) in H; [|exact Hm].
  apply existsb_exists in H. destruct H as (k & Hin & Hk).
  exists k. split; [|apply Z.eqb_eq; exact Hk].
  pose proof (upto_range 64) as R. rewrite Forall_forall in R. apply R in Hin. lia.
Qed.

Lemma pLayer_inversePLayer s : in_u64 s -> pLayer (inversePLayer s) = s.
Proof.
  intros Hs. apply Z.bits_inj'; intros n Hn.
  destruct (Z_lt_dec n 64) as [Hlt|Hge].
  - destruct (p_onto (63 - n) ltac:(lia)) as (k & Hk & E).
    replace n with (63 - rd p k) by lia.
    rewrite pLayer_bit, inversePLayer_bit by lia. reflexivity.
  - assert (H64 : 64 <= n) by lia.
    rewrite (testbit_high s n Hs H64).
    apply testbit_high; [apply pLayer_range | exact H64].
Qed.

(** *** Encryption undoes decryption *)

Lemma dec_round_range rk r t : in_u64 (dec_round rk r t).
Proof. apply inverseSBoxLayer_range. Qed.

Lemma enc_dec_round rk r t :
  wf_keys rk -> in_u64 t ->
  enc_round rk r (Z.lxor (dec_round rk (r + 1) t) (rd rk r)) = Z.lxor t (rd rk (r + 1)).
Proof.
  intros Hrk Ht. unfold dec_round, enc_round. cbv zeta.
  rewrite lxor_cancel_r.
  rewrite sBoxLayer_inverseSBoxLayer by apply inversePLayer_range.
  apply pLayer_inversePLayer.
  apply lxor64; [exact Ht | apply rd_range; exact Hrk].
Qed.

Lemma dec_state_range rk l t : in_u64 t -> in_u64 (run (dec_round rk) l t).
Proof.
  intros Ht. apply (run_invariant (dec_round rk) in_u64 (fun _ => True)).
  - intros; apply dec_round_range.
  - apply Forall_forall; intros; exact I.
  - exact Ht.
Qed.

Lemma enc_dec_rounds rk n lo t :
  wf_keys rk -> in_u64 t ->
  run (enc_round rk) (upfrom lo n)
      (Z.lxor (run (dec_round rk) (rev (map (fun i => i + 1) (upfrom lo n))) t) (rd rk lo))
  = Z.lxor t (rd rk (lo + Z.of_nat n)).
Proof.
  intros Hrk. revert lo t. induction n as [|n IH]; intros lo t Ht.
  - cbn [upfrom map rev]. rewrite !run_nil. f_equal. f_equal. lia.
  - cbn [upfrom map rev]. rewrite run_app, run_cons, run_cons, run_nil.
    rewrite enc_dec_round by (try assumption; apply dec_state_range; exact Ht).
    rewrite IH by exact Ht. f_equal. f_equal. lia.
Qed.

Lemma present_encrypt_decrypt_ctx ctx b :
  wf_keys (roundKeys ctx) -> wf_block b ->
  PRESENT_encrypt ctx (PRESENT_decrypt ctx b) = b.
Proof.
  intros Hrk Hb. unfold PRESENT_decrypt, PRESENT_encrypt. cbv zeta.
  rewrite load_store.
  rewrite for_up_run, for_down_run, idx_enc, idx_dec.
  pose proof (load_block_range b Hb) as Hs.
  rewrite (u64_small (Z.lxor _ _)).
  - rewrite enc_dec_rounds by assumption.
    change (0 + Z.of_nat 31) with NR_ROUNDS.
    rewrite lxor_cancel_r. apply store_load; exact Hb.
  - apply lxor64; [apply dec_state_range; exact Hs | apply rd_range; exact Hrk].
Qed.

(** *** The schedule does not depend on the previous content of the context *)

Lemma run_pair_inv {T : Type} (body : Z -> T -> T) (R : Z -> T -> T -> Prop) n lo s s' :
  (forall i s s', lo <= i < lo + Z.of_nat n -> R i s s' -> R (i + 1) (body i s) (body i s')) ->
  R lo s s' ->
  R (lo + Z.of_nat n) (run body (upfrom lo n) s) (run body (upfrom lo n) s').
Proof.
  revert lo s s'. induction n as [|n IH]; intros lo s s' Hstep Hs.
  - cbn [upfrom]. rewrite !run_nil. replace (lo + Z.of_nat 0) with lo by lia. exact Hs.
  - cbn [upfrom]. rewrite !run_cons.
    replace (lo + Z.of_nat (S n)) with (lo + 1 + Z.of_nat n) by lia.
    apply IH.
    + intros i t t' Hi. apply Hstep. lia.
    + apply Hstep; [lia | exact Hs].
Qed.

Lemma upd_rel rk rk' i v :
  0 <= i < 32 ->
  length rk = 32%nat -> length rk' = 32%nat ->
  (forall j, 0 <= j < i -> rd rk j = rd rk' j) ->
  length (upd rk i v) = 32%nat /\ length (upd rk' i v) = 32%nat
  /\ forall j, 0 <= j < i + 1 -> rd (upd rk i v) j = rd (upd rk' i v) j.
Proof.
  intros Hi Hl Hl' Hj. rewrite !length_upd. split; [exact Hl|]. split; [exact Hl'|].
  intros j Hj'. destruct (Z.eq_dec j i) as [->|Hne].
  - rewrite !rd_upd_same by lia. reflexivity.
  - rewrite !rd_upd_other by lia. apply Hj. lia.
Qed.

Lemma init80_body_rel i s s' :
  0 <= i < 32 -> sched_rel i s s' -> sched_rel (i + 1) (init80_body i s) (init80_body i s').
Proof.
  destruct s as [[kh kl] rk], s' as [[kh' kl'] rk'].
  intros Hi (-> & -> & Hl & Hl' & Hj). unfold init80_body, sched_rel. cbv zeta.
  split; [reflexivity|]. split; [reflexivity|].
  match goal with
  | |- length (upd _ _ ?v) = _ /\ _ => exact (upd_rel rk rk' i v Hi Hl Hl' Hj)
  end.
Qed.

Lemma init128_body_rel i s s' :
  0 <= i < 32 -> sched_rel i s s' -> sched_rel (i + 1) (init128_body i s) (init128_body i s').
Proof.
  destruct s as [[kh kl] rk], s' as [[kh' kl'] rk'].
  intros Hi (-> & -> & Hl & Hl' & Hj). unfold init128_body, sched_rel. cbv zeta.
  split; [reflexivity|]. split; [reflexivity|].
  match goal with
  | |- length (upd _ _ ?v) = _ /\ _ => exact (upd_rel rk rk' i v Hi Hl Hl' Hj)
  end.
Qed.

Lemma list_rd_ext a b :
  length a = length b -> (forall j, 0 <= j < Z.of_nat (length a) -> rd a j = rd b j) ->
  a = b.
Proof.
  intros Hl H. apply (nth_ext a b 0 0 Hl). intros n Hn.
  specialize (H (Z.of_nat n) ltac:(lia)). unfold rd in H.
  rewrite Nat2Z.id in H. exact H.
Qed.

(** The loops of both branches, from two arrays of 32 entries that have
    just received the same first round key. *)
Lemma sched_loop_forgets body kh kl v a a' :
  (forall i s s', 0 <= i < 32 -> sched_rel i s s' -> sched_rel (i + 1) (body i s) (body i s')) ->
  length a = 32%nat -> length a' = 32%nat ->
  forall kh1 kl1 rk1 kh2 kl2 rk2,
    run body (upfrom 1 31) (kh, kl, upd a 0 v) = (kh1, kl1, rk1) ->
    run body (upfrom 1 31) (kh, kl, upd a' 0 v) = (kh2, kl2, rk2) ->
    rk1 = rk2.
Proof.
  intros Hbody L L' kh1 kl1 rk1 kh2 kl2 rk2 E1 E2.
  pose proof (run_pair_inv body sched_rel 31 1 (kh, kl, upd a 0 v) (kh, kl, upd a' 0 v)) as H.
  rewrite E1, E2 in H.
  assert (H1 : sched_rel 1 (kh, kl, upd a 0 v) (kh, kl, upd a' 0 v)).
  { unfold sched_rel. split; [reflexivity|]. split; [reflexivity|].
    rewrite !length_upd. split; [exact L|]. split; [exact L'|].
    intros j Hj. assert (j = 0) by lia. subst j.
    rewrite !rd_upd_same by lia. reflexivity. }
  specialize (H ltac:(intros i s s' Hi; apply Hbody; lia) H1).
  destruct H as (_ & _ & Hl & Hl' & Hj).
  apply list_rd_ext; [congruence|]. intros j Hj'. apply Hj.
  change (1 + Z.of_nat 31) with 32. lia.
Qed.

Lemma PRESENT_init_forgets ctx ctx' key keyLen :
  length (roundKeys ctx) = 32%nat -> length (roundKeys ctx') = 32%nat ->
  PRESENT_init ctx key keyLen = PRESENT_init ctx' key keyLen.
Proof.
  intros L L'. unfold PRESENT_init.
  destruct (keyLen =? 80); cbv zeta; rewrite !for_up_run, idx_sched.
  - destruct (run init80_body _ (_, _, upd (roundKeys ctx) 0 _)) as [[kh1 kl1] rk1] eqn:E1.
    destruct (run init80_body _ (_, _, upd (roundKeys ctx') 0 _)) as [[kh2 kl2] rk2] eqn:E2.
    f_equal.
    exact (sched_loop_forgets init80_body _ _ _ _ _ init80_body_rel L L'
             _ _ _ _ _ _ E1 E2).
  - destruct (run init128_body _ (_, _, upd (roundKeys ctx) 0 _)) as [[kh1 kl1] rk1] eqn:E1.
    destruct (run init128_body _ (_, _, upd (roundKeys ctx') 0 _)) as [[kh2 kl2] rk2] eqn:E2.
    f_equal.
    exact (sched_loop_forgets init128_body _ _ _ _ _ init128_body_rel L L'
             _ _ _ _ _ _ E1 E2).
Qed.
End PresentMore.

Module PresentSched.
Import PRESENT PresentAux PresentFacts ArrayDefs ArrayFacts PresentMore PresentMoreDefs.

Lemma sbox_range x : 0 <= rd sbox x < 2 ^ 4.
Proof.
  unfold rd. destruct (nth_in_or_default (Z.to_nat x) sbox 0) as [Hin| ->]; [|lia].
  revert Hin. generalize (nth (Z.to_nat x) sbox 0). intros v Hin.
  unfold sbox in Hin. cbn [In] in Hin.
  repeat (destruct Hin as [<-|Hin]; [lia|]). contradiction.
Qed.

Ltac regions n :=
  assert (Hr : n < 3 \/ 3 <= n < 12 \/ 12 <= n < 15 \/ 15 <= n < 16 \/ 16 <= n < 19
               \/ 19 <= n < 20 \/ 20 <= n < 45 \/ 45 <= n < 48 \/ 48 <= n < 61
               \/ 61 <= n < 64 \/ 64 <= n < 76 \/ 76 <= n < 80 \/ 80 <= n) by lia;
  destruct Hr as [Hr|[Hr|[Hr|[Hr|[Hr|[Hr|[Hr|[Hr|[Hr|[Hr|[Hr|[Hr|Hr]]]]]]]]]]]].

Ltac bits80 :=
  unfold u64, reg, rotl; apply Z.bits_inj'; intros n Hn; regions n;
  repeat (progress (bit_push; bit_cmp)); bit_norm; try reflexivity; try btauto.

Lemma idx80 kh kl :
  Z.land (Z.shiftr (Z.land (Z.shiftr (u64 kl) 3) 0xffff) 12) 0xf
  = Z.shiftr (rotl 80 (reg (u16 kh) (u64 kl)) 61) 76.
Proof.
  change 0xffff with (Z.ones 16). change 0xf with (Z.ones 4). unfold u16.
  bits80.
Qed.

Lemma step80_reg kh kl T i :
  reg (Z.lor (Z.land (Z.land (Z.shiftr (u64 kl) 3) (Z.ones 16)) (Z.ones 12))
             (u64 (Z.shiftl (T mod 2 ^ 4) 12)))
      (Z.lxor (Z.lor (Z.lor (u64 (Z.shiftl (u64 kl) 61)) (u64 (Z.shiftl (u16 kh) 45)))
                     (Z.shiftr (u64 kl) 19))
              (u64 (Z.shiftl (i mod 2 ^ 5) 15)))
  = Z.lxor (Z.lor (Z.land (rotl 80 (reg (u16 kh) (u64 kl)) 61) (Z.ones 76))
                  (Z.shiftl (T mod 2 ^ 4) 76))
           (Z.shiftl (i mod 2 ^ 5) 15).
Proof. unfold u16. bits80. Qed.

Lemma top64_reg80 kh kl :
  Z.lor (u64 (Z.shiftl (u16 kh) 48)) (Z.shiftr (u64 kl) 16)
  = Z.shiftr (reg (u16 kh) (u64 kl)) 16.
Proof. unfold u16. bits80. Qed.

Lemma shiftl_nibble_range T : 0 <= T < 2 ^ 4 -> in_u16 (u64 (Z.shiftl T 12)).
Proof.
  intros HT. unfold u64, in_u16. rewrite Z.shiftl_mul_pow2 by lia.
  rewrite Z.mod_small; lia.
Qed.

Lemma lor16 a b : in_u16 a -> in_u16 b -> in_u16 (Z.lor a b).
Proof. apply (lor_bound 16). lia. Qed.

Lemma land_ones16 a : in_u16 (Z.land a (Z.ones 16)).
Proof.
  rewrite Z.land_comm. apply (land_bound 16); [lia|]. unfold Z.ones. cbn. lia.
Qed.

(** One iteration of the 80-bit schedule loop on the key register. *)
Lemma init80_body_update i kh kl rk :
  in_u16 kh -> in_u64 kl -> 0 <= i < 32 ->
  exists kh' kl' rk',
    init80_body i (kh, kl, rk) = (kh', kl', rk')
    /\ in_u16 kh' /\ in_u64 kl'
    /\ reg kh' kl' = update80 i (reg kh kl)
    /\ rk' = upd rk i (Z.shiftr (reg kh' kl') 16).
Proof.
  intros Hh Hl Hi. unfold init80_body. cbv zeta.
  eexists; eexists; eexists. split; [reflexivity|].
  change 0xffff with (Z.ones 16). change 0x0fff with (Z.ones 12).
  set (T := rd sbox (Z.land (Z.shiftr (Z.land (Z.shiftr kl 3) (Z.ones 16)) 12) 0xf)).
  assert (HT : 0 <= T < 2 ^ 4) by apply sbox_range.
  assert (R1 : in_u16 (Z.lor (Z.land (Z.land (Z.shiftr kl 3) (Z.ones 16)) (Z.ones 12))
                             (u64 (Z.shiftl T 12)))).
  { apply lor16; [|apply shiftl_nibble_range; exact HT].
    apply (land_bound 16); [lia|]. apply land_ones16. }
  assert (R2 : in_u64 (Z.lxor (Z.lor (Z.lor (u64 (Z.shiftl kl 61)) (u64 (Z.shiftl kh 45)))
                                     (Z.shiftr kl 19)) (u64 (Z.shiftl i 15)))).
  { apply lxor64; [|apply u64_range]. apply lor64; [apply lor64; apply u64_range|].
    apply shiftr64; [lia | exact Hl]. }
  split; [exact R1|]. split; [exact R2|].
  assert (E : reg (Z.lor (Z.land (Z.land (Z.shiftr kl 3) (Z.ones 16)) (Z.ones 12))
                         (u64 (Z.shiftl T 12)))
                  (Z.lxor (Z.lor (Z.lor (u64 (Z.shiftl kl 61)) (u64 (Z.shiftl kh 45)))
                                 (Z.shiftr kl 19)) (u64 (Z.shiftl i 15)))
              = update80 i (reg kh kl)).
  { unfold update80. cbv zeta.
    pose proof (idx80 kh kl) as Ei. pose proof (step80_reg kh kl T i) as Es.
    change 0xffff with (Z.ones 16) in Ei.
    rewrite (u16_small kh Hh), (u64_small kl Hl) in Ei, Es.
    rewrite (Z.mod_small T) in Es by exact HT.
    rewrite (Z.mod_small i) in Es by lia.
    rewrite <- Ei. fold T. exact Es. }
  split; [exact E|].
  f_equal.
  pose proof (top64_reg80
                (Z.lor (Z.land (Z.land (Z.shiftr kl 3) (Z.ones 16)) (Z.ones 12))
                       (u64 (Z.shiftl T 12)))
                (Z.lxor (Z.lor (Z.lor (u64 (Z.shiftl kl 61)) (u64 (Z.shiftl kh 45)))
                               (Z.shiftr kl 19)) (u64 (Z.shiftl i 15)))) as Et.
  rewrite (u16_small _ R1), (u64_small _ R2) in Et. exact Et.
Qed.

(** *** The 128-bit branch *)

Ltac regions128 n :=
  assert (Hr : n < 3 \/ 3 <= n < 56 \/ 56 <= n < 60 \/ 60 <= n < 61 \/ 61 <= n < 62
               \/ 62 <= n < 64 \/ 64 <= n < 67 \/ 67 <= n < 120 \/ 120 <= n < 124
               \/ 124 <= n < 128 \/ 128 <= n) by lia;
  destruct Hr as [Hr|[Hr|[Hr|[Hr|[Hr|[Hr|[Hr|[Hr|[Hr|[Hr|Hr]]]]]]]]]].

Ltac bits128 :=
  unfold u64, reg, rotl; apply Z.bits_inj'; intros n Hn; regions128 n;
  repeat (progress (bit_push; bit_cmp)); bit_norm; try reflexivity; try btauto.

Lemma idx128_1 kh kl :
  Z.land (Z.shiftr (Z.lor (u64 (Z.shiftl (u64 kh) 61)) (Z.shiftr (u64 kl) 3)) 60) 0xf
  = Z.shiftr (rotl 128 (reg (u64 kh) (u64 kl)) 61) 124.
Proof. change 0xf with (Z.ones 4). bits128. Qed.

Lemma idx128_2 kh kl T :
  Z.land (Z.shiftr (Z.lor (Z.lor (u64 (Z.shiftl (u64 kh) 61)) (Z.shiftr (u64 kl) 3))
                          (u64 (Z.shiftl (T mod 2 ^ 4) 60))) 56) 0xf
  = Z.land (Z.shiftr (rotl 128 (reg (u64 kh) (u64 kl)) 61) 120) 0xf.
Proof. change 0xf with (Z.ones 4). bits128. Qed.

Lemma step128_reg kh kl T1 T2 i :
  reg (Z.lxor (Z.lor (Z.lor (Z.lor (u64 (Z.shiftl (u64 kh) 61)) (Z.shiftr (u64 kl) 3))
                            (u64 (Z.shiftl (T1 mod 2 ^ 4) 60)))
                     (u64 (Z.shiftl (T2 mod 2 ^ 4) 56)))
              (Z.shiftr (i mod 2 ^ 5) 2))
      (Z.lxor (Z.lor (u64 (Z.shiftl (u64 kl) 61)) (Z.shiftr (u64 kh) 3))
              (u64 (Z.shiftl (i mod 2 ^ 5) 62)))
  = Z.lxor (Z.lor (Z.lor (rotl 128 (reg (u64 kh) (u64 kl)) 61)
                         (Z.shiftl (T1 mod 2 ^ 4) 124))
                  (Z.shiftl (T2 mod 2 ^ 4) 120))
           (Z.shiftl (i mod 2 ^ 5) 62).
Proof. bits128. Qed.

Lemma top64_reg128 kh kl : u64 kh = Z.shiftr (reg (u64 kh) (u64 kl)) 64.
Proof. bits128. Qed.

Lemma init128_body_update i kh kl rk :
  in_u64 kh -> in_u64 kl -> 0 <= i < 32 ->
  exists kh' kl' rk',
    init128_body i (kh, kl, rk) = (kh', kl', rk')
    /\ in_u64 kh' /\ in_u64 kl'
    /\ reg kh' kl' = update128 i (reg kh kl)
    /\ rk' = upd rk i (Z.shiftr (reg kh' kl') 64).
Proof.
  intros Hh Hl Hi. unfold init128_body. cbv zeta.
  eexists; eexists; eexists. split; [reflexivity|].
  set (kh1 := Z.lor (u64 (Z.shiftl kh 61)) (Z.shiftr kl 3)).
  set (T1 := rd sbox (Z.land (Z.shiftr kh1 60) 0xf)).
  set (kh2 := Z.lor kh1 (u64 (Z.shiftl T1 60))).
  set (T2 := rd sbox (Z.land (Z.shiftr kh2 56) 0xf)).
  assert (HT1 : 0 <= T1 < 2 ^ 4) by apply sbox_range.
  assert (HT2 : 0 <= T2 < 2 ^ 4) by apply sbox_range.
  assert (Hi64 : in_u64 i) by (unfold in_u64; lia).
  assert (R1 : in_u64 (Z.lxor (Z.lor kh2 (u64 (Z.shiftl T2 56))) (Z.shiftr i 2))).
  { unfold kh2, kh1. apply lxor64; [|apply shiftr64; [lia | exact Hi64]].
    repeat apply lor64; try apply u64_range. apply shiftr64; [lia | exact Hl]. }
  assert (R2 : in_u64 (Z.lxor (Z.lor (u64 (Z.shiftl kl 61)) (Z.shiftr kh 3))
                              (u64 (Z.shiftl i 62)))).
  { apply lxor64; [|apply u64_range]. apply lor64; [apply u64_range|].
    apply shiftr64; [lia | exact Hh]. }
  split; [exact R1|]. split; [exact R2|].
  assert (E : reg (Z.lxor (Z.lor kh2 (u64 (Z.shiftl T2 56))) (Z.shiftr i 2))
                  (Z.lxor (Z.lor (u64 (Z.shiftl kl 61)) (Z.shiftr kh 3))
                          (u64 (Z.shiftl i 62)))
              = update128 i (reg kh kl)).
  { unfold update128. cbv zeta.
    pose proof (idx128_1 kh kl) as E1. pose proof (idx128_2 kh kl T1) as E2.
    pose proof (step128_reg kh kl T1 T2 i) as Es.
    rewrite (u64_small kh Hh), (u64_small kl Hl) in E1, E2, Es.
    rewrite (Z.mod_small T1) in E2, Es by exact HT1.
    rewrite (Z.mod_small T2) in Es by exact HT2.
    rewrite (Z.mod_small i) in Es by lia.
    fold kh1 in E1, E2, Es. fold kh2 in E2, Es.
    rewrite <- E1, <- E2. fold T1. fold T2. exact Es. }
  split; [exact E|].
  f_equal.
  pose proof (top64_reg128 (Z.lxor (Z.lor kh2 (u64 (Z.shiftl T2 56))) (Z.shiftr i 2))
                (Z.lxor (Z.lor (u64 (Z.shiftl kl 61)) (Z.shiftr kh 3))
                        (u64 (Z.shiftl i 62)))) as Et.
  rewrite (u64_small _ R1), (u64_small _ R2) in Et. exact Et.
Qed.

(** *** The round keys are the top of the registers *)

Section Refine.
Variable body : Z -> Z * Z * list Z -> Z * Z * list Z.
Variable update : Z -> Z -> Z.
Variable sh : Z.
Variable wfh : Z -> Prop.
Hypothesis body_update :
  forall i kh kl rk,
    wfh kh -> in_u64 kl -> 0 <= i < 32 ->
    exists kh' kl' rk',
      body i (kh, kl, rk) = (kh', kl', rk')
      /\ wfh kh' /\ in_u64 kl'
      /\ reg kh' kl' = update i (reg kh kl)
      /\ rk' = upd rk i (Z.shiftr (reg kh' kl') sh).

Lemma sched_spec_step K0 i s :
  1 <= i < 32 -> sched_spec update sh wfh K0 i s ->
  sched_spec update sh wfh K0 (i + 1) (body i s).
Proof.
  destruct s as [[kh kl] rk]. intros Hi (Hh & Hl & Hr & Hlen & Hj).
  destruct (body_update i kh kl rk Hh Hl ltac:(lia))
    as (kh' & kl' & rk' & -> & Hh' & Hl' & Hr' & ->).
  unfold sched_spec.
  assert (E : reg kh' kl' = regs update K0 (Z.to_nat i)).
  { rewrite Hr', Hr. replace (Z.to_nat i) with (S (Z.to_nat (i - 1))) by lia.
    cbn [regs]. f_equal. lia. }
  split; [exact Hh'|]. split; [exact Hl'|]. split.
  - replace (i + 1 - 1) with i by lia. exact E.
  - split; [rewrite length_upd; exact Hlen|].
    intros j Hj'. destruct (Z.eq_dec j i) as [->|Hne].
    + rewrite rd_upd_same by lia. rewrite E. reflexivity.
    + rewrite rd_upd_other by lia. apply Hj. lia.
Qed.

Lemma sched_spec_run kh0 kl0 rk0 :
  wfh kh0 -> in_u64 kl0 -> length rk0 = 32%nat ->
  sched_spec update sh wfh (reg kh0 kl0) 32
    (run body (upfrom 1 31) (kh0, kl0, upd rk0 0 (Z.shiftr (reg kh0 kl0) sh))).
Proof.
  intros Hh Hl Hlen.
  apply (run_upfrom_inv body (sched_spec update sh wfh (reg kh0 kl0)) 31 1).
  - intros i s Hi. apply sched_spec_step. lia.
  - unfold sched_spec. split; [exact Hh|]. split; [exact Hl|].
    split; [reflexivity|]. split; [rewrite length_upd; exact Hlen|].
    intros j Hj. assert (j = 0) by lia. subst j.
    rewrite rd_upd_same by lia. reflexivity.
Qed.
End Refine.

Lemma key_word16 key i : wf_key key -> in_u16 (rd key i).
Proof.
  intros H. unfold rd. destruct (nth_in_or_default (Z.to_nat i) key 0) as [Hin| ->].
  - unfold wf_key in H. rewrite Forall_forall in H. apply H; exact Hin.
  - unfold in_u16. lia.
Qed.

Lemma schedule80 ctx key r :
  length (roundKeys ctx) = 32%nat -> wf_key key -> 0 <= r < 32 ->
  rd (roundKeys (PRESENT_init ctx key 80)) r
  = Z.shiftr (regs update80 (key80 key) (Z.to_nat r)) 16.
Proof.
  intros L Hkey Hr. unfold PRESENT_init. change (80 =? 80) with true. cbv beta iota zeta.
  rewrite for_up_run, idx_sched.
  set (kh0 := rd key 0).
  set (kl0 := load64 (rd key 1) (rd key 2) (rd key 3) (rd key 4)).
  assert (Hh : in_u16 kh0) by (apply key_word16; exact Hkey).
  assert (Hl : in_u64 kl0) by (apply load64_range, key_word_range; exact Hkey).
  pose proof (top64_reg80 kh0 kl0) as Et.
  rewrite (u16_small kh0 Hh), (u64_small kl0 Hl) in Et. rewrite Et.
  pose proof (sched_spec_run init80_body update80 16 in_u16 init80_body_update
                kh0 kl0 (roundKeys ctx) Hh Hl L) as H.
  destruct (run init80_body (upfrom 1 31) _) as [[kh kl] rk]. cbn [roundKeys].
  destruct H as (_ & _ & _ & _ & H). apply H. lia.
Qed.

Lemma schedule128 ctx key keyLen r :
  keyLen <> 80 ->
  length (roundKeys ctx) = 32%nat -> wf_key key -> 0 <= r < 32 ->
  rd (roundKeys (PRESENT_init ctx key keyLen)) r
  = Z.shiftr (regs update128 (key128 key) (Z.to_nat r)) 64.
Proof.
  intros Hlen L Hkey Hr. rewrite PRESENT_init_else by exact Hlen.
  unfold PRESENT_init. change (128 =? 80) with false. cbv beta iota zeta.
  rewrite for_up_run, idx_sched.
  set (kh0 := load64 (rd key 0) (rd key 1) (rd key 2) (rd key 3)).
  set (kl0 := load64 (rd key 4) (rd key 5) (rd key 6) (rd key 7)).
  assert (Hh : in_u64 kh0) by (apply load64_range, key_word_range; exact Hkey).
  assert (Hl : in_u64 kl0) by (apply load64_range, key_word_range; exact Hkey).
  pose proof (top64_reg128 kh0 kl0) as Et.
  rewrite (u64_small kh0 Hh), (u64_small kl0 Hl) in Et. rewrite Et at 2.
  pose proof (sched_spec_run init128_body update128 64 in_u64 init128_body_update
                kh0 kl0 (roundKeys ctx) Hh Hl L) as H.
  destruct (run init128_body (upfrom 1 31) _) as [[kh kl] rk]. cbn [roundKeys].
  destruct H as (_ & _ & _ & _ & H). apply H. lia.
Qed.
End PresentSched.

Module PresentNibbles.
Import PRESENT PresentAux PresentFacts PresentMore.

Lemma nib_byte w m h :
  0 <= m -> h = 0 \/ h = 4 ->
  Z.land (Z.shiftr w (8 * m + h)) 0xf = Z.land (Z.shiftr (u8 (Z.shiftr w (8 * m))) h) 0xf.
Proof.
  intros Hm Hh. change 0xf with (Z.ones 4). unfold u8.
  apply Z.bits_inj'; intros n Hn.
  destruct Hh as [-> | ->]; repeat (progress (bit_push; bit_cmp)); bit_norm;
    try reflexivity; try btauto.
Qed.

Lemma byte_subst_layer tbl s m :
  (forall t, in_u8 (sub_byte tbl (u8 t))) -> 0 <= m < 8 ->
  u8 (Z.shiftr (for_up 0 8 1 (subst_body tbl s) 0) (8 * m))
  = sub_byte tbl (u8 (Z.shiftr s (8 * m))).
Proof.
  intros Htbl Hm. rewrite subst_layer_eq.
  pose proof (bytes_pack8 (sub_byte tbl (u8 (Z.shiftr s 56)))
                (sub_byte tbl (u8 (Z.shiftr s 48))) (sub_byte tbl (u8 (Z.shiftr s 40)))
                (sub_byte tbl (u8 (Z.shiftr s 32))) (sub_byte tbl (u8 (Z.shiftr s 24)))
                (sub_byte tbl (u8 (Z.shiftr s 16))) (sub_byte tbl (u8 (Z.shiftr s 8)))
                (sub_byte tbl (u8 (Z.shiftr s 0)))) as E.
  cbv zeta in E. rewrite !(u8_small (sub_byte tbl _)) in E by apply Htbl.
  destruct E as (E0 & E1 & E2 & E3 & E4 & E5 & E6 & E7).
  assert (C : m = 0 \/ m = 1 \/ m = 2 \/ m = 3 \/ m = 4 \/ m = 5 \/ m = 6 \/ m = 7) by lia.
  destruct C as [-> | [-> | [-> | [-> | [-> | [-> | [-> | ->]]]]]]]; assumption.
Qed.

Lemma nib_sub_byte b :
  in_u8 b ->
  Z.land (Z.shiftr (sub_byte sbox b) 4) 0xf = rd sbox (Z.land (Z.shiftr b 4) 0xf)
  /\ Z.land (Z.shiftr (sub_byte sbox b) 0) 0xf = rd sbox (Z.land (Z.shiftr b 0) 0xf)
  /\ Z.land (Z.shiftr (sub_byte isbox b) 4) 0xf = rd isbox (Z.land (Z.shiftr b 4) 0xf)
  /\ Z.land (Z.shiftr (sub_byte isbox b) 0) 0xf = rd isbox (Z.land (Z.shiftr b 0) 0xf).
Proof.
  intros Hb.
  assert (H : all_bytes (fun b =>
     (Z.land (Z.shiftr (sub_byte sbox b) 4) 0xf =? rd sbox (Z.land (Z.shiftr b 4) 0xf))
     && (Z.land (Z.shiftr (sub_byte sbox b) 0) 0xf =? rd sbox (Z.land (Z.shiftr b 0) 0xf))
     && (Z.land (Z.shiftr (sub_byte isbox b) 4) 0xf =? rd isbox (Z.land (Z.shiftr b 4) 0xf))
     && (Z.land (Z.shiftr (sub_byte isbox b) 0) 0xf =? rd isbox (Z.land (Z.shiftr b 0) 0xf)))
     = true) by (vm_compute; reflexivity).
  apply all_bytes_spec with (b := b) in H; [|exact Hb].
  apply andb_prop in H; destruct H as [H H4].
  apply andb_prop in H; destruct H as [H H3].
  apply andb_prop in H; destruct H as [H1 H2].
  rewrite Z.eqb_eq in H1, H2, H3, H4. auto.
Qed.

Lemma sbox_bytes_range t : in_u8 (sub_byte sbox (u8 t)).
Proof. apply sub_byte_range, u8_range. Qed.

Lemma isbox_bytes_range t : in_u8 (sub_byte isbox (u8 t)).
Proof. apply sub_byte_range, u8_range. Qed.

Lemma nibble_split j :
  0 <= j < 16 -> exists m h, 0 <= m < 8 /\ (h = 0 \/ h = 4) /\ 4 * j = 8 * m + h.
Proof.
  intros Hj. exists (j / 2), (4 * (j mod 2)).
  pose proof (Z.div_mod j 2 ltac:(lia)) as D.
  pose proof (Z.mod_pos_bound j 2 ltac:(lia)) as B.
  split; [split; [apply Z.div_pos; lia | apply Z.div_lt_upper_bound; lia]|].
  split; lia.
Qed.

Lemma sBoxLayer_nibble s j :
  0 <= j < 16 ->
  Z.land (Z.shiftr (sBoxLayer s) (4 * j)) 0xf = rd sbox (Z.land (Z.shiftr s (4 * j)) 0xf).
Proof.
  intros Hj. destruct (nibble_split j Hj) as (m & h & Hm & Hh & ->).
  rewrite !nib_byte by (lia || exact Hh). unfold sBoxLayer.
  rewrite byte_subst_layer by (apply sbox_bytes_range || exact Hm).
  destruct (nib_sub_byte (u8 (Z.shiftr s (8 * m))) (u8_range _)) as (E4 & E0 & _ & _).
  destruct Hh as [-> | ->]; assumption.
Qed.

Lemma inverseSBoxLayer_nibble s j :
  0 <= j < 16 ->
  Z.land (Z.shiftr (inverseSBoxLayer s) (4 * j)) 0xf
  = rd isbox (Z.land (Z.shiftr s (4 * j)) 0xf).
Proof.
  intros Hj. destruct (nibble_split j Hj) as (m & h & Hm & Hh & ->).
  rewrite !nib_byte by (lia || exact Hh). unfold inverseSBoxLayer.
  rewrite byte_subst_layer by (apply isbox_bytes_range || exact Hm).
  destruct (nib_sub_byte (u8 (Z.shiftr s (8 * m))) (u8_range _)) as (_ & _ & E4 & E0).
  destruct Hh as [-> | ->]; assumption.
Qed.
End PresentNibbles.

(* ================================================================== *)
(** ** Further properties of the code *)
(* ================================================================== *)

Module ExtrasAria.
Import ARIA AriaAux AriaFacts AriaMoreDefs AriaMore Vectors.

(** X1. The two substitution layers of ARIA undo each other, in both
    orders, on every 128-bit value. *)
Theorem ARIA_substitution_layers_inverse :
  forall x, wf128 x -> SL1 (SL2 x) = x /\ SL2 (SL1 x) = x.
Proof. intros x Hx. split; [apply SL1_SL2 | apply SL2_SL1]; exact Hx. Qed.

Lemma ARIA_substitution_layers_inverse_witness :
  wf128 aria_text /\ SL1 (SL2 aria_text) = aria_text /\ SL2 (SL1 aria_text) = aria_text.
Proof.
  split; [exact Claims.wf_aria_text|].
  apply ARIA_substitution_layers_inverse. exact Claims.wf_aria_text.
Defined.

(** X2. The diffusion layer is linear over xor, with no condition on the
    words: [A (x ^ y) = A x ^ A y]. *)
Theorem ARIA_diffusion_linear : forall x y, A (XOR_128 x y) = XOR_128 (A x) (A y).
Proof. intros x y. apply A_lxor. Qed.

(** X3. The round functions are invertible in the data: from [FO D RK]
    (resp. [FE D RK]) and the round key, diffusion, the other substitution
    layer and a key addition give [D] back. *)
Theorem ARIA_round_functions_invertible :
  forall D RK, wf128 D -> wf128 RK ->
    XOR_128 (SL2 (A (FO D RK))) RK = D /\ XOR_128 (SL1 (A (FE D RK))) RK = D.
Proof.
  intros D RK HD HK. split.
  - rewrite FO_eq, A_invol by wf_auto. rewrite SL2_SL1 by wf_auto. apply XOR_cancel.
  - rewrite FE_eq, A_invol by wf_auto. rewrite SL1_SL2 by wf_auto. apply XOR_cancel.
Qed.

Lemma ARIA_round_functions_invertible_witness :
  wf128 aria_text /\ wf128 aria_key /\
  XOR_128 (SL2 (A (FO aria_text aria_key))) aria_key = aria_text /\
  XOR_128 (SL1 (A (FE aria_text aria_key))) aria_key = aria_text.
Proof.
  split; [exact Claims.wf_aria_text|]. split; [exact Claims.wf_aria_key|].
  apply ARIA_round_functions_invertible; [exact Claims.wf_aria_text | exact Claims.wf_aria_key].
Defined.






(** X6. Encryption is also undone from the other side: when the global
    [ek] arrays hold the keys derived from [key], encrypting what
    [ARIA_decrypt] returned for a block gives the block back. *)
Theorem ARIA_encrypt_after_decrypt :
  forall g c key key',
    wf128 key -> wf128 c -> ekeys g = generateEncryptionKeys (setup key) ->
    snd (ARIA_encrypt (fst (ARIA_decrypt g c key')) (snd (ARIA_decrypt g c key')) key) = c.
Proof.
  intros g c key key' Hk Hc E.
  rewrite encrypt_out, ARIA_decrypt_out, E. cbv zeta.
  destruct (wf_generateEncryptionKeys (setup key) (wf_setup key Hk))
    as (H1 & H2 & H3 & H4 & H5 & H6 & H7 & H8 & H9 & H10 & H11 & H12 & H13).
  apply rounds_inverse_rev; wf_auto.
Qed.

Lemma ARIA_encrypt_after_decrypt_witness :
  wf128 aria_key /\ wf128 aria_cipher /\
  ekeys (fst (ARIA_encrypt initial_globals aria_text aria_key))
  = generateEncryptionKeys (setup aria_key) /\
  snd (ARIA_encrypt
         (fst (ARIA_decrypt (fst (ARIA_encrypt initial_globals aria_text aria_key))
                            aria_cipher zero128))
         (snd (ARIA_decrypt (fst (ARIA_encrypt initial_globals aria_text aria_key))
                            aria_cipher zero128))
         aria_key)
  = aria_cipher.
Proof.
  assert (Hc : wf128 aria_cipher)
    by (unfold wf128, in_u32, aria_cipher; cbn [q0 q1 q2 q3]; lia).
  split; [exact Claims.wf_aria_key|]. split; [exact Hc|].
  split; [apply ekeys_after_encrypt|].
  apply ARIA_encrypt_after_decrypt;
    [exact Claims.wf_aria_key | exact Hc | apply ekeys_after_encrypt].
Defined.

(** X7. Under one key, [ARIA_encrypt] maps different blocks to different
    blocks, whatever the globals held before each call. *)
Theorem ARIA_encrypt_injective :
  forall g g' key p1 p2,
    wf128 key -> wf128 p1 -> wf128 p2 ->
    snd (ARIA_encrypt g p1 key) = snd (ARIA_encrypt g' p2 key) -> p1 = p2.
Proof.
  intros g g' key p1 p2 Hk H1 H2 E.
  rewrite <- (decrypt_after_encrypt g p1 key key Hk H1).
  rewrite <- (decrypt_after_encrypt g' p2 key key Hk H2).
  rewrite !ARIA_decrypt_out, !ekeys_after_encrypt, E. reflexivity.
Qed.

Lemma ARIA_encrypt_injective_witness :
  wf128 aria_key /\ wf128 aria_text /\ wf128 aria_text /\
  (snd (ARIA_encrypt initial_globals aria_text aria_key)
   = snd (ARIA_encrypt initial_globals aria_text aria_key)) /\
  aria_text = aria_text.
Proof.
  split; [exact Claims.wf_aria_key|]. split; [exact Claims.wf_aria_text|].
  split; [exact Claims.wf_aria_text|]. split; [reflexivity|].
  apply (ARIA_encrypt_injective initial_globals initial_globals aria_key aria_text aria_text
           Claims.wf_aria_key Claims.wf_aria_text Claims.wf_aria_text).
  reflexivity.
Defined.

(** X8. For a key of 32-bit words, every register, every encryption key and
    the block [ARIA_encrypt] returns are made of 32-bit words, whatever the
    block passed and whatever the globals held. *)
Theorem ARIA_encrypt_keeps_words :
  forall g p key, wf128 key ->
    wf_regs (regs (fst (ARIA_encrypt g p key)))
    /\ wf_ekeys (ekeys (fst (ARIA_encrypt g p key)))
    /\ wf128 (snd (ARIA_encrypt g p key)).
Proof.
  intros g p key Hk. rewrite ARIA_encrypt_eq. cbn [fst snd regs ekeys]. cbv zeta.
  pose proof (wf_setup key Hk) as Hr.
  pose proof (wf_generateEncryptionKeys (setup key) Hr) as He.
  split; [exact Hr|]. split; [exact He|].
  apply wf_rounds. destruct He as (_ & _ & _ & _ & _ & _ & _ & _ & _ & _ & _ & _ & H).
  exact H.
Qed.

Lemma ARIA_encrypt_keeps_words_witness :
  wf128 aria_key /\
  wf128 (snd (ARIA_encrypt initial_globals aria_text aria_key)).
Proof.
  split; [exact Claims.wf_aria_key|].
  apply (ARIA_encrypt_keeps_words initial_globals aria_text aria_key Claims.wf_aria_key).
Defined.
End ExtrasAria.

Module ExtrasSimon.
Import SIMON SimonFacts SimonMoreDefs SimonMore ArrayDefs ArrayFacts Vectors.

(** X9. Under a schedule from [SIMON_init], whatever the key length,
    [SIMON_encrypt] is the Feistel round [(x, y) -> (y ^ f(x) ^ k, x)]
    applied once per subkey, in order: the two-round macro and the extra
    half round with swap of the 69-subkey case add up to [nrSubkeys]
    rounds. *)
Theorem SIMON_encrypt_iterates_round :
  forall ctx key keyLen b,
    SIMON_encrypt (SIMON_init ctx key keyLen) b
    = rounds_upto (subkeys (SIMON_init ctx key keyLen))
                  (Z.to_nat (nrSubkeys (SIMON_init ctx key keyLen))) b.
Proof. intros ctx key keyLen b. apply encrypt_as_rounds. apply SIMON_init_count. Qed.

(** X10. Under a schedule from [SIMON_init], whatever the key length,
    encrypting what [SIMON_decrypt] returned for a block gives the block
    back. *)
Theorem SIMON_encrypt_after_decrypt :
  forall ctx key keyLen b,
    SIMON_encrypt (SIMON_init ctx key keyLen) (SIMON_decrypt (SIMON_init ctx key keyLen) b)
    = b.
Proof. intros ctx key keyLen b. apply encrypt_decrypt_ctx. apply SIMON_init_count. Qed.

(** X11. The schedule of a 128-bit key, in a context of 72 slots: the first
    two subkeys are the key words in reverse order, and every later subkey
    up to the last one (index 67) is
    [c ^ z_bit ^ k[i-2] ^ ROR_64(k[i-1], 3) ^ ROR_64(k[i-1], 4)], where the
    bit is the bit [(i - 2) mod 62] of the constant: the two subkeys written
    after the loop continue the recurrence. *)
Theorem SIMON_schedule_128 :
  forall ctx key i,
    length (subkeys ctx) = 72%nat -> 2 <= i < 68 ->
    let sk := subkeys (SIMON_init ctx key 128) in
    nrSubkeys (SIMON_init ctx key 128) = 68
    /\ rd sk 0 = rd key 1 /\ rd sk 1 = rd key 0
    /\ rd sk i = next2 (zbit z128 (i - 2)) (rd sk (i - 2)) (rd sk (i - 1)).
Proof.
  intros ctx key i L Hi. cbv zeta.
  pose proof (schedule_128 ctx key ltac:(lia)) as (_ & H0 & H1 & Hf).
  split; [apply SIMON_init_128|]. split; [exact H0|]. split; [exact H1|].
  apply (Hf i). exact Hi.
Qed.

Lemma SIMON_schedule_128_witness :
  length (subkeys blank_context) = 72%nat /\ 2 <= 67 < 68 /\
  rd (subkeys (SIMON_init blank_context simon_key128 128)) 67
  = next2 (zbit z128 (67 - 2))
          (rd (subkeys (SIMON_init blank_context simon_key128 128)) (67 - 2))
          (rd (subkeys (SIMON_init blank_context simon_key128 128)) (67 - 1)).
Proof.
  split; [reflexivity|]. split; [lia|].
  apply (SIMON_schedule_128 blank_context simon_key128 67); [reflexivity | lia].
Defined.

(** X12. The schedule of a 192-bit key: the first three subkeys are the
    key words in reverse order, and every later subkey up to index 68 is
    [c ^ z_bit ^ k[i-3] ^ ROR_64(k[i-1], 3) ^ ROR_64(k[i-1], 4)] with the bit
    [(i - 3) mod 62] of the constant. *)
Theorem SIMON_schedule_192 :
  forall ctx key i,
    length (subkeys ctx) = 72%nat -> 3 <= i < 69 ->
    let sk := subkeys (SIMON_init ctx key 192) in
    nrSubkeys (SIMON_init ctx key 192) = 69
    /\ rd sk 0 = rd key 2 /\ rd sk 1 = rd key 1 /\ rd sk 2 = rd key 0
    /\ rd sk i = next2 (zbit z192 (i - 3)) (rd sk (i - 3)) (rd sk (i - 1)).
Proof.
  intros ctx key i L Hi. cbv zeta.
  pose proof (schedule_192 ctx key ltac:(lia)) as (_ & H0 & H1 & H2 & Hf).
  split; [apply SIMON_init_192|]. split; [exact H0|]. split; [exact H1|].
  split; [exact H2|]. apply (Hf i). exact Hi.
Qed.

Lemma SIMON_schedule_192_witness :
  length (subkeys blank_context) = 72%nat /\ 3 <= 68 < 69 /\
  rd (subkeys (SIMON_init blank_context simon_key192 192)) 68
  = next2 (zbit z192 (68 - 3))
          (rd (subkeys (SIMON_init blank_context simon_key192 192)) (68 - 3))
          (rd (subkeys (SIMON_init blank_context simon_key192 192)) (68 - 1)).
Proof.
  split; [reflexivity|]. split; [lia|].
  apply (SIMON_schedule_192 blank_context simon_key192 68); [reflexivity | lia].
Defined.

(** X13. The schedule of a 256-bit key (the branch every other key length
    takes): the first four subkeys are the key words in reverse order, and
    every later subkey up to index 71 is
    [c ^ z_bit ^ k[i-4] ^ ROR_64(k[i-1], 3) ^ k[i-3] ^ ROR_64(k[i-1], 4)
     ^ ROR_64(k[i-3], 1)] with the bit [(i - 4) mod 62] of the constant. *)
Theorem SIMON_schedule_256 :
  forall ctx key i,
    length (subkeys ctx) = 72%nat -> 4 <= i < 72 ->
    let sk := subkeys (SIMON_init ctx key 256) in
    nrSubkeys (SIMON_init ctx key 256) = 72
    /\ rd sk 0 = rd key 3 /\ rd sk 1 = rd key 2 /\ rd sk 2 = rd key 1
    /\ rd sk 3 = rd key 0
    /\ rd sk i = next4 (zbit z256 (i - 4)) (rd sk (i - 4)) (rd sk (i - 1)) (rd sk (i - 3)).
Proof.
  intros ctx key i L Hi. cbv zeta.
  pose proof (schedule_256 ctx key ltac:(lia)) as (_ & H0 & H1 & H2 & H3 & Hf).
  split; [apply SIMON_init_256|]. split; [exact H0|]. split; [exact H1|].
  split; [exact H2|]. split; [exact H3|]. apply (Hf i). exact Hi.
Qed.

Lemma SIMON_schedule_256_witness :
  length (subkeys blank_context) = 72%nat /\ 4 <= 71 < 72 /\
  rd (subkeys (SIMON_init blank_context simon_key192 256)) 71
  = next4 (zbit z256 (71 - 4))
          (rd (subkeys (SIMON_init blank_context simon_key192 256)) (71 - 4))
          (rd (subkeys (SIMON_init blank_context simon_key192 256)) (71 - 1))
          (rd (subkeys (SIMON_init blank_context simon_key192 256)) (71 - 3)).
Proof.
  split; [reflexivity|]. split; [lia|].
  apply (SIMON_schedule_256 blank_context simon_key192 71); [reflexivity | lia].
Defined.

(** X14. What a context of 72 slots held before [SIMON_init] has no effect
    on encryption and decryption under the schedule: the subkeys that are
    read are all written by [SIMON_init]. *)
Theorem SIMON_schedule_forgets_context :
  forall ctx ctx' key keyLen b,
    length (subkeys ctx) = 72%nat -> length (subkeys ctx') = 72%nat ->
    SIMON_encrypt (SIMON_init ctx key keyLen) b = SIMON_encrypt (SIMON_init ctx' key keyLen) b
    /\ SIMON_decrypt (SIMON_init ctx key keyLen) b
       = SIMON_decrypt (SIMON_init ctx' key keyLen) b.
Proof.
  intros ctx ctx' key keyLen b L L'.
  split; [apply encrypt_agrees; assumption|].
  rewrite <- (encrypt_decrypt_ctx (SIMON_init ctx' key keyLen) b) at 1
    by apply SIMON_init_count.
  rewrite <- (encrypt_agrees ctx ctx') by assumption.
  apply simon_roundtrip_ctx. apply SIMON_init_count.
Qed.

Lemma SIMON_schedule_forgets_context_witness :
  length (subkeys blank_context) = 72%nat
  /\ length (subkeys (SIMON_init blank_context simon_key192 256)) = 72%nat
  /\ SIMON_encrypt (SIMON_init blank_context simon_key128 128) simon_text128
     = SIMON_encrypt
         (SIMON_init (SIMON_init blank_context simon_key192 256) simon_key128 128)
         simon_text128.
Proof.
  assert (L : length (subkeys (SIMON_init blank_context simon_key192 256)) = 72%nat)
    by (vm_compute; reflexivity).
  split; [reflexivity|]. split; [exact L|].
  apply (SIMON_schedule_forgets_context blank_context
           (SIMON_init blank_context simon_key192 256) simon_key128 128 simon_text128
           eq_refl L).
Defined.

(** X15. On 64-bit words and for a count from 0 to 64, [ROL_64] and
    [ROR_64] undo each other. *)
Theorem SIMON_rotations_inverse :
  forall x n, 0 <= n <= 64 -> in_u64 x ->
    ROR_64 (ROL_64 x n) n = x /\ ROL_64 (ROR_64 x n) n = x.
Proof.
  intros x n Hn Hx. split; [apply ROR_ROL_64 | apply ROL_ROR_64]; assumption.
Qed.

Lemma SIMON_rotations_inverse_witness :
  0 <= 3 <= 64 /\ in_u64 0x0706050403020100 /\
  ROR_64 (ROL_64 0x0706050403020100 3) 3 = 0x0706050403020100.
Proof.
  assert (H : in_u64 0x0706050403020100) by (unfold in_u64; lia).
  split; [lia|]. split; [exact H|].
  apply (SIMON_rotations_inverse 0x0706050403020100 3); [lia | exact H].
Defined.

(** X16. 64-bit words stay 64-bit words: from a context and a key of
    64-bit words [SIMON_init] fills the context with 64-bit subkeys, and
    under such a context [SIMON_encrypt] and [SIMON_decrypt] map a block of
    64-bit words to a block of 64-bit words. *)
Theorem SIMON_keeps_words :
  forall ctx key keyLen b,
    Forall in_u64 (subkeys ctx) -> Forall in_u64 key ->
    in_u64 (fst b) /\ in_u64 (snd b) ->
    Forall in_u64 (subkeys (SIMON_init ctx key keyLen))
    /\ (in_u64 (fst (SIMON_encrypt (SIMON_init ctx key keyLen) b))
        /\ in_u64 (snd (SIMON_encrypt (SIMON_init ctx key keyLen) b)))
    /\ (in_u64 (fst (SIMON_decrypt (SIMON_init ctx key keyLen) b))
        /\ in_u64 (snd (SIMON_decrypt (SIMON_init ctx key keyLen) b))).
Proof.
  intros ctx key keyLen b Hctx Hkey Hb.
  pose proof (SIMON_init_range ctx key keyLen Hctx Hkey) as H.
  split; [exact H|]. split.
  - apply SIMON_encrypt_range; assumption.
  - apply SIMON_decrypt_range; assumption.
Qed.

Lemma blank_u64 : Forall in_u64 (subkeys blank_context).
Proof.
  unfold blank_context; cbn [subkeys]. apply Forall_forall.
  intros x Hx. apply repeat_spec in Hx. subst. unfold in_u64. lia.
Defined.

Lemma key128_u64 : Forall in_u64 simon_key128.
Proof.
  unfold simon_key128. repeat (constructor; [unfold in_u64; lia|]). constructor.
Defined.

Lemma text128_u64 : in_u64 (fst simon_text128) /\ in_u64 (snd simon_text128).
Proof. unfold simon_text128, in_u64; cbn [fst snd]. lia. Defined.

Lemma SIMON_keeps_words_witness :
  Forall in_u64 (subkeys blank_context) /\ Forall in_u64 simon_key128 /\
  (in_u64 (fst simon_text128) /\ in_u64 (snd simon_text128)) /\
  Forall in_u64 (subkeys (SIMON_init blank_context simon_key128 128)).
Proof.
  split; [exact blank_u64|]. split; [exact key128_u64|]. split; [exact text128_u64|].
  apply (SIMON_keeps_words blank_context simon_key128 128 simon_text128
           blank_u64 key128_u64 text128_u64).
Defined.
End ExtrasSimon.

Module ExtrasPresent.
Import PRESENT PresentAux PresentFacts PresentMore PresentMoreDefs PresentSched
       PresentNibbles Vectors.

Lemma word_u64 : in_u64 0x0123456789abcdef.
Proof. unfold in_u64. lia. Defined.

(** X17. On 64-bit states the two substitution layers of PRESENT undo each
    other, in both orders. *)
Theorem PRESENT_substitution_layers_inverse :
  forall s, in_u64 s ->
    inverseSBoxLayer (sBoxLayer s) = s /\ sBoxLayer (inverseSBoxLayer s) = s.
Proof.
  intros s Hs. split;
    [apply inverseSBoxLayer_sBoxLayer | apply sBoxLayer_inverseSBoxLayer]; exact Hs.
Qed.

Lemma PRESENT_substitution_layers_inverse_witness :
  in_u64 0x0123456789abcdef /\
  inverseSBoxLayer (sBoxLayer 0x0123456789abcdef) = 0x0123456789abcdef.
Proof.
  split; [exact word_u64|].
  apply (PRESENT_substitution_layers_inverse 0x0123456789abcdef word_u64).
Defined.

(** X18. The substitution loops work nibble by nibble: each of the sixteen
    nibbles of the result is the [sbox] (resp. [isbox]) entry of the nibble
    of the state at the same place. *)
Theorem PRESENT_substitution_on_nibbles :
  forall s j, 0 <= j < 16 ->
    Z.land (Z.shiftr (sBoxLayer s) (4 * j)) 0xf = rd sbox (Z.land (Z.shiftr s (4 * j)) 0xf)
    /\ Z.land (Z.shiftr (inverseSBoxLayer s) (4 * j)) 0xf
       = rd isbox (Z.land (Z.shiftr s (4 * j)) 0xf).
Proof.
  intros s j Hj. split; [apply sBoxLayer_nibble | apply inverseSBoxLayer_nibble]; exact Hj.
Qed.

Lemma PRESENT_substitution_on_nibbles_witness :
  0 <= 5 < 16 /\
  Z.land (Z.shiftr (sBoxLayer 0x0123456789abcdef) (4 * 5)) 0xf
  = rd sbox (Z.land (Z.shiftr 0x0123456789abcdef (4 * 5)) 0xf).
Proof.
  split; [lia|]. apply (PRESENT_substitution_on_nibbles 0x0123456789abcdef 5). lia.
Defined.

(** X19. On 64-bit states the two permutation loops of PRESENT undo each
    other, in both orders. *)
Theorem PRESENT_permutation_layers_inverse :
  forall s, in_u64 s -> inversePLayer (pLayer s) = s /\ pLayer (inversePLayer s) = s.
Proof.
  intros s Hs. split; [apply inversePLayer_pLayer | apply pLayer_inversePLayer]; exact Hs.
Qed.

Lemma PRESENT_permutation_layers_inverse_witness :
  in_u64 0x0123456789abcdef /\ inversePLayer (pLayer 0x0123456789abcdef) = 0x0123456789abcdef.
Proof.
  split; [exact word_u64|].
  apply (PRESENT_permutation_layers_inverse 0x0123456789abcdef word_u64).
Defined.

(** X20. Counting bits from the most significant one, the permutation loop
    of [PRESENT_encrypt] moves the bit [k] of the state to the place [p[k]],
    and the loop of [PRESENT_decrypt] fetches the bit [k] from the place
    [p[k]]; both results are 64-bit values. *)
Theorem PRESENT_permutation_moves_bits :
  forall s k, 0 <= k < 64 ->
    Z.testbit (pLayer s) (63 - rd p k) = Z.testbit s (63 - k)
    /\ Z.testbit (inversePLayer s) (63 - k) = Z.testbit s (63 - rd p k)
    /\ in_u64 (pLayer s) /\ in_u64 (inversePLayer s).
Proof.
  intros s k Hk. split; [apply pLayer_bit; exact Hk|].
  split; [apply inversePLayer_bit; exact Hk|].
  split; [apply pLayer_range | apply inversePLayer_range].
Qed.

Lemma PRESENT_permutation_moves_bits_witness :
  0 <= 1 < 64 /\
  Z.testbit (pLayer 0x0123456789abcdef) (63 - rd p 1) = Z.testbit 0x0123456789abcdef (63 - 1).
Proof.
  split; [lia|]. apply (PRESENT_permutation_moves_bits 0x0123456789abcdef 1). lia.
Defined.

(** X21. Under a schedule from [PRESENT_init], whatever the key length,
    encrypting what [PRESENT_decrypt] returned for a block gives the block
    back. *)
Theorem PRESENT_encrypt_after_decrypt :
  forall ctx key keyLen b,
    wf_keys (roundKeys ctx) -> wf_key key -> wf_block b ->
    PRESENT_encrypt (PRESENT_init ctx key keyLen)
                    (PRESENT_decrypt (PRESENT_init ctx key keyLen) b) = b.
Proof.
  intros ctx key keyLen b Hctx Hkey Hb.
  apply present_encrypt_decrypt_ctx; [|exact Hb]. apply PRESENT_init_wf; assumption.
Qed.

Lemma PRESENT_encrypt_after_decrypt_witness :
  wf_keys (roundKeys blank_context) /\ wf_key present_key /\ wf_block (0, 0, 0, 0) /\
  PRESENT_encrypt (PRESENT_init blank_context present_key 128)
                  (PRESENT_decrypt (PRESENT_init blank_context present_key 128) (0, 0, 0, 0))
  = (0, 0, 0, 0).
Proof.
  split; [exact blank_wf|]. split; [exact Claims.wf_present_key|].
  split; [exact Claims.wf_zero_block|].
  apply (PRESENT_encrypt_after_decrypt blank_context present_key 128 (0, 0, 0, 0)
           blank_wf Claims.wf_present_key Claims.wf_zero_block).
Defined.

(** X22. From a context of 64-bit round keys and a key of 16-bit words,
    [PRESENT_init] leaves only 64-bit round keys, whatever the key length;
    the blocks [PRESENT_encrypt] and [PRESENT_decrypt] return are made of
    16-bit words, whatever they are passed. *)
Theorem PRESENT_keeps_words :
  forall ctx key keyLen,
    wf_keys (roundKeys ctx) -> wf_key key ->
    wf_keys (roundKeys (PRESENT_init ctx key keyLen))
    /\ (forall c b, wf_block (PRESENT_encrypt c b) /\ wf_block (PRESENT_decrypt c b)).
Proof.
  intros ctx key keyLen Hctx Hkey. split; [apply PRESENT_init_wf; assumption|].
  intros c b. unfold PRESENT_encrypt, PRESENT_decrypt, store_block, wf_block. cbv zeta.
  split; (split; [apply u16_range|]; split; [apply u16_range|];
          split; apply u16_range).
Qed.

Lemma PRESENT_keeps_words_witness :
  wf_keys (roundKeys blank_context) /\ wf_key present_key /\
  wf_keys (roundKeys (PRESENT_init blank_context present_key 80)).
Proof.
  split; [exact blank_wf|]. split; [exact Claims.wf_present_key|].
  apply (PRESENT_keeps_words blank_context present_key 80 blank_wf Claims.wf_present_key).
Defined.

(** X23. The 80-bit schedule is the key schedule of PRESENT: round key [r]
    is the 64 leftmost bits of the 80-bit key register after [r] updates,
    an update being the rotation by 61 bits to the left, the S-box on the
    four leftmost bits and the xor of the round counter into the bits 19 to
    15. *)
Theorem PRESENT_schedule_80 :
  forall ctx key r,
    length (roundKeys ctx) = 32%nat -> wf_key key -> 0 <= r < 32 ->
    rd (roundKeys (PRESENT_init ctx key 80)) r
    = Z.shiftr (regs update80 (key80 key) (Z.to_nat r)) 16.
Proof. intros ctx key r L Hkey Hr. apply schedule80; assumption. Qed.

Lemma PRESENT_schedule_80_witness :
  length (roundKeys blank_context) = 32%nat /\ wf_key present_key /\ 0 <= 31 < 32 /\
  rd (roundKeys (PRESENT_init blank_context present_key 80)) 31
  = Z.shiftr (regs update80 (key80 present_key) (Z.to_nat 31)) 16.
Proof.
  split; [reflexivity|]. split; [exact Claims.wf_present_key|]. split; [lia|].
  apply (PRESENT_schedule_80 blank_context present_key 31 eq_refl Claims.wf_present_key).
  lia.
Defined.

(** X24. The schedule of the other branch, taken by every key length but
    80: round key [r] is the 64 leftmost bits of the 128-bit key register
    after [r] updates, an update being the rotation by 61 bits to the left,
    the S-box images of the two leftmost nibbles or-ed onto these nibbles
    (they do not replace them) and the xor of the round counter into the
    bits 66 to 62. *)
Theorem PRESENT_schedule_128 :
  forall ctx key keyLen r,
    keyLen <> 80 -> length (roundKeys ctx) = 32%nat -> wf_key key -> 0 <= r < 32 ->
    rd (roundKeys (PRESENT_init ctx key keyLen)) r
    = Z.shiftr (regs update128 (key128 key) (Z.to_nat r)) 64.
Proof. intros ctx key keyLen r Hl L Hkey Hr. apply schedule128; assumption. Qed.

Lemma PRESENT_schedule_128_witness :
  128 <> 80 /\ length (roundKeys blank_context) = 32%nat /\ wf_key present_key /\
  0 <= 31 < 32 /\
  rd (roundKeys (PRESENT_init blank_context present_key 128)) 31
  = Z.shiftr (regs update128 (key128 present_key) (Z.to_nat 31)) 64.
Proof.
  split; [lia|]. split; [reflexivity|]. split; [exact Claims.wf_present_key|].
  split; [lia|].
  apply (PRESENT_schedule_128 blank_context present_key 128 31); [lia | reflexivity | | lia].
  exact Claims.wf_present_key.
Defined.

(** X25. [PRESENT_init] writes all 32 round keys: the context it leaves
    does not depend on what a context of 32 slots held before. *)
Theorem PRESENT_init_forgets_context :
  forall ctx ctx' key keyLen,
    length (roundKeys ctx) = 32%nat -> length (roundKeys ctx') = 32%nat ->
    PRESENT_init ctx key keyLen = PRESENT_init ctx' key keyLen.
Proof. intros ctx ctx' key keyLen L L'. apply PRESENT_init_forgets; assumption. Qed.

Lemma PRESENT_init_forgets_context_witness :
  length (roundKeys blank_context) = 32%nat
  /\ length (roundKeys (PRESENT_init blank_context present_key 80)) = 32%nat
  /\ PRESENT_init blank_context present_key 128
     = PRESENT_init (PRESENT_init blank_context present_key 80) present_key 128.
Proof.
  assert (L : length (roundKeys (PRESENT_init blank_context present_key 80)) = 32%nat)
    by (vm_compute; reflexivity).
  split; [reflexivity|]. split; [exact L|].
  apply (PRESENT_init_forgets_context blank_context
           (PRESENT_init blank_context present_key 80) present_key 128 eq_refl L).
Defined.
End ExtrasPresent.
